(** * react-doc-gen: the documentation patcher, the sanitizer and the locator

    A shallow embedding of
    - [docstring-generator.js]  (sanitizeDocString),
    - [utils/file-updater.js]   (updateFileWithDocStrings and its helpers),
    - [extractor.js]            (extractComponentsFromFile and its helpers),
    with the properties the specification states about them.

    JavaScript strings are modelled as lists of characters ([list ascii]:
    code units below 256); an index that JavaScript reports as [-1] is
    [None].  The file system and the parser are parameters.  Logging has no
    influence on any result and is left out. *)

From Stdlib Require Import Ascii String ZArith Lia DecimalString.
From stdpp Require Import gmap list sorting strings.

Local Open Scope list_scope.

Abbreviation jsstr := (list ascii).

(** A string literal of the source, as a [jsstr]. *)
Definition js (s : string) : jsstr := list_ascii_of_string s.
Arguments js s%_string : simpl never.

Definition nl : ascii := "010"%char.

(** ** JavaScript string primitives *)

Module JS.

Fixpoint startsWith (s p : jsstr) {struct p} : bool :=
  match p, s with
  | [], _ => true
  | _ :: _, [] => false
  | c :: p', d :: s' => if Ascii.eqb c d then startsWith s' p' else false
  end.

Definition endsWith (s p : jsstr) : bool := startsWith (rev s) (rev p).

(** [s.indexOf(p)]: the first index at which [p] occurs. *)
Fixpoint indexOf (s p : jsstr) : option nat :=
  if startsWith s p then Some 0
  else match s with
       | [] => None
       | _ :: s' => option_map S (indexOf s' p)
       end.

(** [s.lastIndexOf(p, pos)]: the last index not above [pos] at which [p]
    occurs.  [i] is the index of the head of [s] in the whole string and
    [acc] the last match seen so far. *)
Fixpoint lastIndexOf_go (p : jsstr) (pos i : nat) (s : jsstr)
    (acc : option nat) : option nat :=
  let acc' := if startsWith s p && (i <=? pos) then Some i else acc in
  match s with
  | [] => acc'
  | _ :: s' => lastIndexOf_go p pos (S i) s' acc'
  end.

Definition lastIndexOfFrom (s p : jsstr) (pos : nat) : option nat :=
  lastIndexOf_go p pos 0 s None.

(** [s.lastIndexOf(p)]: the position defaults to the end of [s]. *)
Definition lastIndexOf (s p : jsstr) : option nat :=
  lastIndexOfFrom s p (length s).

(** [s.substring(a, b)] swaps its arguments when [a > b] and clamps them
    to the length of [s]. *)
Definition substring (s : jsstr) (a b : nat) : jsstr :=
  take (Nat.max a b - Nat.min a b) (drop (Nat.min a b) s).

(** [s.substring(a)]. *)
Definition substringFrom (s : jsstr) (a : nat) : jsstr := drop a s.

(** White space and line terminators, as [trim] sees them among the
    code units below 256: TAB, LF, VT, FF, CR, SPACE and NBSP. *)
Definition isWhiteSpace (c : ascii) : bool :=
  let n := nat_of_ascii c in
  ((9 <=? n) && (n <=? 13)) || (n =? 32) || (n =? 160).

Fixpoint trimStart (s : jsstr) : jsstr :=
  match s with
  | [] => []
  | c :: s' => if isWhiteSpace c then trimStart s' else s
  end.

Definition trimEnd (s : jsstr) : jsstr := rev (trimStart (rev s)).

Definition trim (s : jsstr) : jsstr := trimStart (trimEnd s).

(** [s.split('\n')[0]]: the text before the first line feed. *)
Fixpoint firstLine (s : jsstr) : jsstr :=
  match s with
  | [] => []
  | c :: s' => if Ascii.eqb c nl then [] else c :: firstLine s'
  end.

(** [s.split('\n')]. *)
Fixpoint splitLines (s : jsstr) : list jsstr :=
  match s with
  | [] => [[]]
  | c :: s' =>
      if Ascii.eqb c nl then [] :: splitLines s'
      else match splitLines s' with
           | [] => [[c]]
           | l :: ls => (c :: l) :: ls
           end
  end.

(** [s.replace(/p/g, r)] for a literal, non-empty pattern [p]: matches are
    taken from left to right and do not overlap.  [skip] counts the
    characters of the current match still to be dropped. *)
Fixpoint replaceAll_go (p r : jsstr) (skip : nat) (s : jsstr) : jsstr :=
  match s with
  | [] => []
  | c :: s' =>
      match skip with
      | S k => replaceAll_go p r k s'
      | O => if startsWith s p
             then r ++ replaceAll_go p r (length p - 1) s'
             else c :: replaceAll_go p r 0 s'
      end
  end.

Definition replaceAll (s p r : jsstr) : jsstr := replaceAll_go p r 0 s.

(** A JS number is a double.  The integers among the doubles are those of
    magnitude up to 2^53 and, above, the multiples of the power of two that
    leaves 53 significant bits.  [roundDouble z] is the double nearest to
    the integer [z], a tie going to the even significand: what an addition
    or subtraction of two integer doubles returns when its exact result is
    [z] (below the overflow threshold of 2^1024). *)
Definition roundDouble (z : Z) : Z :=
  let a := Z.abs z in
  if (a <=? 2 ^ 53)%Z then z
  else
    let ulp := (2 ^ (Z.log2 a - 52))%Z in
    let q := (a / ulp)%Z in
    let r := (a mod ulp)%Z in
    let q' :=
      if (2 * r <? ulp)%Z then q
      else if (ulp <? 2 * r)%Z then (q + 1)%Z
      else if Z.even q then q else (q + 1)%Z in
    (Z.sgn z * (q' * ulp))%Z.

End JS.

(** ** docstring-generator.js *)

Module Generator.
Import JS.

(** [sanitizeDocString], lines 121-146.  The result of the first
    replacement (of the open marker) is overwritten by the second one,
    which starts again from [docString]; the embedding keeps that. *)
Definition sanitizeDocString (docString : jsstr) : jsstr :=
  let sanitized := replaceAll docString (js "/**") [] in
  let sanitized := replaceAll docString (js "/*") [] in
  let sanitized := replaceAll sanitized (js "**/") [] in
  let sanitized := replaceAll sanitized (js "*/") [] in
  let sanitized :=
    if negb (startsWith sanitized (js "/**"))
    then js "/**"
           ++ (if startsWith sanitized (js "*") then [] else nl :: js " *")
           ++ js " " ++ sanitized
    else sanitized in
  let sanitized :=
    if negb (endsWith sanitized (js "*/"))
    then sanitized ++ nl :: js " */"
    else sanitized in
  sanitized.

End Generator.

(** ** Data shared by the locator and the patcher *)

Record Location := { line : nat; column : nat }.

(** A component as [addComponent] (extractor.js, lines 177-190) builds
    it; [type] holds the tag string. *)
Record Component := {
  name : jsstr;
  uniqueId : jsstr;
  file : jsstr;
  filePath : jsstr;
  code : jsstr;
  location : Location;
  startPos : nat;
  endPos : nat;
  existingComment : option jsstr;
  commentStart : option nat;
  commentEnd : option nat;
  type : jsstr
}.

(** An entry of the object [processBatch] returns (docstring-generator.js,
    lines 64-70); [null] is [None]. *)
Record DocStringResult := {
  docstring : option jsstr;
  skipped : bool;
  error : option jsstr
}.

(** [Array.prototype.sort] with a comparator: a stable sort; [x] goes before
    the first element it does not exceed. *)
Fixpoint sortInsert {A} (cmp : A → A → Z) (x : A) (l : list A) : list A :=
  match l with
  | [] => [x]
  | y :: l' => if (cmp x y <=? 0)%Z then x :: l else y :: sortInsert cmp x l'
  end.

Definition sort {A} (cmp : A → A → Z) (l : list A) : list A :=
  foldr (sortInsert cmp) [] l.

(** ** utils/file-updater.js *)

Module Updater.
Import JS.

Record Options := { isDryRun : bool; updateExisting : bool }.

(** The object [findComponentPosition] returns. *)
Record Position := { start : nat; signatureStart : nat; signatureEnd : nat }.

(** The object [findExistingDocString] returns ([start], [end], [content]). *)
Record ExistingDoc := { docStart : nat; docEnd : nat; docContent : jsstr }.

(** Lines 202-206. *)
Definition getComponentSignature (component : Component) : jsstr :=
  let firstLine := trim (firstLine (code component)) in
  firstLine.

(** Lines 169-197.  Both branches of the [export] test leave [exportStart]
    at [lineStart], as in the source. *)
Definition findComponentPosition (content : jsstr) (component : Component)
    : option Position :=
  let componentSignature := getComponentSignature component in
  match indexOf content componentSignature with
  | None => None
  | Some signatureIndex =>
      let beforeSignature := substring content 0 signatureIndex in
      let lastNewline := lastIndexOf beforeSignature [nl] in
      let lineStart :=
        match lastNewline with None => 0 | Some k => k + 1 end in
      let exportStart := lineStart in
      let lineContent := substring content lineStart signatureIndex in
      let exportStart :=
        if startsWith (trim lineContent) (js "export")
        then lineStart else exportStart in
      Some {| start := exportStart;
              signatureStart := signatureIndex;
              signatureEnd := signatureIndex + length componentSignature |}
  end.

(** Lines 211-233.  The indices are those of [before], the trimmed text.
    After the [endsWith] test [lastIndexOf] cannot miss; the [None] branch
    spells out what the source would compute from [-1]. *)
Definition findExistingDocString (content : jsstr) (position : nat)
    : option ExistingDoc :=
  let before := trim (substring content 0 position) in
  if negb (endsWith before (js "*/")) then None
  else
    let docEnd := lastIndexOf before (js "*/") in
    let docStart :=
      match docEnd with
      | Some e => lastIndexOfFrom before (js "/**") e
      | None => lastIndexOfFrom before (js "/**") 0
      end in
    match docStart with
    | None => None
    | Some docStart =>
        let docEnd := match docEnd with Some e => e + 2 | None => 1 end in
        Some {| docStart := docStart;
                docEnd := docEnd;
                docContent := substring before docStart docEnd |}
    end.

(** The test of line 96, [!docStringResult || !docStringResult.docstring ||
    docStringResult.skipped], negated: the text to apply, if any.  The empty
    string is falsy. *)
Definition usableDocString (docStringResult : option DocStringResult)
    : option jsstr :=
  match docStringResult with
  | Some r =>
      match docstring r with
      | Some (c :: d) => if skipped r then None else Some (c :: d)
      | _ => None
      end
  | None => None
  end.

(** The variables of the loop of lines 87-151. *)
Record LoopState := {
  content : jsstr;
  modified : bool;
  success : nat;
  failed : nat;
  skippedCount : nat
}.

(** [skipped++], [failed++], and a change of the buffer followed by
    [modified = true; success++]. *)
Definition countSkipped (st : LoopState) : LoopState :=
  {| content := content st; modified := modified st;
     success := success st; failed := failed st;
     skippedCount := skippedCount st + 1 |}.

Definition countFailed (st : LoopState) : LoopState :=
  {| content := content st; modified := modified st;
     success := success st; failed := failed st + 1;
     skippedCount := skippedCount st |}.

Definition countSuccess (newContent : jsstr) (st : LoopState) : LoopState :=
  {| content := newContent; modified := true;
     success := success st + 1; failed := failed st;
     skippedCount := skippedCount st |}.

(** One iteration of the loop, lines 92-151.  [originalPosition] (line 104)
    is computed and never read.  No statement of the inner [try] block
    throws on the data modelled here, so its [catch] is never entered. *)
Definition processComponent (updateExisting : bool)
    (docStrings : gmap jsstr DocStringResult)
    (st : LoopState) (component : Component) : LoopState :=
  match usableDocString (docStrings !! uniqueId component) with
  | None => countSkipped st
  | Some doc =>
      match findComponentPosition (content st) component with
      | None => countFailed st
      | Some currentPosition =>
          match findExistingDocString (content st) (start currentPosition) with
          | Some existingDoc =>
              if updateExisting then
                countSuccess
                  (substring (content st) 0 (docStart existingDoc)
                     ++ doc
                     ++ substringFrom (content st) (docEnd existingDoc)) st
              else countSkipped st
          | None =>
              let beforeComponent :=
                substring (content st) 0 (start currentPosition) in
              let lastNewline := lastIndexOf beforeComponent [nl] in
              let insertPos :=
                match lastNewline with None => 0 | Some k => k + 1 end in
              countSuccess
                (substring (content st) 0 insertPos
                   ++ doc ++ [nl]
                   ++ substringFrom (content st) insertPos) st
          end
      end
  end.

(** Lines 81-151: the buffer starts as the text read, the components are
    taken by descending [startPos]. *)
Definition patchFile (originalContent : jsstr) (components : list Component)
    (docStrings : gmap jsstr DocStringResult) (updateExisting : bool)
    : LoopState :=
  let sortedComponents :=
    sort (λ a b, Z.of_nat (startPos b) - Z.of_nat (startPos a))%Z components in
  foldl (processComponent updateExisting docStrings)
        {| content := originalContent; modified := false;
           success := 0; failed := 0; skippedCount := 0 |}
        sortedComponents.

(** Lines 60-68, on integer doubles: the subtraction and the addition of
    line 67 each round their result. *)
Definition adjustPosition (originalPos modificationPos oldLength newLength : Z)
    : Z :=
  if (originalPos <=? modificationPos)%Z then originalPos
  else roundDouble (roundDouble (originalPos - oldLength) + newLength).

(** What [updateFileWithDocStrings] returns; the dry-run object has no
    [skipped] property. *)
Record FileResult := {
  resultSuccess : nat;
  resultFailed : nat;
  resultSkipped : option nat;
  resultModified : bool
}.

Section FileSystem.

(** The file system behind [fs.readFile] and [fs.writeFile]: a read either
    yields the text or rejects; a write leaves a new state and either
    resolves or rejects. *)
Context {FS : Type}.
Variable readFile : jsstr → FS → option jsstr.
Variable writeFile : jsstr → jsstr → FS → FS * bool.

(** Lines 72-164. *)
Definition updateFileWithDocStrings (filePath : jsstr)
    (components : list Component) (docStrings : gmap jsstr DocStringResult)
    (options : Options) (fs : FS) : FileResult * FS :=
  if isDryRun options then
    ({| resultSuccess := length components; resultFailed := 0;
        resultSkipped := None; resultModified := false |}, fs)
  else
    let ioError :=
      {| resultSuccess := 0; resultFailed := length components;
         resultSkipped := Some 0; resultModified := false |} in
    match readFile filePath fs with
    | None => (ioError, fs)
    | Some originalContent =>
        let st := patchFile originalContent components docStrings
                            (updateExisting options) in
        let result :=
          {| resultSuccess := success st; resultFailed := failed st;
             resultSkipped := Some (skippedCount st);
             resultModified := modified st |} in
        if modified st then
          match writeFile filePath (content st) fs with
          | (fs', true) => (result, fs')
          | (fs', false) => (ioError, fs')
          end
        else (result, fs)
    end.

(** The object [updateFilesWithDocStrings] returns ([success], [skipped],
    [failed], [filesProcessed], [filesModified]). *)
Record Results := {
  totalSuccess : nat;
  totalSkipped : nat;
  totalFailed : nat;
  filesProcessed : nat;
  filesModified : nat
}.

(** The filter of lines 28-31: [docStringResult && docStringResult.skipped]. *)
Definition markedSkipped (docStrings : gmap jsstr DocStringResult)
    (c : Component) : bool :=
  match docStrings !! uniqueId c with
  | Some docStringResult => skipped docStringResult
  | None => false
  end.

(** One iteration of the loop of lines 24-46. *)
Definition updateFilesStep (docStrings : gmap jsstr DocStringResult)
    (options : Options) (acc : Results * FS)
    (entry : jsstr * list Component) : Results * FS :=
  let '(results, fs) := acc in
  let '(filePath, components) := entry in
  let skippedComponents :=
    length (List.filter (markedSkipped docStrings) components) in
  let '(fileResult, fs') :=
    updateFileWithDocStrings filePath components docStrings options fs in
  ({| totalSuccess := totalSuccess results + resultSuccess fileResult;
      totalSkipped := totalSkipped results + skippedComponents;
      totalFailed := totalFailed results + resultFailed fileResult;
      filesProcessed := filesProcessed results + 1;
      filesModified :=
        if resultModified fileResult then filesModified results + 1
        else filesModified results |}, fs').

(** Lines 14-49.  [componentsByFile] is given by its entries, in the order
    of [Object.entries]; [projectDir] is used for the log only. *)
Definition updateFilesWithDocStrings
    (componentsByFile : list (jsstr * list Component))
    (docStrings : gmap jsstr DocStringResult) (projectDir : jsstr)
    (options : Options) (fs : FS) : Results * FS :=
  foldl (updateFilesStep docStrings options)
        ({| totalSuccess := 0; totalSkipped := 0; totalFailed := 0;
            filesProcessed := 0; filesModified := 0 |}, fs)
        componentsByFile.

End FileSystem.

End Updater.

(** ** extractor.js *)

Module Locator.
Import JS.

(** The syntax tree of @babel/parser, as far as the visitors look at it.
    Every node carries [start] and [end]; the node types the visitors
    never inspect are [OtherNode], with their child nodes in traversal
    order.  An absent child ([null]) is [None].  A class declaration keeps
    the name of its [id] identifier instead of the identifier node. *)
#[warnings="-register-all"]
Inductive Node : Type :=
| Identifier (start end_ : nat) (name : jsstr)
| MemberExpression (start end_ : nat) (object property : Node)
| CallExpression (start end_ : nat) (callee : Node) (arguments : list Node)
| ArrowFunctionExpression (start end_ : nat) (params : list Node) (body : Node)
| FunctionDeclaration (start end_ : nat) (id : option Node)
    (params : list Node) (body : Node)
| VariableDeclarator (start end_ : nat) (id : Node) (init : option Node)
| VariableDeclaration (start end_ : nat) (declarations : list Node)
| ClassDeclaration (start end_ : nat) (idName : option jsstr)
    (superClass : option Node) (body : Node)
| OtherNode (start end_ : nat) (children : list Node).

Definition nodeStart (n : Node) : nat :=
  match n with
  | Identifier s _ _ | MemberExpression s _ _ _ | CallExpression s _ _ _
  | ArrowFunctionExpression s _ _ _ | FunctionDeclaration s _ _ _ _
  | VariableDeclarator s _ _ _ | VariableDeclaration s _ _
  | ClassDeclaration s _ _ _ _ | OtherNode s _ _ => s
  end.

Definition nodeEnd (n : Node) : nat :=
  match n with
  | Identifier _ e _ | MemberExpression _ e _ _ | CallExpression _ e _ _
  | ArrowFunctionExpression _ e _ _ | FunctionDeclaration _ e _ _ _
  | VariableDeclarator _ e _ _ | VariableDeclaration _ e _
  | ClassDeclaration _ e _ _ _ | OtherNode _ e _ => e
  end.

(** [n.name]: [undefined] ([None]) on a node that is not an identifier. *)
Definition nodeName (n : Node) : option jsstr :=
  match n with Identifier _ _ name => Some name | _ => None end.

Definition isIdentifier (n : Node) : bool :=
  match n with Identifier _ _ _ => true | _ => false end.

Definition isVariableDeclaration (n : Node) : bool :=
  match n with VariableDeclaration _ _ _ => true | _ => false end.

(** An uncaught [TypeError] is [Thrown]. *)
Inductive Completion (A : Type) : Type :=
| Normal (a : A)
| Thrown.
Arguments Normal {A} a.
Arguments Thrown {A}.

(** The paths [traverse] enters, in its order (a node before its children,
    children from left to right), each with its ancestors, nearest
    first. *)
Fixpoint paths (ancestors : list Node) (n : Node) {struct n}
    : list (Node * list Node) :=
  (n, ancestors) ::
  match n with
  | Identifier _ _ _ => []
  | MemberExpression _ _ o p =>
      paths (n :: ancestors) o ++ paths (n :: ancestors) p
  | CallExpression _ _ c args =>
      paths (n :: ancestors) c ++ flat_map (paths (n :: ancestors)) args
  | ArrowFunctionExpression _ _ ps b =>
      flat_map (paths (n :: ancestors)) ps ++ paths (n :: ancestors) b
  | FunctionDeclaration _ _ id ps b =>
      match id with Some i => paths (n :: ancestors) i | None => [] end
        ++ flat_map (paths (n :: ancestors)) ps ++ paths (n :: ancestors) b
  | VariableDeclarator _ _ id init =>
      paths (n :: ancestors) id
        ++ match init with Some i => paths (n :: ancestors) i | None => [] end
  | VariableDeclaration _ _ ds => flat_map (paths (n :: ancestors)) ds
  | ClassDeclaration _ _ _ sc b =>
      match sc with Some c => paths (n :: ancestors) c | None => [] end
        ++ paths (n :: ancestors) b
  | OtherNode _ _ ch => flat_map (paths (n :: ancestors)) ch
  end.

(** [/^[A-Z]/.test(name)]. *)
Definition startsUpperCase (name : jsstr) : bool :=
  match name with
  | c :: _ => (65 <=? nat_of_ascii c) && (nat_of_ascii c <=? 90)
  | [] => false
  end.

(** [/[^a-zA-Z0-9]/]: a character that is not a letter or digit. *)
Definition isAlphaNumeric (c : ascii) : bool :=
  let n := nat_of_ascii c in
  ((97 <=? n) && (n <=? 122)) || ((65 <=? n) && (n <=? 90))
  || ((48 <=? n) && (n <=? 57)).

(** A number in a template literal. *)
Definition numberToString (n : nat) : jsstr :=
  js (NilZero.string_of_uint (Nat.to_uint n)).

(** [list.includes(x)] for a list of strings and a possibly undefined [x]. *)
Definition includes (l : list jsstr) (x : option jsstr) : bool :=
  match x with
  | Some s => bool_decide (s ∈ l)
  | None => false
  end.

(** Lines 92-100. *)
Definition getLineAndColumn (text : jsstr) (position : nat) : Location :=
  if position =? 0 then {| line := 1; column := 1 |}
  else
    let lines := splitLines (take position text) in
    {| line := length lines;
       column := length (List.last lines []) + 1 |}.

(** What [findPrecedingComment] returns. *)
Record PrecedingComment := {
  comment : jsstr;
  commentStartIndex : nat;
  commentEndIndex : nat
}.

(** Lines 105-126. *)
Definition findPrecedingComment (text : jsstr) (componentStart : nat)
    : option PrecedingComment :=
  let preComponent := substring text 0 componentStart in
  match lastIndexOf preComponent (js "*/") with
  | None => None
  | Some commentEndIndex =>
      match lastIndexOfFrom preComponent (js "/**") commentEndIndex with
      | None => None
      | Some commentStartIndex =>
          let betweenText :=
            trim (substringFrom preComponent (commentEndIndex + 2)) in
          match betweenText with
          | _ :: _ => None
          | [] =>
              Some {| comment := substring preComponent commentStartIndex
                                   (commentEndIndex + 2);
                      commentStartIndex := commentStartIndex;
                      commentEndIndex := commentEndIndex + 2 |}
          end
      end
  end.

(** [addComponent], lines 159-191: the component pushed onto
    [components]. *)
Definition addComponent (filePath fileContent relativePath : jsstr)
    (components : list Component)
    (name : jsstr) (startNode endNode : Node) (type : jsstr)
    : list Component :=
  let startPos := nodeStart startNode in
  let endPos := nodeEnd endNode in
  let location := getLineAndColumn fileContent startPos in
  let existingComment := findPrecedingComment fileContent startPos in
  let componentCode := substring fileContent startPos endPos in
  let uniqueId :=
    name ++ js "_"
      ++ map (λ c, if isAlphaNumeric c then c else "_"%char) relativePath
      ++ js "_" ++ numberToString (line location)
      ++ js "_" ++ numberToString (column location) in
  components ++ [
    {| name := name;
       uniqueId := uniqueId;
       file := relativePath;
       filePath := filePath;
       code := componentCode;
       location := location;
       startPos := startPos;
       endPos := endPos;
       existingComment := comment <$> existingComment;
       commentStart := commentStartIndex <$> existingComment;
       commentEnd := commentEndIndex <$> existingComment;
       type := type |} ].

Definition wrappers : list jsstr := [js "styled"; js "memo"; js "forwardRef"].

(** The three visitors, lines 196-254, at one path. *)
Definition visit (filePath fileContent relativePath : jsstr)
    (components : list Component) (path : Node * list Node)
    : Completion (list Component) :=
  let add := addComponent filePath fileContent relativePath components in
  let '(node, ancestors) := path in
  match node with
  | FunctionDeclaration _ _ (Some id) _ _ =>
      match id with
      | Identifier _ _ idName =>
          if startsUpperCase idName
          then Normal (add idName node node (js "FunctionComponent"))
          else Normal components
      | _ => Normal components
      end
  | VariableDeclarator _ _ (Identifier _ _ name) init =>
      if startsUpperCase name then
        let shape : option jsstr :=
          match init with
          | Some (ArrowFunctionExpression _ _ _ _) =>
              Some (js "ArrowFunctionComponent")
          | Some (CallExpression _ _ callee _) =>
              if isIdentifier callee && includes wrappers (nodeName callee)
              then Some (if bool_decide (nodeName callee = Some (js "styled"))
                         then js "StyledComponent" else js "HOCComponent")
              else
                match callee with
                | MemberExpression _ _ _ property =>
                    if includes wrappers (nodeName property)
                    then Some (if bool_decide
                                    (nodeName property = Some (js "styled"))
                               then js "StyledComponent"
                               else js "HOCComponent")
                    else None
                | _ => None
                end
          | _ => None
          end in
        match shape with
        | Some type =>
            match List.find isVariableDeclaration ancestors with
            | Some declaration =>
                Normal (add name declaration declaration type)
            | None => Normal components
            end
        | None => Normal components
        end
      else Normal components
  | ClassDeclaration _ _ id (Some superClass) _ =>
      if match superClass with
         | Identifier _ _ superName =>
             bool_decide (superName = js "Component")
         | MemberExpression _ _ object property =>
             bool_decide (nodeName object = Some (js "React"))
             && bool_decide (nodeName property = Some (js "Component"))
         | _ => false
         end
      then
        match id with
        | Some idName => Normal (add idName node node (js "ClassComponent"))
        | None => Thrown
        end
      else Normal components
  | _ => Normal components
  end.

(** [traverse(ast, visitors)], lines 194-255: the visitors run at every path
    in order; an exception ends the traversal. *)
Fixpoint visitAll (filePath fileContent relativePath : jsstr)
    (components : list Component) (ps : list (Node * list Node))
    : Completion (list Component) :=
  match ps with
  | [] => Normal components
  | p :: ps' =>
      match visit filePath fileContent relativePath components p with
      | Normal components' =>
          visitAll filePath fileContent relativePath components' ps'
      | Thrown => Thrown
      end
  end.

Section Parser.

(** [path.extname], [String.prototype.toLowerCase] and [babylon.parse] of
    the libraries; the parser gets the text and the plugin list, and throws
    ([None]) on text it cannot parse. *)
Variable extname : jsstr → jsstr.
Variable toLowerCase : jsstr → jsstr.
Variable parse : jsstr → list jsstr → option Node.

(** Lines 131-261. *)
Definition extractComponentsFromFile (filePath fileContent relativePath : jsstr)
    : Completion (list Component) :=
  let components := [] in
  let extension := toLowerCase (extname filePath) in
  let plugins := [js "jsx"] in
  let plugins :=
    if bool_decide (extension = js ".ts") || bool_decide (extension = js ".tsx")
    then plugins ++ [js "typescript"] else plugins in
  let plugins := plugins ++ [js "classProperties"] in
  let plugins := plugins ++ [js "objectRestSpread"] in
  let plugins := plugins ++ [js "dynamicImport"] in
  match parse fileContent plugins with
  | None => Normal components
  | Some ast =>
      match visitAll filePath fileContent relativePath components
              (paths [] ast) with
      | Normal components =>
          Normal (sort (λ a b, Z.of_nat (startPos a) - Z.of_nat (startPos b))%Z
                       components)
      | Thrown => Thrown
      end
  end.

End Parser.

End Locator.

(** ** docstring-generator.js, the batches; openai-utils.js, the fallback *)

Module Batch.
Import JS Generator.

(** [generateBasicDocString], openai-utils.js, lines 208-218. *)
Definition generateBasicDocString (componentName filePath : jsstr)
    (location : Location) (componentType : jsstr) : jsstr :=
  js "/**" ++ nl :: js " * " ++ componentName ++ js " Component"
    ++ nl :: js " *"
    ++ nl :: js " * @description A React component defined in " ++ filePath
    ++ js " (line " ++ Locator.numberToString (line location)
    ++ js ", column " ++ Locator.numberToString (column location) ++ js ")"
    ++ nl :: js " * @component " ++ componentType
    ++ nl :: js " * @param {Object} props - Component props"
    ++ nl :: js " * @returns {React.ReactElement} A React component"
    ++ nl :: js " */".

(** The options the generator reads; the numbers are integers. *)
Record Options := {
  skipExisting : bool;
  batchSize : Z;
  rateLimit : Z
}.

(** [a.slice(start, end)]: a negative index counts from the end, and both
    are clamped to the array. *)
Definition sliceIndex (len : nat) (k : Z) : nat :=
  if (k <? 0)%Z then Z.to_nat (Z.max (Z.of_nat len + k) 0)
  else Z.to_nat (Z.min k (Z.of_nat len)).

Definition slice {A} (l : list A) (start end_ : Z) : list A :=
  take (sliceIndex (length l) end_ - sliceIndex (length l) start)
       (drop (sliceIndex (length l) start) l).

Section Oracle.

(** The generation call of openai-utils.js, with its cache and its request:
    what it returns for its arguments, [None] when it throws. *)
Context {Client : Type}.
Variable generateDocStringWithOpenAI :
  Client → jsstr → jsstr → Location → jsstr → jsstr → option jsstr.

(** The body of the [map] callback of [processBatch], lines 18-58: the
    entry stored for one component.  On strings [sanitizeDocString] does
    not throw, so the outer [catch] is never entered. *)
Definition batchEntry (openaiClient : option Client) (options : Options)
    (component : Component) : jsstr * DocStringResult :=
  if skipExisting options
     && match existingComment component with Some (_ :: _) => true | _ => false end
  then (uniqueId component,
        {| docstring := None; skipped := true; error := None |})
  else
    let componentType :=
      match type component with [] => js "Component" | t => t end in
    let basic :=
      generateBasicDocString (name component) (file component)
        (location component) componentType in
    let docString :=
      match openaiClient, code component with
      | Some client, _ :: _ =>
          match generateDocStringWithOpenAI client (name component)
                  (file component) (location component) (code component)
                  componentType with
          | Some generated => generated
          | None => basic
          end
      | _, _ => basic
      end in
    let docString := sanitizeDocString docString in
    (uniqueId component,
     {| docstring := Some docString; skipped := false; error := None |}).

(** [processBatch], lines 14-73: the entries are stored under their ids in
    the order of the batch, a later one replacing an earlier one. *)
Definition processBatch (batch : list Component) (openaiClient : option Client)
    (options : Options) : gmap jsstr DocStringResult :=
  foldl (λ results component,
           let '(id, entry) := batchEntry openaiClient options component in
           <[id := entry]> results)
        ∅ batch.

(** The loop of lines 95-113 of [generateDocStrings]; [fuel] bounds the
    number of iterations and [None] means that it did not suffice.  The
    wait between batches changes no result. *)
Fixpoint generateLoop (allComponents : list Component)
    (openaiClient : option Client) (options : Options) (batchSize : Z)
    (fuel : nat) (i : Z) (results : gmap jsstr DocStringResult)
    : option (gmap jsstr DocStringResult) :=
  if (i <? Z.of_nat (length allComponents))%Z then
    match fuel with
    | O => None
    | S fuel' =>
        let batch := slice allComponents i (i + batchSize)%Z in
        let batchResults := processBatch batch openaiClient options in
        generateLoop allComponents openaiClient options batchSize fuel'
          (i + batchSize)%Z (batchResults ∪ results)
    end
  else Some results.

(** [options.batchSize || Math.min(5, Math.floor(options.rateLimit / 2))],
    line 91. *)
Definition effectiveBatchSize (options : Options) : Z :=
  if (batchSize options =? 0)%Z then Z.min 5 (rateLimit options / 2)
  else batchSize options.

(** [generateDocStrings], lines 78-116. *)
Definition generateDocStrings (componentsByFile : list (jsstr * list Component))
    (openaiClient : option Client) (options : Options) (fuel : nat)
    : option (gmap jsstr DocStringResult) :=
  let allComponents := concat (map snd componentsByFile) in
  generateLoop allComponents openaiClient options (effectiveBatchSize options)
    fuel 0 ∅.

End Oracle.

End Batch.

(** ** extractor.js, the ignore patterns *)

Module Scanner.
Import JS.

Section Libraries.

(** [path.join], [path.relative] and [minimatch] of the libraries, and the
    file system behind [fs.existsSync] and [readFile]. *)
Context {FS : Type}.
Variable join : jsstr → jsstr → jsstr.
Variable relative : jsstr → jsstr → jsstr.
Variable minimatch : jsstr → jsstr → bool.
Variable existsSync : jsstr → FS → bool.
Variable readFile : jsstr → FS → option jsstr.

(** The loop of lines 29-36 of [loadGitignore]. *)
Definition collectPatterns (lines : list jsstr) : list jsstr :=
  foldl (λ ignorePatterns line,
           let trimmedLine := trim line in
           match trimmedLine with
           | [] => ignorePatterns
           | _ => if startsWith trimmedLine (js "#") then ignorePatterns
                  else ignorePatterns ++ [trimmedLine]
           end)
        [] lines.

(** [loadGitignore], lines 20-46: a missing file and a failed read both
    give no pattern. *)
Definition loadGitignore (dir : jsstr) (fs : FS) : list jsstr :=
  let gitignorePath := join dir (js ".gitignore") in
  if existsSync gitignorePath fs then
    match readFile gitignorePath fs with
    | Some content => collectPatterns (splitLines content)
    | None => []
    end
  else [].

(** [isIgnored], lines 51-79. *)
Definition isIgnored (filePath : jsstr) (ignorePatterns : list jsstr)
    (baseDir : jsstr) : bool :=
  let relativePath := relative baseDir filePath in
  foldl (λ shouldIgnore pattern,
           if startsWith pattern (js "!") then
             let negatedPattern := substringFrom pattern 1 in
             if minimatch relativePath negatedPattern then false
             else shouldIgnore
           else
             if minimatch relativePath pattern then true else shouldIgnore)
        false ignorePatterns.

End Libraries.

End Scanner.

(** ** Sample files *)

Module Samples.
Import Locator.

(** A parser that knows one file. *)
Definition parseOnly (text : jsstr) (ast : Node)
    : jsstr → list jsstr → option Node :=
  λ input _, if decide (input = text) then Some ast else None.

(** [path.extname] on the paths used below, all of which end in [.js]. *)
Definition extnameJs : jsstr → jsstr := λ _, js ".js".

(** [toLowerCase] on an extension that is in lower case already. *)
Definition lowerCased : jsstr → jsstr := λ extension, extension.

(** The component [addComponent] builds in [a.js] for a declaration without
    a preceding comment. *)
Definition componentOf (name type code : jsstr) (startPos line column : nat)
    : Component :=
  {| name := name;
     uniqueId := name ++ js "_a_js_" ++ numberToString line
                   ++ js "_" ++ numberToString column;
     file := js "a.js";
     filePath := js "/project/src/a.js";
     code := code;
     location := {| line := line; column := column |};
     startPos := startPos;
     endPos := startPos + length code;
     existingComment := None;
     commentStart := None;
     commentEnd := None;
     type := type |}.

Definition generated (text : jsstr) : DocStringResult :=
  {| docstring := Some text; skipped := false; error := None |}.

Definition fooLine : jsstr := js "const Foo = () => 1;".
Definition barLine : jsstr := js "const Bar = () => 2;".

(** [Foo] and [Bar] on two lines, and on one. *)
Definition twoLines : jsstr := fooLine ++ nl :: barLine ++ [nl].
Definition oneLine : jsstr := fooLine ++ js " " ++ barLine ++ [nl].

(** The tree of both: File, Program and two variable declarations at 0-20
    and 21-41. *)
Definition fooBarAst : Node :=
  OtherNode 0 42 [OtherNode 0 42 [
    VariableDeclaration 0 20 [
      VariableDeclarator 6 19 (Identifier 6 9 (js "Foo"))
        (Some (ArrowFunctionExpression 12 19 [] (OtherNode 18 19 [])))];
    VariableDeclaration 21 41 [
      VariableDeclarator 27 40 (Identifier 27 30 (js "Bar"))
        (Some (ArrowFunctionExpression 33 40 [] (OtherNode 39 40 [])))]]].

Definition foo : Component :=
  componentOf (js "Foo") (js "ArrowFunctionComponent") fooLine 0 1 1.
Definition bar : Component :=
  componentOf (js "Bar") (js "ArrowFunctionComponent") barLine 21 2 1.
Definition barOnLine1 : Component :=
  componentOf (js "Bar") (js "ArrowFunctionComponent") barLine 21 1 22.

Definition fooDoc : jsstr := js "/** Foo */".
Definition barDoc : jsstr := js "/** Bar */".

Definition fooBarDocs : gmap jsstr DocStringResult :=
  <[uniqueId foo := generated fooDoc]>
    (<[uniqueId bar := generated barDoc]> ∅).

Definition oneLineDocs : gmap jsstr DocStringResult :=
  <[uniqueId foo := generated fooDoc]>
    (<[uniqueId barOnLine1 := generated barDoc]> ∅).

(** [twoLines] after the first pass, and its declarations located again. *)
Definition twoLinesPatched : jsstr :=
  fooDoc ++ nl :: fooLine ++ nl :: barDoc ++ nl :: barLine ++ [nl].
Definition fooAgain : Component :=
  componentOf (js "Foo") (js "ArrowFunctionComponent") fooLine 11 2 1.
Definition barAgain : Component :=
  componentOf (js "Bar") (js "ArrowFunctionComponent") barLine 43 4 1.
Definition fooBarDocsAgain : gmap jsstr DocStringResult :=
  <[uniqueId fooAgain := generated fooDoc]>
    (<[uniqueId barAgain := generated barDoc]> ∅).

(** A documentation text that quotes the declaration it describes. *)
Definition quotingDoc : jsstr :=
  js "/**" ++ nl :: js " * const Foo = () => 1;" ++ nl :: js " */".
Definition fooOnly : jsstr := fooLine ++ [nl].
Definition quotingDocs : gmap jsstr DocStringResult :=
  <[uniqueId foo := generated quotingDoc]> ∅.
Definition fooQuoted : Component :=
  componentOf (js "Foo") (js "ArrowFunctionComponent") fooLine 32 4 1.
Definition quotingDocsAgain : gmap jsstr DocStringResult :=
  <[uniqueId fooQuoted := generated quotingDoc]> ∅.

(** A documented declaration in a file that begins with an empty line. *)
Definition documentedFoo : jsstr :=
  nl :: js "/** old */" ++ nl :: fooLine ++ [nl].
Definition fooLine3 : Component :=
  componentOf (js "Foo") (js "ArrowFunctionComponent") fooLine 12 3 1.
Definition newDoc : jsstr := js "/** new */".
Definition newDocs : gmap jsstr DocStringResult :=
  <[uniqueId fooLine3 := generated newDoc]> ∅.

(** A component declared inside another one:
<<
function Outer() {
  const Inner = () => 1;
  return Inner;
}
>> *)
Definition nestedText : jsstr :=
  js "function Outer() {" ++ nl :: js "  const Inner = () => 1;"
    ++ nl :: js "  return Inner;" ++ nl :: js "}" ++ [nl].
Definition nestedAst : Node :=
  OtherNode 0 62 [OtherNode 0 62 [
    FunctionDeclaration 0 61 (Some (Identifier 9 14 (js "Outer"))) []
      (OtherNode 17 61 [
         VariableDeclaration 21 43 [
           VariableDeclarator 27 42 (Identifier 27 32 (js "Inner"))
             (Some (ArrowFunctionExpression 35 42 [] (OtherNode 41 42 [])))];
         OtherNode 46 59 [Identifier 53 58 (js "Inner")]])]].

Definition outer : Component :=
  componentOf (js "Outer") (js "FunctionComponent") (take 61 nestedText) 0 1 1.
Definition inner : Component :=
  componentOf (js "Inner") (js "ArrowFunctionComponent")
    (js "const Inner = () => 1;") 21 2 3.

(** A class component with a lower-case name. *)
Definition lowerClassText : jsstr := js "class foo extends Component {}".
Definition lowerClass : Component :=
  componentOf (js "foo") (js "ClassComponent") lowerClassText 0 1 1.
Definition lowerClassAst : Node :=
  OtherNode 0 30 [OtherNode 0 30 [
    ClassDeclaration 0 30 (Some (js "foo"))
      (Some (Identifier 18 27 (js "Component"))) (OtherNode 28 30 [])]].

(** An arrow component and, on the next line, a class component with a
    lower-case name. *)
Definition mixedText : jsstr := fooLine ++ nl :: lowerClassText ++ [nl].
Definition mixedAst : Node :=
  OtherNode 0 52 [OtherNode 0 52 [
    VariableDeclaration 0 20 [
      VariableDeclarator 6 19 (Identifier 6 9 (js "Foo"))
        (Some (ArrowFunctionExpression 12 19 [] (OtherNode 18 19 [])))];
    ClassDeclaration 21 51 (Some (js "foo"))
      (Some (Identifier 39 48 (js "Component"))) (OtherNode 49 51 [])]].
Definition lowerClassLine2 : Component :=
  componentOf (js "foo") (js "ClassComponent") lowerClassText 21 2 1.

(** An anonymous class component, exported by default. *)
Definition anonymousClassText : jsstr :=
  js "export default class extends Component {}".
Definition anonymousClassAst : Node :=
  OtherNode 0 41 [OtherNode 0 41 [OtherNode 0 41 [
    ClassDeclaration 15 41 None
      (Some (Identifier 29 38 (js "Component"))) (OtherNode 39 41 [])]]].

Definition samplePath : jsstr := js "/project/src/a.js".

(** The locator on a sample file. *)
Definition locate (text : jsstr) (ast : Node) : Completion (list Component) :=
  extractComponentsFromFile extnameJs lowerCased (parseOnly text ast)
    samplePath text (js "a.js").

(** A file system holding one file; every read and write succeeds. *)
Definition readOne : jsstr → jsstr → option jsstr := λ _ fs, Some fs.
Definition writeOne : jsstr → jsstr → jsstr → jsstr * bool :=
  λ _ data _, (data, true).

(** A documented declaration at the head of a file, and the block the
    patcher finds there. *)
Definition documentedAtTop : jsstr := js "/** old */" ++ nl :: fooLine ++ [nl].
Definition fooLine2 : Component :=
  componentOf (js "Foo") (js "ArrowFunctionComponent") fooLine 11 2 1.
Definition newDocsAtTop : gmap jsstr DocStringResult :=
  <[uniqueId fooLine2 := generated newDoc]> ∅.
Definition oldBlock : Updater.ExistingDoc :=
  {| Updater.docStart := 0; Updater.docEnd := 10;
     Updater.docContent := js "/** old */" |}.
Definition atTop : Updater.LoopState :=
  {| Updater.content := documentedAtTop; Updater.modified := false;
     Updater.success := 0; Updater.failed := 0; Updater.skippedCount := 0 |}.

(** The comment before [Foo] in [documentedFoo]. *)
Definition oldComment : PrecedingComment :=
  {| comment := js "/** old */"; commentStartIndex := 1; commentEndIndex := 11 |}.

(** A run without a client, one component per batch; and the options
    [--batch-size 0 --rate-limit 1]. *)
Definition noCall : unit → jsstr → jsstr → Location → jsstr → jsstr
    → option jsstr :=
  λ _ _ _ _ _ _, None.
Definition oneByOne : Batch.Options :=
  {| Batch.skipExisting := false; Batch.batchSize := 1;
     Batch.rateLimit := 10 |}.
Definition noBatch : Batch.Options :=
  {| Batch.skipExisting := false; Batch.batchSize := 0;
     Batch.rateLimit := 1 |}.
Definition fooBarByFile : list (jsstr * list Component) :=
  [(samplePath, [foo; bar])].

(** A .gitignore with a comment, a padded pattern and a negated one, and
    paths that are joined with a slash. *)
Definition gitignoreText : jsstr :=
  js "# deps" ++ nl :: js "  node_modules  " ++ nl :: js "!keep" ++ [nl].
Definition joinPaths : jsstr → jsstr → jsstr :=
  λ dir name, dir ++ js "/" ++ name.
Definition existsAlways : jsstr → jsstr → bool := λ _ _, true.

(** Two components whose first lines are not in [twoLines], one of them
    with a documentation text, and the entries of all four. *)
Definition bazLine : jsstr := js "const Baz = () => 3;".
Definition quxLine : jsstr := js "const Qux = () => 4;".
Definition baz : Component :=
  componentOf (js "Baz") (js "ArrowFunctionComponent") bazLine 42 3 1.
Definition qux : Component :=
  componentOf (js "Qux") (js "ArrowFunctionComponent") quxLine 63 4 1.
Definition bazDoc : jsstr := js "/** Baz */".
Definition fourDocs : gmap jsstr DocStringResult :=
  <[uniqueId foo := generated fooDoc]>
    (<[uniqueId bar := generated barDoc]>
       (<[uniqueId baz := generated bazDoc]> ∅)).
Definition realRun : Updater.Options :=
  {| Updater.isDryRun := false; Updater.updateExisting := false |}.

(** Entries for [twoLines] in which [Bar] is marked as skipped although it
    carries a text. *)
Definition skippingDocs : gmap jsstr DocStringResult :=
  <[uniqueId foo := generated fooDoc]>
    (<[uniqueId bar :=
         {| docstring := Some barDoc; skipped := true; error := None |}]> ∅).

End Samples.

(** ** Vocabulary of the statements *)

(** The text before a position at which a line starts. *)
Definition lineBoundary (P : jsstr) : Prop := P = [] ∨ ∃ P0, P = P0 ++ [nl].

(** Only white space. *)
Definition blank (W : jsstr) : Prop := Forall (λ c, JS.isWhiteSpace c = true) W.

(** The position at which the line holding the end of [X] starts, as lines
    180-182 and 134-136 of file-updater.js compute it. *)
Definition lineStartOf (X : jsstr) : nat :=
  match JS.lastIndexOf X [nl] with None => 0 | Some k => k + 1 end.

(** The documentation texts the generator hands over: opened and closed by
    the markers (compare [sanitizeDocString]). *)
Definition docForm (d : jsstr) : Prop :=
  JS.startsWith d (js "/**") = true ∧ JS.endsWith d (js "*/") = true.

(** A second look at the signature would change nothing: wherever [sig] is
    first found in [B], its line already follows a documentation block. *)
Definition settled (B sig : jsstr) : Prop :=
  ∀ i, JS.indexOf B sig = Some i →
       is_Some (Updater.findExistingDocString B (lineStartOf (take i B))).

(** The documentation text the patcher will apply to a component, if any. *)
Definition documentationFor (docStrings : gmap jsstr DocStringResult)
    (c : Component) : option jsstr :=
  Updater.usableDocString (docStrings !! uniqueId c).

(** The comparators of the two sorts. *)
Definition byStartAscending (a b : Component) : Z :=
  Z.of_nat (startPos a) - Z.of_nat (startPos b).

Definition byStartDescending (a b : Component) : Z :=
  Z.of_nat (startPos b) - Z.of_nat (startPos a).

(** Two spans that share no position. *)
Definition disjointSpans (a b : Component) : Prop :=
  endPos a ≤ startPos b ∨ endPos b ≤ startPos a.

(** The block is closed at its end and nowhere before. *)
Definition closedAtEnd (block : jsstr) : Prop :=
  JS.indexOf block (js "*/") = Some (length block - 2).

(** The number of line feeds in a text. *)
Definition countLineFeeds (s : jsstr) : nat :=
  length (List.filter (Ascii.eqb nl) s).

(** [x] directly followed by [y] somewhere in [s]. *)
Fixpoint hasPair (x y : ascii) (s : jsstr) : bool :=
  match s with
  | a :: (b :: _) as t => (Ascii.eqb a x && Ascii.eqb b y) || hasPair x y t
  | _ => false
  end.

(** The number of components of all files. *)
Definition totalComponents (componentsByFile : list (jsstr * list Component))
    : nat :=
  length (concat (map snd componentsByFile)).

(** A superclass that is the identifier [Component] or the member
    expression [React.Component]. *)
Definition componentSuperclass (superClass : Locator.Node) : Prop :=
  (∃ s e, superClass = Locator.Identifier s e (js "Component"))
  ∨ (∃ s e object property,
       superClass = Locator.MemberExpression s e object property
       ∧ Locator.nodeName object = Some (js "React")
       ∧ Locator.nodeName property = Some (js "Component")).

(** The plugin list the parser is called with for a file of the given
    extension (extractor.js, lines 139-147). *)
Definition pluginsFor (extension : jsstr) : list jsstr :=
  let plugins := [js "jsx"] in
  let plugins :=
    if bool_decide (extension = js ".ts") || bool_decide (extension = js ".tsx")
    then plugins ++ [js "typescript"] else plugins in
  let plugins := plugins ++ [js "classProperties"] in
  let plugins := plugins ++ [js "objectRestSpread"] in
  let plugins := plugins ++ [js "dynamicImport"] in
  plugins.

(** One declaration moves exactly one of the three counters, by one. *)
Definition countsOne (st st' : Updater.LoopState) : Prop :=
  (Updater.success st' = Updater.success st + 1
   ∧ Updater.failed st' = Updater.failed st
   ∧ Updater.skippedCount st' = Updater.skippedCount st)
  ∨ (Updater.success st' = Updater.success st
     ∧ Updater.failed st' = Updater.failed st + 1
     ∧ Updater.skippedCount st' = Updater.skippedCount st)
  ∨ (Updater.success st' = Updater.success st
     ∧ Updater.failed st' = Updater.failed st
     ∧ Updater.skippedCount st' = Updater.skippedCount st + 1).

(** The integers on which the arithmetic of doubles is exact. *)
Definition safeInteger (z : Z) : Prop := (- 2 ^ 53 <= z <= 2 ^ 53)%Z.

(** The tags the three visitors of the locator give. *)
Definition componentTags : list jsstr :=
  [js "FunctionComponent"; js "ArrowFunctionComponent";
   js "StyledComponent"; js "HOCComponent"; js "ClassComponent"].

(** Whether a pattern of a .gitignore applies to a path, as [isIgnored]
    tests it: a pattern that begins with [!] is matched without it. *)
Definition patternApplies (minimatch : jsstr → jsstr → bool)
    (relativePath pattern : jsstr) : bool :=
  if JS.startsWith pattern (js "!")
  then minimatch relativePath (JS.substringFrom pattern 1)
  else minimatch relativePath pattern.

(** ** Facts about the string primitives *)

Section StringFacts.
Import JS.

Lemma startsWith_app (p r : jsstr) : startsWith (p ++ r) p = true.
Proof.
  induction p as [|c p IH]; simpl; [done|].
  by rewrite Ascii.eqb_refl.
Qed.

Lemma startsWith_inv (s p : jsstr) :
  startsWith s p = true → ∃ r, s = p ++ r.
Proof.
  revert s. induction p as [|c p IH]; intros s H.
  - by exists s.
  - destruct s as [|d s]; simpl in H; [done|].
    destruct (Ascii.eqb_spec c d) as [->|]; [|done].
    destruct (IH _ H) as [r ->]. by exists r.
Qed.

Lemma startsWith_iff (s p : jsstr) :
  startsWith s p = true ↔ ∃ r, s = p ++ r.
Proof.
  split; [apply startsWith_inv|]. intros [r ->]. apply startsWith_app.
Qed.

Lemma startsWith_app_l (s p t : jsstr) :
  startsWith s p = true → startsWith (s ++ t) p = true.
Proof.
  intros [r ->]%startsWith_inv. rewrite <- app_assoc. apply startsWith_app.
Qed.

Lemma endsWith_iff (s p : jsstr) :
  endsWith s p = true ↔ ∃ r, s = r ++ p.
Proof.
  unfold endsWith. rewrite startsWith_iff. split.
  - intros [r H]. exists (rev r).
    apply (f_equal (@rev ascii)) in H.
    by rewrite rev_involutive, rev_app_distr, rev_involutive in H.
  - intros [r ->]. exists (rev r). by rewrite rev_app_distr.
Qed.

Lemma endsWith_app (r p : jsstr) : endsWith (r ++ p) p = true.
Proof. apply endsWith_iff. by exists r. Qed.

(** *** Occurrences and [indexOf] *)

Lemma substring_0 (s : jsstr) (n : nat) : substring s 0 n = take n s.
Proof. unfold substring. by rewrite Nat.max_r, Nat.min_l, Nat.sub_0_r by lia. Qed.

Lemma indexOf_bound (s p : jsstr) (i : nat) :
  indexOf s p = Some i → i + length p ≤ length s.
Proof.
  revert i. induction s as [|c s IH]; intros i; simpl.
  - destruct (startsWith [] p) eqn:E; [|done].
    intros [= <-]. apply startsWith_inv in E as [r E].
    by destruct p.
  - destruct (startsWith (c :: s) p) eqn:E.
    + intros [= <-]. apply startsWith_inv in E as [r E].
      apply (f_equal length) in E. rewrite length_app in E. simpl in *. lia.
    + destruct (indexOf s p) as [j|]; simpl; [|done].
      intros [= <-]. specialize (IH _ eq_refl). lia.
Qed.

(** A pattern without a line feed cannot reach across one. *)
Lemma startsWith_app_nl (p X Y : jsstr) :
  nl ∉ p → startsWith (X ++ nl :: Y) p = startsWith X p.
Proof.
  revert X. induction p as [|c p IH]; intros X Hp; [done|].
  apply not_elem_of_cons in Hp as [Hc Hp].
  destruct X as [|x X]; simpl.
  - destruct (Ascii.eqb_spec c nl); congruence.
  - destruct (Ascii.eqb c x); [by apply IH|done].
Qed.

Lemma indexOf_app_nl (p X Y : jsstr) :
  nl ∉ p →
  indexOf (X ++ nl :: Y) p =
    match indexOf X p with
    | Some i => Some i
    | None => (λ j, length X + 1 + j) <$> indexOf Y p
    end.
Proof.
  intros Hp. induction X as [|x X IH].
  - pose proof (startsWith_app_nl p [] Y Hp) as H0. simpl in *. rewrite H0.
    destruct (startsWith [] p) eqn:E.
    + by destruct p.
    + destruct p; [done|]. simpl. by destruct (indexOf Y _).
  - cbn [app indexOf].
    change (x :: X ++ nl :: Y) with ((x :: X) ++ nl :: Y).
    rewrite (startsWith_app_nl p (x :: X) Y Hp).
    destruct (startsWith (x :: X) p); [done|].
    rewrite IH. destruct (indexOf X p); [done|].
    simpl. by destruct (indexOf Y p).
Qed.

(** *** Line boundaries *)

Lemma lineBoundary_app_nl (X : jsstr) : lineBoundary (X ++ [nl]).
Proof. right. by exists X. Qed.

Lemma lineBoundary_split (X : jsstr) :
  ∃ P M, X = P ++ M ∧ lineBoundary P ∧ nl ∉ M.
Proof.
  induction X as [|x X IH] using rev_ind.
  - exists [], []. repeat split; [by left|apply not_elem_of_nil].
  - destruct (decide (x = nl)) as [->|Hx].
    + exists (X ++ [nl]), []. rewrite app_nil_r.
      repeat split; [apply lineBoundary_app_nl|apply not_elem_of_nil].
    + destruct IH as (P & M & -> & HP & HM).
      exists P, (M ++ [x]). rewrite app_assoc. repeat split; [done|].
      rewrite elem_of_app, list_elem_of_singleton. intros [?|?]; congruence.
Qed.

(** Text inserted at a line boundary leaves an earlier first occurrence
    where it is. *)
Lemma indexOf_insert_before (P R X p : jsstr) (i : nat) :
  lineBoundary P → nl ∉ p →
  indexOf (P ++ R) p = Some i → i < length P →
  indexOf (P ++ X ++ R) p = Some i.
Proof.
  intros [->|[P0 ->]] Hp Hi Hlt; [simpl in Hlt; lia|].
  rewrite <- app_assoc in *. cbn [app] in *.
  rewrite indexOf_app_nl in * by done.
  destruct (indexOf P0 p); [done|].
  destruct (indexOf R p); simplify_eq/=.
  rewrite length_app in Hlt. simpl in Hlt. lia.
Qed.

(** A documentation text that does not contain the pattern, inserted as a
    line of its own, moves the first occurrence by its length or not at
    all. *)
Lemma indexOf_insert (P R d p : jsstr) :
  lineBoundary P → nl ∉ p → indexOf d p = None →
  indexOf (P ++ d ++ nl :: R) p =
    (λ i, if decide (i < length P) then i else i + length d + 1)
      <$> indexOf (P ++ R) p.
Proof.
  intros [->|[P0 ->]] Hp Hd.
  - simpl. rewrite indexOf_app_nl, Hd by done.
    destruct (indexOf R p); simpl; [|done]. f_equal. lia.
  - rewrite <- !app_assoc. cbn [app].
    rewrite !(indexOf_app_nl p P0) by done.
    destruct (indexOf P0 p) as [i|] eqn:Ei; simpl.
    + apply indexOf_bound in Ei. rewrite length_app. simpl.
      rewrite decide_True by lia. done.
    + rewrite indexOf_app_nl, Hd by done.
      destruct (indexOf R p) as [j|]; simpl; [|done].
      rewrite length_app. simpl. rewrite decide_False by lia. f_equal. lia.
Qed.

(** *** [lastIndexOf] *)

Lemma lastIndexOf_go_nl_cons (pos i : nat) (x : ascii) (s : jsstr) acc :
  lastIndexOf_go [nl] pos i (x :: s) acc =
  lastIndexOf_go [nl] pos (S i) s
    (if Ascii.eqb nl x && (i <=? pos) then Some i else acc).
Proof. cbn [lastIndexOf_go startsWith]. by destruct (Ascii.eqb nl x). Qed.

Lemma lastIndexOf_go_nl_none (pos i : nat) (M : jsstr) acc :
  nl ∉ M → lastIndexOf_go [nl] pos i M acc = acc.
Proof.
  revert i acc. induction M as [|x M IH]; intros i acc HM; [done|].
  apply not_elem_of_cons in HM as [Hx HM].
  rewrite lastIndexOf_go_nl_cons, IH by done.
  destruct (Ascii.eqb_spec nl x); [congruence|done].
Qed.

Lemma lastIndexOf_go_nl_last (pos i : nat) (X M : jsstr) acc :
  nl ∉ M → i + length X ≤ pos →
  lastIndexOf_go [nl] pos i (X ++ nl :: M) acc = Some (i + length X).
Proof.
  revert i acc. induction X as [|x X IH]; intros i acc HM Hpos.
  - cbn [app]. rewrite lastIndexOf_go_nl_cons, lastIndexOf_go_nl_none by done.
    rewrite Ascii.eqb_refl. simpl in *.
    destruct (Nat.leb_spec i pos); [|lia]. f_equal. lia.
  - cbn [app length] in *. rewrite lastIndexOf_go_nl_cons, IH by (done || lia).
    f_equal. lia.
Qed.

Lemma lineStartOf_app (P M : jsstr) :
  lineBoundary P → nl ∉ M → lineStartOf (P ++ M) = length P.
Proof.
  unfold lineStartOf, lastIndexOf, lastIndexOfFrom.
  intros [->|[P0 ->]] HM.
  - by rewrite lastIndexOf_go_nl_none.
  - rewrite <- app_assoc. cbn [app].
    rewrite lastIndexOf_go_nl_last; rewrite ?length_app; simpl; [lia|done|lia].
Qed.

Lemma lineStartOf_boundary (P : jsstr) :
  lineBoundary P → lineStartOf P = length P.
Proof.
  intros HP. rewrite <- (app_nil_r P) at 1.
  apply lineStartOf_app; [done|apply not_elem_of_nil].
Qed.

(** An occurrence not above [pos] makes [lastIndexOf] succeed, at that
    occurrence or a later one. *)
Lemma lastIndexOf_go_found (p : jsstr) (pos i : nat) (a b : jsstr) acc :
  i + length a ≤ pos →
  ∃ j, lastIndexOf_go p pos i (a ++ p ++ b) acc = Some j ∧ i + length a ≤ j.
Proof.
  revert i acc. induction a as [|x a IH]; intros i acc Hpos.
  - assert (Hkeep : ∀ s k acc', i ≤ k →
      (∃ j, acc' = Some j ∧ i ≤ j) →
      ∃ j, lastIndexOf_go p pos k s acc' = Some j ∧ i ≤ j).
    { clear. induction s as [|y s IHs]; intros k acc' Hk (j & -> & Hj); simpl.
      - destruct (startsWith [] p && (k <=? pos)); eauto.
      - apply IHs; [lia|].
        destruct (startsWith (y :: s) p && (k <=? pos)); eauto. }
    simpl in *. rewrite Nat.add_0_r in *.
    destruct (p ++ b) as [|y s] eqn:E.
    + assert (p = []) as -> by (by destruct p). simpl.
      destruct (Nat.leb_spec i pos); [|lia]. eauto.
    + simpl. rewrite <- E, startsWith_app.
      destruct (Nat.leb_spec i pos); [|lia]. simpl.
      apply Hkeep; [lia|eauto].
  - cbn [app length lastIndexOf_go].
    destruct (IH (S i) (if startsWith (x :: a ++ p ++ b) p && (i <=? pos)
                        then Some i else acc)) as (j & Hj & Hle);
      [simpl in *; lia|].
    exists j. split; [done|simpl; lia].
Qed.

Lemma lastIndexOfFrom_found (T p a b : jsstr) (pos : nat) :
  T = a ++ p ++ b → length a ≤ pos →
  ∃ j, lastIndexOfFrom T p pos = Some j ∧ length a ≤ j.
Proof.
  intros -> Hpos. unfold lastIndexOfFrom.
  by apply (lastIndexOf_go_found p pos 0 a b None).
Qed.

(** What [lastIndexOf] finds is an occurrence inside the string. *)
Lemma lastIndexOf_go_bound (p : jsstr) (pos i : nat) (s : jsstr) acc j :
  lastIndexOf_go p pos i s acc = Some j →
  acc = Some j ∨ (i ≤ j ∧ j + length p ≤ i + length s).
Proof.
  revert i acc. induction s as [|y s IH]; intros i acc; simpl.
  - destruct (startsWith [] p) eqn:E; simpl; [|by left].
    destruct (i <=? pos); [|by left].
    intros [= <-]. right. destruct p; [simpl; lia|done].
  - intros H. apply IH in H as [H|H]; [|right; lia].
    destruct (startsWith (y :: s) p) eqn:E; simpl in H; [|by left].
    destruct (i <=? pos); [|by left].
    simplify_eq. right. apply startsWith_inv in E as [r E].
    apply (f_equal length) in E. rewrite length_app in E. simpl in E. lia.
Qed.

(** *** [trim] *)

Lemma trimStart_blank (W s : jsstr) : blank W → trimStart (W ++ s) = trimStart s.
Proof. induction 1 as [|c W Hc _ IH]; simpl; [done|]. by rewrite Hc. Qed.

Lemma trimStart_keep (X : jsstr) (c : ascii) (d : jsstr) :
  isWhiteSpace c = false →
  ∃ V A, X = V ++ A ∧ blank V ∧ trimStart (X ++ c :: d) = A ++ c :: d.
Proof.
  intros Hc. induction X as [|x X (V & A & -> & HV & IH)].
  - exists [], []. simpl. rewrite Hc. split_and!; [done|constructor|done].
  - simpl. destruct (isWhiteSpace x) eqn:Hx.
    + exists (x :: V), A. split_and!; [done|by constructor|done].
    + exists [], (x :: V ++ A). split_and!; [done|constructor|done].
Qed.

Lemma blank_rev (W : jsstr) : blank W → blank (rev W).
Proof. apply Forall_rev. Qed.

Lemma trimEnd_blank (Y W : jsstr) : blank W → trimEnd (Y ++ W) = trimEnd Y.
Proof.
  intros HW. unfold trimEnd. rewrite rev_app_distr, trimStart_blank; [done|].
  by apply blank_rev.
Qed.

Lemma trimEnd_keep (Y : jsstr) (c : ascii) :
  isWhiteSpace c = false → trimEnd (Y ++ [c]) = Y ++ [c].
Proof.
  intros Hc. unfold trimEnd. rewrite rev_app_distr. simpl. rewrite Hc.
  change (c :: rev Y) with ([c] ++ rev Y).
  by rewrite rev_app_distr, rev_involutive.
Qed.

Lemma blank_or_not (M : jsstr) :
  blank M ∨ ∃ N c W, M = N ++ c :: W ∧ isWhiteSpace c = false ∧ blank W.
Proof.
  induction M as [|x M IH] using rev_ind; [left; constructor|].
  destruct (isWhiteSpace x) eqn:Hx.
  - destruct IH as [IH|(N & c & W & -> & Hc & HW)].
    + left. apply Forall_app. split; [done|by constructor].
    + right. exists N, c, (W ++ [x]). rewrite <- app_assoc.
      split_and!; [done|done|]. apply Forall_app. split; [done|by constructor].
  - right. exists M, x, []. split_and!; [done|done|constructor].
Qed.

Lemma trim_block (X E W : jsstr) (c e : ascii) (E1 E2 : jsstr) :
  E = c :: E1 → E = E2 ++ [e] →
  isWhiteSpace c = false → isWhiteSpace e = false → blank W →
  ∃ A, trim (X ++ E ++ W) = A ++ E.
Proof.
  intros Hhead Hlast Hc He HW. unfold trim.
  rewrite app_assoc, trimEnd_blank by done.
  rewrite Hlast, app_assoc, trimEnd_keep, <- app_assoc, <- Hlast by done.
  rewrite Hhead.
  destruct (trimStart_keep X c E1 Hc) as (V & A & _ & _ & ->). by exists A.
Qed.

Lemma trimStart_split (Y : jsstr) : ∃ V, Y = V ++ trimStart Y ∧ blank V.
Proof.
  induction Y as [|y Y (V & HY & HV)]; simpl.
  - exists []. split; [done|constructor].
  - destruct (isWhiteSpace y) eqn:Hy.
    + exists (y :: V). split; [by rewrite HY at 1|by constructor].
    + exists []. split; [done|constructor].
Qed.

(** [trim] cuts white space off both ends and nothing else. *)
Lemma trim_split (X : jsstr) :
  ∃ V W, X = V ++ trim X ++ W ∧ blank V ∧ blank W.
Proof.
  destruct (trimStart_split (rev X)) as (W' & HW' & HbW').
  destruct (trimStart_split (trimEnd X)) as (V & HV & HbV).
  exists V, (rev W'). split_and!; [|done|by apply blank_rev].
  unfold trim. rewrite app_assoc, <- HV. unfold trimEnd.
  by rewrite <- rev_app_distr, <- HW', rev_involutive.
Qed.

Lemma lastIndexOf_go_occurs (p : jsstr) (pos i : nat) (s : jsstr) acc j :
  lastIndexOf_go p pos i s acc = Some j →
  acc = Some j ∨ (i ≤ j ∧ startsWith (drop (j - i) s) p = true).
Proof.
  revert i acc. induction s as [|y s IH]; intros i acc; simpl.
  - destruct (startsWith [] p) eqn:E; simpl; [|by left].
    destruct (i <=? pos); [|by left].
    intros [= <-]. right. split; [done|]. by rewrite drop_nil.
  - intros H. apply IH in H as [H|[Hle H]].
    + destruct (startsWith (y :: s) p) eqn:E; simpl in H; [|by left].
      destruct (i <=? pos); [|by left].
      simplify_eq. right. split; [done|]. by rewrite Nat.sub_diag.
    + right. split; [lia|].
      replace (j - i) with (S (j - S i)) by lia. done.
Qed.

End StringFacts.

(** ** Facts about [sort] *)

Section SortFacts.
Context {A : Type} (cmp : A → A → Z).

Lemma sortInsert_perm (x : A) (l : list A) : sortInsert cmp x l ≡ₚ x :: l.
Proof.
  induction l as [|y l IH]; simpl; [done|].
  destruct (cmp x y <=? 0)%Z; [done|].
  rewrite IH. apply Permutation_swap.
Qed.

Lemma sort_perm (l : list A) : sort cmp l ≡ₚ l.
Proof.
  induction l as [|x l IH]; simpl; [done|].
  by rewrite sortInsert_perm, IH.
Qed.

Lemma sort_length (l : list A) : length (sort cmp l) = length l.
Proof. apply Permutation_length, sort_perm. Qed.

Lemma sort_elem (l : list A) (x : A) : x ∈ sort cmp l ↔ x ∈ l.
Proof. by rewrite sort_perm. Qed.

Hypothesis cmp_total : ∀ x y, (0 < cmp x y → cmp y x <= 0)%Z.
Hypothesis cmp_trans :
  ∀ x y z, (cmp x y <= 0 → cmp y z <= 0 → cmp x z <= 0)%Z.

Lemma sortInsert_sorted (x : A) (l : list A) :
  StronglySorted (λ a b, cmp a b <= 0)%Z l →
  StronglySorted (λ a b, cmp a b <= 0)%Z (sortInsert cmp x l).
Proof.
  induction 1 as [|y l Hl IH Hy]; simpl.
  - repeat constructor.
  - destruct (Z.leb_spec (cmp x y) 0) as [Hxy|Hxy].
    + constructor; [by constructor|]. constructor; [done|].
      eapply Forall_impl; [exact Hy|]. intros z Hz. by eapply cmp_trans.
    + constructor; [done|]. rewrite sortInsert_perm.
      constructor; [by apply cmp_total|done].
Qed.

Lemma sort_sorted (l : list A) :
  StronglySorted (λ a b, cmp a b <= 0)%Z (sort cmp l).
Proof.
  induction l as [|x l IH]; simpl; [constructor|by apply sortInsert_sorted].
Qed.

End SortFacts.

Lemma StronglySorted_weaken {A} (R S : A → A → Prop) (l : list A) :
  (∀ a b, R a b → S a b) → StronglySorted R l → StronglySorted S l.
Proof.
  intros HRS. induction 1 as [|x l Hl IH Hx]; constructor; [done|].
  eapply Forall_impl; [exact Hx|]. intros y. apply HRS.
Qed.

Lemma sort_ascending (l : list Component) :
  StronglySorted (λ a b, startPos a ≤ startPos b) (sort byStartAscending l).
Proof.
  apply (StronglySorted_weaken (λ a b, byStartAscending a b <= 0)%Z).
  - unfold byStartAscending. intros a b. lia.
  - apply sort_sorted; unfold byStartAscending; intros; lia.
Qed.

Lemma sort_descending (l : list Component) :
  StronglySorted (λ a b, startPos b ≤ startPos a) (sort byStartDescending l).
Proof.
  apply (StronglySorted_weaken (λ a b, byStartDescending a b <= 0)%Z).
  - unfold byStartDescending. intros a b. lia.
  - apply sort_sorted; unfold byStartDescending; intros; lia.
Qed.

(** ** Facts about the helpers of the patcher *)

Section PatcherFacts.
Import JS Updater.

Lemma trimStart_elem (s : jsstr) (c : ascii) : c ∈ trimStart s → c ∈ s.
Proof.
  induction s as [|x s IH]; simpl; [done|].
  destruct (isWhiteSpace x); [|done]. intros H. right. by apply IH.
Qed.

Lemma trim_elem (s : jsstr) (c : ascii) : c ∈ trim s → c ∈ s.
Proof.
  unfold trim, trimEnd. intros H%trimStart_elem.
  apply list_elem_of_In, in_rev, list_elem_of_In, trimStart_elem in H.
  by apply list_elem_of_In, in_rev, list_elem_of_In in H.
Qed.

Lemma firstLine_no_nl (s : jsstr) : nl ∉ firstLine s.
Proof.
  induction s as [|x s IH]; simpl; [apply not_elem_of_nil|].
  destruct (Ascii.eqb_spec x nl); [apply not_elem_of_nil|].
  apply not_elem_of_cons. split; [congruence|done].
Qed.

(** A signature is one line: it holds no line feed. *)
Lemma signature_no_nl (c : Component) : nl ∉ getComponentSignature c.
Proof.
  unfold getComponentSignature. intros H%trim_elem. by apply firstLine_no_nl in H.
Qed.

Lemma findComponentPosition_eq (B : jsstr) (c : Component) :
  findComponentPosition B c =
    (λ i, {| start := lineStartOf (take i B);
             signatureStart := i;
             signatureEnd := i + length (getComponentSignature c) |})
      <$> indexOf B (getComponentSignature c).
Proof.
  unfold findComponentPosition.
  destruct (indexOf B (getComponentSignature c)) as [i|]; [|done].
  rewrite substring_0. fold (lineStartOf (take i B)).
  cbn [fmap option_fmap option_map].
  by destruct (startsWith _ (js "export")).
Qed.

(** The test for an existing block reads the text before the position and
    nothing else. *)
Lemma findExisting_ext (B B' : jsstr) (pos pos' : nat) :
  take pos B = take pos' B' →
  findExistingDocString B pos = findExistingDocString B' pos'.
Proof. intros H. unfold findExistingDocString. by rewrite !substring_0, H. Qed.

Lemma findExisting_endsWith (B : jsstr) (pos : nat) :
  is_Some (findExistingDocString B pos) →
  endsWith (trim (take pos B)) (js "*/") = true.
Proof.
  unfold findExistingDocString. rewrite substring_0.
  destruct (endsWith _ (js "*/")); [done|]. by intros [? [=]].
Qed.

(** A text that opens with the open marker and closes with the close marker,
    followed by white space only, is recognised as an existing block. *)
Lemma findExisting_block (B : jsstr) (pos : nat) (X E W : jsstr) :
  take pos B = X ++ E ++ W →
  startsWith E (js "/**") = true → endsWith E (js "*/") = true → blank W →
  is_Some (findExistingDocString B pos).
Proof.
  intros HB [E1 HE1]%startsWith_inv [E2 HE2]%endsWith_iff HW.
  unfold findExistingDocString. rewrite substring_0, HB.
  destruct (trim_block X E W "/"%char "/"%char (js "**" ++ E1) (E2 ++ js "*"))
    as [A ->]; [done|by rewrite <- app_assoc|done|done|done|].
  assert (Hend : endsWith (A ++ E) (js "*/") = true).
  { rewrite HE2, app_assoc. apply endsWith_app. }
  rewrite Hend. cbn [negb].
  destruct (lastIndexOfFrom_found (A ++ E) (js "*/") (A ++ E2) [] (length (A ++ E)))
    as (e & He & Hle).
  { by rewrite HE2, app_nil_r, app_assoc. }
  { rewrite !length_app. rewrite HE2, length_app. lia. }
  unfold lastIndexOf. rewrite He.
  destruct (lastIndexOfFrom_found (A ++ E) (js "/**") A E1 e) as (j & -> & _).
  { by rewrite HE1. }
  { rewrite length_app in Hle. lia. }
  done.
Qed.

Lemma lineStartOf_take (B : jsstr) (i : nat) :
  ∃ P M, take i B = P ++ M ∧ lineBoundary P ∧ (nl ∉ M)
         ∧ lineStartOf (take i B) = length P ∧ take (length P) B = P.
Proof.
  destruct (lineBoundary_split (take i B)) as (P & M & HB & HP & HM).
  exists P, M. split_and!; [done..| |].
  - rewrite HB. by apply lineStartOf_app.
  - assert (length P ≤ i).
    { apply (f_equal length) in HB. rewrite length_take, !length_app in HB. lia. }
    replace (take (length P) B) with (take (length P) (take i B))
      by (by rewrite take_take, Nat.min_l by lia).
    by rewrite HB, take_app_length.
Qed.

Lemma lineBoundary_after_nl (Y P2 : jsstr) :
  lineBoundary P2 → lineBoundary (Y ++ nl :: P2).
Proof.
  intros [->|[P3 ->]].
  - apply lineBoundary_app_nl.
  - right. exists (Y ++ nl :: P3). by rewrite <- app_assoc.
Qed.

(** An existing block stays one when a documentation text is inserted, as a
    line of its own, anywhere before it. *)
Lemma findExisting_insert (B B' : jsstr) (pos pos' : nat) (P M d : jsstr) :
  take pos B = P ++ M → take pos' B' = P ++ d ++ nl :: M →
  lineBoundary P → docForm d →
  is_Some (findExistingDocString B pos) →
  is_Some (findExistingDocString B' pos').
Proof.
  intros HB HB' HP [Hopen Hclose] Hsome.
  destruct (blank_or_not M) as [HM|(N & c & W & -> & Hc & HW)].
  - apply (findExisting_block B' pos' P d (nl :: M)); [done..|].
    by constructor.
  - apply findExisting_endsWith in Hsome. rewrite HB in Hsome.
    unfold trim in Hsome.
    replace (P ++ N ++ c :: W) with (((P ++ N) ++ [c]) ++ W) in Hsome
      by (by rewrite <- !app_assoc).
    rewrite trimEnd_blank, trimEnd_keep in Hsome by done.
    destruct (trimStart_keep (P ++ N) c [] Hc) as (V & A & HPN & _ & HT).
    rewrite HT in Hsome. apply endsWith_iff in Hsome as [r Hr].
    change (js "*/") with ([ "*"%char ] ++ [ "/"%char ]) in Hr.
    rewrite app_assoc in Hr. apply app_inj_tail in Hr as [-> ->].
    rewrite app_assoc in HPN.
    assert (∃ N0, N = N0 ++ ["*"%char]) as [N0 ->].
    { destruct N as [|x N _] using rev_ind.
      - rewrite app_nil_r in HPN. destruct HP as [->|[P0 ->]].
        + by destruct (V ++ r).
        + by apply app_inj_tail in HPN as [_ ?].
      - rewrite app_assoc in HPN. apply app_inj_tail in HPN as [_ ->]. by exists N. }
    apply (findExisting_block B' pos' P (d ++ nl :: N0 ++ js "*/") W); [|by apply startsWith_app_l| |done].
    + rewrite HB'. change (js "*/") with ["*"%char; "/"%char].
      by simplify_list_eq.
    + change (nl :: N0 ++ js "*/") with ((nl :: N0) ++ js "*/").
      rewrite app_assoc. apply endsWith_app.
Qed.

(** The heart of the second pass: inserting a documentation text at a line
    boundary keeps every settled signature settled, and settles the
    signature whose line starts there. *)
Lemma settled_insert (P R d sig : jsstr) :
  lineBoundary P → docForm d → nl ∉ sig → indexOf d sig = None →
  (settled (P ++ R) sig
   ∨ ∃ i, indexOf (P ++ R) sig = Some i
          ∧ lineStartOf (take i (P ++ R)) = length P) →
  settled (P ++ d ++ nl :: R) sig.
Proof.
  intros HP Hd Hsig Hnot Hold i' Hi'.
  rewrite indexOf_insert in Hi' by done.
  destruct (indexOf (P ++ R) sig) as [i|] eqn:Ei; [|done].
  injection Hi' as <-.
  destruct (lineStartOf_take (P ++ R) i) as (P1 & M1 & Ht & HP1 & HM1 & Hls & HtP1).
  case_decide as Hlt.
  - assert (Hlen : length P1 ≤ i).
    { apply (f_equal length) in Ht. rewrite length_take, !length_app in Ht. lia. }
    assert (Hsame : take i (P ++ d ++ nl :: R) = take i (P ++ R)).
    { by rewrite !take_app_le by lia. }
    rewrite Hsame, Hls.
    assert (Hyes : is_Some (findExistingDocString (P ++ R) (length P1))).
    { destruct Hold as [Hs|(i0 & Hi0 & Hl0)].
      - rewrite <- Hls. by apply Hs.
      - injection Hi0 as <-. lia. }
    rewrite (findExisting_ext _ (P ++ R) _ (length P1)); [done|].
    by rewrite !take_app_le by lia.
  - assert (Hi : i = length P + (i - length P)) by lia.
    set (j := i - length P) in *. clearbody j. subst i.
    rewrite take_app_add in Ht.
    destruct (lineBoundary_split (take j R)) as (P2 & M2 & Hj & HP2 & HM2).
    assert (Hnew : take (length P + j + length d + 1) (P ++ d ++ nl :: R)
                   = (P ++ d ++ nl :: P2) ++ M2).
    { replace (length P + j + length d + 1)
        with (length P + (length d + (1 + j))) by lia.
      rewrite take_app_add, take_app_add. simpl. rewrite Hj.
      by rewrite <- !app_assoc. }
    rewrite Hnew.
    rewrite lineStartOf_app;
      [|rewrite app_assoc; by apply lineBoundary_after_nl|done].
    assert (HR : R = P2 ++ M2 ++ drop j R).
    { by rewrite app_assoc, <- Hj, take_drop. }
    assert (Htake' : take (length (P ++ d ++ nl :: P2)) (P ++ d ++ nl :: R)
                     = P ++ d ++ nl :: P2).
    { rewrite HR at 1.
      replace (P ++ d ++ nl :: P2 ++ M2 ++ drop j R)
        with ((P ++ d ++ nl :: P2) ++ M2 ++ drop j R)
        by (by rewrite <- !app_assoc).
      apply take_app_length. }
    assert (HtakeB : take (length (P ++ P2)) (P ++ R) = P ++ P2).
    { rewrite HR at 1. rewrite (app_assoc P P2). apply take_app_length. }
    destruct HP2 as [->|[P3 ->]].
    + apply (findExisting_block _ _ P d [nl]);
        [exact Htake'|apply Hd|apply Hd|by repeat constructor].
    + assert (Hls' : lineStartOf (take (length P + j) (P ++ R))
                     = length (P ++ P3 ++ [nl])).
      { rewrite take_app_add, Hj, app_assoc.
        apply lineStartOf_app; [|done]. rewrite app_assoc. apply lineBoundary_app_nl. }
      destruct Hold as [Hs|(i0 & Hi0 & Hl0)].
      * specialize (Hs _ Ei). rewrite Hls' in Hs.
        by apply (findExisting_insert (P ++ R) _ (length (P ++ P3 ++ [nl])) _
                    P (P3 ++ [nl]) d).
      * injection Hi0 as <-. rewrite Hls' in Hl0.
        rewrite !length_app in Hl0. simpl in Hl0. lia.
Qed.

(** What [findExistingDocString] reports, in the coordinates of the
    buffer: the block it found lies [length V] positions to the right of the
    span it returns, where [V] is the white space at the head of the
    buffer. *)
Lemma findExisting_span (B : jsstr) (pos : nat) (e : ExistingDoc) :
  findExistingDocString B pos = Some e →
  ∃ V A W,
    take pos B = V ++ (A ++ docContent e) ++ W
    ∧ blank V ∧ blank W
    ∧ docStart e = length A
    ∧ docEnd e = length (A ++ docContent e)
    ∧ startsWith (docContent e) (js "/**") = true
    ∧ endsWith (docContent e) (js "*/") = true.
Proof.
  unfold findExistingDocString. rewrite substring_0.
  destruct (trim_split (take pos B)) as (V & W & HX & HV & HW).
  set (T := trim (take pos B)) in *.
  destruct (endsWith T (js "*/")) eqn:Hend; [|done]. cbn [negb].
  apply endsWith_iff in Hend as [T0 HT].
  unfold lastIndexOf.
  destruct (lastIndexOfFrom_found T (js "*/") T0 [] (length T)) as (k & Hk & Hge).
  { by rewrite app_nil_r. }
  { rewrite HT, length_app. lia. }
  rewrite Hk.
  assert (Hk2 : k + 2 = length T).
  { unfold lastIndexOfFrom in Hk.
    apply lastIndexOf_go_bound in Hk as [|[_ Hk]]; [done|].
    rewrite HT, length_app in *. simpl in *. lia. }
  destruct (lastIndexOfFrom T (js "/**") k) as [j|] eqn:Hj; [|done].
  intros [= <-]. cbn [docStart docEnd docContent].
  pose proof Hj as Hocc. unfold lastIndexOfFrom in Hj, Hocc.
  apply lastIndexOf_go_bound in Hj as [|[_ Hj]]; [done|].
  apply lastIndexOf_go_occurs in Hocc as [|[_ Hocc]]; [done|].
  rewrite Nat.sub_0_r in Hocc. simpl in Hj.
  assert (Hsub : substring T j (k + 2) = drop j T).
  { unfold substring. rewrite Nat.max_r, Nat.min_l by lia.
    apply take_ge. rewrite length_drop. lia. }
  rewrite Hsub.
  exists V, (take j T), W. rewrite take_drop.
  split_and!; [done|done|done| |lia|done|].
  - rewrite length_take. lia.
  - apply endsWith_iff. exists (drop j T0). rewrite HT.
    rewrite drop_app_le; [done|].
    assert (length T = length T0 + 2) by (by rewrite HT, length_app).
    lia.
Qed.

(** With update enabled the span replaced is the span reported: it is the
    block itself when no white space stands at the head of the buffer. *)
Lemma processComponent_replace docs st c d i (e : ExistingDoc) :
  documentationFor docs c = Some d →
  indexOf (content st) (getComponentSignature c) = Some i →
  findExistingDocString (content st)
    (lineStartOf (take i (content st))) = Some e →
  processComponent true docs st c =
    countSuccess (take (docStart e) (content st) ++ d
                    ++ drop (docEnd e) (content st)) st.
Proof.
  unfold documentationFor, processComponent. intros -> Hi He.
  rewrite findComponentPosition_eq, Hi. cbn [fmap option_fmap option_map start].
  by rewrite He, substring_0.
Qed.

(** X27: with the option to update existing blocks, in a buffer that does
    not begin with white space the replacement is exact: the block goes,
    the new text takes its place, and the text before the block and after
    it stays. *)
Lemma processComponent_replace_exact docs st c d i (e : ExistingDoc) :
  documentationFor docs c = Some d →
  indexOf (content st) (getComponentSignature c) = Some i →
  findExistingDocString (content st)
    (lineStartOf (take i (content st))) = Some e →
  (∀ x rest, content st = x :: rest → isWhiteSpace x = false) →
  ∃ A W rest,
    content st = A ++ docContent e ++ W ++ rest
    ∧ blank W
    ∧ take (lineStartOf (take i (content st))) (content st)
      = A ++ docContent e ++ W
    ∧ content (processComponent true docs st c) = A ++ d ++ W ++ rest.
Proof.
  intros Hd Hi He Hhead.
  rewrite (processComponent_replace docs st c d i e) by done.
  cbn [content countSuccess].
  destruct (findExisting_span _ _ _ He)
    as (V & A & W & Ht & HV & HW & -> & -> & _ & _).
  set (ls := lineStartOf (take i (content st))) in *.
  assert (V = []) as ->.
  { destruct V as [|v V]; [done|]. exfalso.
    inversion HV as [|? ? Hv _]; subst.
    pose proof (take_drop ls (content st)) as Hsplit.
    rewrite Ht in Hsplit. simpl in Hsplit.
    symmetry in Hsplit. apply Hhead in Hsplit. congruence. }
  simpl in Ht.
  exists A, W, (drop ls (content st)).
  assert (HB : content st = A ++ docContent e ++ W ++ drop ls (content st)).
  { rewrite <- (take_drop ls (content st)) at 1. rewrite Ht.
    by rewrite <- !app_assoc. }
  split_and!; [done|done|by rewrite Ht, <- app_assoc|].
  rewrite HB at 1 2. rewrite take_app_length.
  rewrite (app_assoc A (docContent e)), drop_app_length. done.
Qed.

(** *** One iteration *)

Lemma processComponent_nodoc u docs st c :
  documentationFor docs c = None →
  processComponent u docs st c = countSkipped st.
Proof. unfold documentationFor, processComponent. by intros ->. Qed.

Lemma processComponent_missing u docs st c d :
  documentationFor docs c = Some d →
  indexOf (content st) (getComponentSignature c) = None →
  processComponent u docs st c = countFailed st.
Proof.
  unfold documentationFor, processComponent. intros -> Hi.
  by rewrite findComponentPosition_eq, Hi.
Qed.

Lemma processComponent_documented docs st c d i :
  documentationFor docs c = Some d →
  indexOf (content st) (getComponentSignature c) = Some i →
  is_Some (findExistingDocString (content st)
             (lineStartOf (take i (content st)))) →
  processComponent false docs st c = countSkipped st.
Proof.
  unfold documentationFor, processComponent. intros -> Hi [e He].
  rewrite findComponentPosition_eq, Hi. cbn [fmap option_fmap option_map start].
  by rewrite He.
Qed.

Lemma processComponent_insert u docs st c d i :
  documentationFor docs c = Some d →
  indexOf (content st) (getComponentSignature c) = Some i →
  findExistingDocString (content st)
    (lineStartOf (take i (content st))) = None →
  processComponent u docs st c =
    countSuccess (take (lineStartOf (take i (content st))) (content st)
                    ++ d ++ nl
                    :: drop (lineStartOf (take i (content st))) (content st)) st.
Proof.
  unfold documentationFor, processComponent. intros -> Hi He.
  rewrite findComponentPosition_eq, Hi. cbn [fmap option_fmap option_map start].
  rewrite He, !substring_0. unfold substringFrom.
  fold (lineStartOf (take (lineStartOf (take i (content st))) (content st))).
  destruct (lineStartOf_take (content st) i) as (P & M & _ & HP & _ & -> & HtP).
  rewrite HtP, lineStartOf_boundary, HtP by done.
  done.
Qed.

(** *** The first pass settles every signature it handles *)

Lemma processComponent_settles docs st c (sigs : list jsstr) :
  (∀ d, documentationFor docs c = Some d →
        docForm d ∧ ∀ s, s ∈ sigs → indexOf d s = None) →
  (∀ s, s ∈ sigs → nl ∉ s) →
  getComponentSignature c ∈ sigs →
  let st' := processComponent false docs st c in
  (∀ s, s ∈ sigs → settled (content st) s → settled (content st') s)
  ∧ (is_Some (documentationFor docs c) →
     settled (content st') (getComponentSignature c)).
Proof.
  intros Hdoc Hnl Hc. cbn zeta.
  destruct (documentationFor docs c) as [d|] eqn:Ed.
  2:{ rewrite processComponent_nodoc by done. split; [done|by intros [? [=]]]. }
  destruct (Hdoc d eq_refl) as [Hform Hfree].
  destruct (indexOf (content st) (getComponentSignature c)) as [i|] eqn:Ei.
  2:{ rewrite (processComponent_missing _ _ _ _ d) by done.
      split; [done|]. intros _ i Hi. simpl in Hi. congruence. }
  destruct (findExistingDocString (content st)
              (lineStartOf (take i (content st)))) as [e|] eqn:Ee.
  { rewrite (processComponent_documented _ _ _ d i) by (done || by rewrite Ee).
    split; [done|]. intros _ i' Hi'. simpl in *.
    rewrite Ei in Hi'. injection Hi' as <-. by rewrite Ee. }
  rewrite (processComponent_insert _ _ _ _ d i) by done. cbn [content countSuccess].
  destruct (lineStartOf_take (content st) i) as (P & M & Ht & HP & HM & Hls & HtP).
  rewrite Hls, HtP.
  assert (HB : content st = P ++ drop (length P) (content st)).
  { by rewrite <- HtP at 1; rewrite take_drop. }
  set (R := drop (length P) (content st)) in *.
  split.
  - intros s Hs Hset. apply settled_insert; auto.
    left. by rewrite <- HB.
  - intros _. apply settled_insert; auto.
    right. exists i. by rewrite <- HB.
Qed.

Lemma processComponents_settle docs (comps : list Component) :
  (∀ c d, c ∈ comps → documentationFor docs c = Some d →
          docForm d
          ∧ ∀ c', c' ∈ comps → indexOf d (getComponentSignature c') = None) →
  ∀ (l done : list Component) (st : LoopState),
    l ⊆ comps → done ⊆ comps →
    (∀ c, c ∈ done → is_Some (documentationFor docs c) →
          settled (content st) (getComponentSignature c)) →
    ∀ c, c ∈ done ++ l → is_Some (documentationFor docs c) →
         settled (content (foldl (processComponent false docs) st l))
                 (getComponentSignature c).
Proof.
  intros Hdocs l. induction l as [|c0 l IH]; intros done st Hl Hdone Hinv c Hc.
  - rewrite app_nil_r in Hc. by apply Hinv.
  - cbn [foldl].
    assert (Hc0 : c0 ∈ comps) by (apply Hl; left).
    destruct (processComponent_settles docs st c0
                (getComponentSignature <$> comps)) as [Hkeep Hnew].
    { intros d Hd. destruct (Hdocs c0 d Hc0 Hd) as [Hform Hfree].
      split; [done|]. intros s (c' & -> & Hc')%list_elem_of_fmap. by apply Hfree. }
    { intros s (c' & -> & _)%list_elem_of_fmap. apply signature_no_nl. }
    { apply list_elem_of_fmap. by exists c0. }
    apply (IH (done ++ [c0])).
    + intros x Hx. apply Hl. by right.
    + intros x [Hx|Hx%list_elem_of_singleton]%elem_of_app; [by apply Hdone|by subst].
    + intros x [Hx|Hx%list_elem_of_singleton]%elem_of_app Hsome.
      * apply Hkeep; [|by apply Hinv].
        apply list_elem_of_fmap. exists x. split; [done|by apply Hdone].
      * subst x. by apply Hnew.
    + by rewrite <- app_assoc.
Qed.

(** *** A pass over settled signatures changes nothing *)

Lemma processComponents_settled docs (B : jsstr) (l : list Component) :
  ∀ st, content st = B →
    (∀ c, c ∈ l → is_Some (documentationFor docs c) →
          settled B (getComponentSignature c)) →
    let st' := foldl (processComponent false docs) st l in
    content st' = B ∧ success st' = success st ∧ modified st' = modified st.
Proof.
  induction l as [|c l IH]; intros st HB Hset; cbn zeta; [done|].
  cbn [foldl].
  assert (Hstep : let st1 := processComponent false docs st c in
            content st1 = B ∧ success st1 = success st
            ∧ modified st1 = modified st).
  { cbn zeta. destruct (documentationFor docs c) as [d|] eqn:Ed.
    2:{ by rewrite processComponent_nodoc. }
    destruct (indexOf (content st) (getComponentSignature c)) as [i|] eqn:Ei.
    2:{ by rewrite (processComponent_missing _ _ _ _ d). }
    rewrite (processComponent_documented _ _ _ d i); [done..|].
    rewrite HB in *. refine (Hset c _ _ i Ei); [left|by rewrite Ed]. }
  destruct Hstep as (H1 & H2 & H3).
  destruct (IH (processComponent false docs st c) H1) as (H4 & H5 & H6).
  { intros x Hx. apply Hset. by right. }
  cbn zeta in *. by rewrite H4, H5, H6.
Qed.

End PatcherFacts.

(** ** The patcher *)

Section Patcher.
Import JS Updater.

Lemma patchFile_eq (B : jsstr) (comps : list Component) docs u :
  patchFile B comps docs u =
    foldl (processComponent u docs)
      {| content := B; modified := false;
         success := 0; failed := 0; skippedCount := 0 |}
      (sort byStartDescending comps).
Proof. done. Qed.

(** The line of a first occurrence starts before another line boundary only
    if the occurrence itself does. *)
Lemma occurrence_before_boundary (B : jsstr) (i l : nat) :
  lineBoundary (take l B) → l ≤ length B →
  lineStartOf (take i B) < l → i < l.
Proof.
  intros HP Hl Hlt.
  destruct (lineStartOf_take B i) as (P1 & M1 & Ht & HP1 & HM1 & Hls & _).
  rewrite Hls in Hlt.
  destruct (decide (i < l)) as [|Hge]; [done|]. exfalso.
  assert (Hlen : length (take l B) = l) by (rewrite length_take; lia).
  assert (Hpre : take l B = P1 ++ take (l - length P1) M1).
  { replace (take l B) with (take l (take i B))
      by (by rewrite take_take, Nat.min_l by lia).
    rewrite Ht, take_app_ge by lia. done. }
  destruct HP as [HP|[P0 HP]].
  - rewrite HP in Hlen. simpl in Hlen. lia.
  - rewrite HP in Hpre.
    destruct (take (l - length P1) M1) as [|x T _] eqn:ET using rev_ind.
    + rewrite app_nil_r in Hpre. apply (f_equal length) in Hpre.
      rewrite <- HP, Hlen in Hpre. lia.
    + rewrite app_assoc in Hpre. apply app_inj_tail in Hpre as [_ <-].
      apply HM1. assert (Hin : nl ∈ take (l - length P1) M1).
      { rewrite ET. apply elem_of_app. right. by left. }
      apply elem_of_take in Hin as (k & Hk & _). by eapply list_elem_of_lookup_2.
Qed.

(** Each iteration moves exactly one counter. *)
Lemma processComponent_cases u docs st c :
  processComponent u docs st c = countSkipped st
  ∨ processComponent u docs st c = countFailed st
  ∨ ∃ newContent, processComponent u docs st c = countSuccess newContent st.
Proof.
  unfold processComponent.
  destruct (usableDocString _); [|by left].
  destruct (findComponentPosition _ _); [|by right; left].
  destruct (findExistingDocString _ _); [destruct u|]; eauto.
Qed.

Lemma processComponent_not_found u docs st c :
  is_Some (documentationFor docs c) →
  findComponentPosition (content st) c = None →
  processComponent u docs st c = countFailed st.
Proof.
  intros [d Hd] Hpos. unfold documentationFor in Hd.
  unfold processComponent. by rewrite Hd, Hpos.
Qed.

Lemma processComponents_counts u docs (l : list Component) (st : LoopState) :
  let st' := foldl (processComponent u docs) st l in
  success st' + failed st' + skippedCount st'
  = success st + failed st + skippedCount st + length l.
Proof.
  revert st. induction l as [|c l IH]; intros st; cbn zeta; cbn [foldl length];
    [lia|].
  rewrite IH.
  destruct (processComponent_cases u docs st c) as [->|[->|[? ->]]]; simpl; lia.
Qed.

Lemma patchFile_counts originalContent components docs u :
  let st := patchFile originalContent components docs u in
  success st + failed st + skippedCount st = length components.
Proof.
  cbn zeta. rewrite patchFile_eq, processComponents_counts, sort_length. done.
Qed.

(** C1, amended: two declarations, [foo] before [bar], whose first lines are
    found on different lines of the text, [foo]'s line first, neither line
    documented yet.  The new text is the old one with each documentation
    text, followed by a line feed, put in front of the line of its
    declaration; both count as successes. *)
Theorem patchFile_two_components (originalContent : jsstr)
    (foo bar : Component) (docStrings : gmap jsstr DocStringResult)
    (fooDoc barDoc : jsstr) (fooPosition barPosition : Position) :
  startPos foo < startPos bar →
  documentationFor docStrings foo = Some fooDoc →
  documentationFor docStrings bar = Some barDoc →
  findComponentPosition originalContent foo = Some fooPosition →
  findComponentPosition originalContent bar = Some barPosition →
  start fooPosition < start barPosition →
  findExistingDocString originalContent (start fooPosition) = None →
  findExistingDocString originalContent (start barPosition) = None →
  patchFile originalContent [foo; bar] docStrings false =
    {| content :=
         take (start fooPosition) originalContent
           ++ fooDoc ++ [nl]
           ++ substring originalContent (start fooPosition) (start barPosition)
           ++ barDoc ++ [nl]
           ++ drop (start barPosition) originalContent;
       modified := true; success := 2; failed := 0; skippedCount := 0 |}.
Proof.
  intros Hord HdF HdB HpF HpB Hlines HnF HnB.
  rewrite findComponentPosition_eq in HpF, HpB.
  destruct (indexOf originalContent (getComponentSignature foo))
    as [iF|] eqn:EiF; [|done].
  destruct (indexOf originalContent (getComponentSignature bar))
    as [iB|] eqn:EiB; [|done].
  injection HpF as <-. injection HpB as <-. cbn [start] in *.
  set (B := originalContent) in *.
  destruct (lineStartOf_take B iB) as (PB & MB & HtB & HPB & HMB & HlsB & HtPB).
  destruct (lineStartOf_take B iF) as (PF & MF & HtF & HPF & HMF & HlsF & HtPF).
  rewrite HlsB, HlsF in *.
  assert (HlenB : length PB ≤ length B).
  { rewrite <- HtPB at 1. rewrite length_take. lia. }
  assert (HiF : iF < length PB).
  { apply (occurrence_before_boundary B); [by rewrite HtPB|done|by rewrite HlsF]. }
  assert (HB : B = PB ++ drop (length PB) B).
  { rewrite <- HtPB at 1. by rewrite take_drop. }
  set (RB := drop (length PB) B) in *.
  rewrite patchFile_eq.
  assert (Hsort : sort byStartDescending [foo; bar] = [bar; foo]).
  { unfold sort, byStartDescending. simpl.
    destruct (Z.leb_spec (Z.of_nat (startPos bar) - Z.of_nat (startPos foo)) 0);
      [lia|done]. }
  rewrite Hsort. cbn [foldl].
  rewrite (processComponent_insert _ _ _ bar barDoc iB); [|done|done|].
  2:{ cbn [content]. by rewrite HlsB. }
  cbn [content]. rewrite HlsB, HtPB. fold RB.
  set (st1 := countSuccess _ _).
  assert (Hc1 : content st1 = PB ++ (barDoc ++ [nl]) ++ RB).
  { subst st1. cbn [content countSuccess]. by rewrite <- !app_assoc. }
  assert (Hi1 : indexOf (content st1) (getComponentSignature foo) = Some iF).
  { rewrite Hc1. apply indexOf_insert_before; [done|apply signature_no_nl| |done].
    by rewrite <- HB. }
  assert (Ht1 : ∀ n, n ≤ length PB → take n (content st1) = take n B).
  { intros n Hn. rewrite Hc1, HB. by rewrite !take_app_le by lia. }
  assert (HlenF : length PF ≤ iF).
  { apply (f_equal length) in HtF. rewrite length_take, !length_app in HtF. lia. }
  rewrite (processComponent_insert _ _ _ foo fooDoc iF); [|done|done|].
  2:{ rewrite Ht1, HlsF by lia.
      rewrite (findExisting_ext _ B _ (length PF)); [done|]. apply Ht1. lia. }
  rewrite (Ht1 iF), HlsF, (Ht1 (length PF)) by lia.
  unfold countSuccess. subst st1. cbn [content modified success failed skippedCount countSuccess].
  f_equal. f_equal. f_equal.
  replace (PB ++ barDoc ++ nl :: RB) with (PB ++ (barDoc ++ [nl] ++ RB))
    by (by rewrite <- ?app_assoc).
  rewrite drop_app_le by lia.
  unfold substring. rewrite Nat.max_r, Nat.min_l by lia.
  by rewrite <- skipn_firstn_comm, HtPB.
Qed.

(** C2, amended: when every documentation text is delimited by the markers
    and holds the first line of no declaration, a second pass (without
    update of existing blocks) over the result of a first one, with the
    declarations located again, changes nothing. *)
Theorem patchFile_second_pass (originalContent : jsstr)
    (components components2 : list Component)
    (docStrings docStrings2 : gmap jsstr DocStringResult) :
  (∀ c d, c ∈ components → documentationFor docStrings c = Some d →
     docForm d
     ∧ ∀ c', c' ∈ components → indexOf d (getComponentSignature c') = None) →
  (∀ c2, c2 ∈ components2 → is_Some (documentationFor docStrings2 c2) →
     ∃ c, c ∈ components
          ∧ getComponentSignature c = getComponentSignature c2
          ∧ documentationFor docStrings c = documentationFor docStrings2 c2) →
  let first := patchFile originalContent components docStrings false in
  let second := patchFile (content first) components2 docStrings2 false in
  content second = content first
  ∧ success second = 0
  ∧ modified second = false
  ∧ skippedCount second + failed second = length components2.
Proof.
  intros Hdocs Hsame first second.
  cut (content second = content first ∧ success second = 0
       ∧ modified second = false).
  { intros (H1 & H2 & H3). split_and!; [done..|].
    pose proof (patchFile_counts (content first) components2 docStrings2 false)
      as Hsum. cbn zeta in Hsum. fold second in Hsum. lia. }
  apply (processComponents_settled docStrings2 (content first)); [done|].
  intros c2 Hc2%sort_elem Hsome.
  destruct (Hsame c2 Hc2 Hsome) as (c & Hc & <- & Hdoc).
  subst first. rewrite patchFile_eq.
  apply (processComponents_settle docStrings components Hdocs _ []).
  - intros x Hx%sort_elem. done.
  - intros x Hx. by apply elem_of_nil in Hx.
  - intros x Hx. by apply elem_of_nil in Hx.
  - simpl. by apply sort_elem.
  - by rewrite Hdoc.
Qed.

End Patcher.

(** ** The locator *)

Section LocatorFacts.
Import JS Locator.

Variable extname : jsstr → jsstr.
Variable toLowerCase : jsstr → jsstr.
Variable parse : jsstr → list jsstr → option Node.

(** What one visit adds: nothing, or one component that is a class
    component or has passed the test on its name. *)
Lemma visit_adds filePath fileContent relativePath components path components' :
  visit filePath fileContent relativePath components path = Normal components' →
  components' = components
  ∨ ∃ c, components' = components ++ [c]
         ∧ (type c = js "ClassComponent" ∨ startsUpperCase (name c) = true).
Proof.
  unfold visit, addComponent. destruct path as [node ancestors].
  intros H.
  repeat (case_match; simplify_eq; try (by left));
    right; eexists; (split; [reflexivity|]); cbn [type name]; auto.
Qed.

Lemma visitAll_adds filePath fileContent relativePath (Q : Component → Prop) :
  (∀ c, type c = js "ClassComponent" ∨ startsUpperCase (name c) = true → Q c) →
  ∀ ps components components',
    visitAll filePath fileContent relativePath components ps = Normal components' →
    Forall Q components → Forall Q components'.
Proof.
  intros HQ ps. induction ps as [|p ps IH]; intros comps comps' H Hall; simpl in H.
  - by simplify_eq.
  - destruct (visit _ _ _ comps p) as [comps1|] eqn:Ev; [|done].
    apply (IH _ _ H).
    apply visit_adds in Ev as [->|(c & -> & Hc)]; [done|].
    apply Forall_app. split; [done|]. constructor; [by apply HQ|constructor].
Qed.

Lemma extract_inv filePath fileContent relativePath components :
  extractComponentsFromFile extname toLowerCase parse
    filePath fileContent relativePath = Normal components →
  components = []
  ∨ ∃ ast found,
      visitAll filePath fileContent relativePath [] (paths [] ast) = Normal found
      ∧ components = sort byStartAscending found.
Proof.
  unfold extractComponentsFromFile. intros H.
  destruct (parse fileContent _) as [ast|]; [|left; by simplify_eq].
  destruct (visitAll _ _ _ [] _) as [found|] eqn:Ev; [|done].
  right. exists ast, found. split; [done|]. by simplify_eq.
Qed.

(** A text the parser rejects yields no component and no exception. *)
Lemma extract_parse_failure filePath fileContent relativePath :
  (∀ plugins, parse fileContent plugins = None) →
  extractComponentsFromFile extname toLowerCase parse
    filePath fileContent relativePath = Normal [].
Proof. intros H. unfold extractComponentsFromFile. by rewrite H. Qed.

(** C5, amended: the components come back ordered by ascending [startPos];
    the patcher takes them, all of them, by descending [startPos].  (Their
    spans may be nested or equal.) *)
Theorem located_sorted filePath fileContent relativePath components :
  extractComponentsFromFile extname toLowerCase parse
    filePath fileContent relativePath = Normal components →
  StronglySorted (λ a b, startPos a ≤ startPos b) components
  ∧ StronglySorted (λ a b, startPos b ≤ startPos a)
      (sort byStartDescending components)
  ∧ sort byStartDescending components ≡ₚ components
  ∧ ∀ originalContent docStrings updateExisting,
      Updater.patchFile originalContent components docStrings updateExisting =
      foldl (Updater.processComponent updateExisting docStrings)
        {| Updater.content := originalContent; Updater.modified := false;
           Updater.success := 0; Updater.failed := 0;
           Updater.skippedCount := 0 |}
        (sort byStartDescending components).
Proof.
  intros H. split_and!.
  - apply extract_inv in H as [->|(ast & found & _ & ->)]; [constructor|].
    apply sort_ascending.
  - apply sort_descending.
  - apply sort_perm.
  - done.
Qed.

Lemma extract_inv_parse filePath fileContent relativePath components :
  extractComponentsFromFile extname toLowerCase parse
    filePath fileContent relativePath = Normal components →
  (parse fileContent (pluginsFor (toLowerCase (extname filePath))) = None
   ∧ components = [])
  ∨ ∃ ast found,
      parse fileContent (pluginsFor (toLowerCase (extname filePath))) = Some ast
      ∧ visitAll filePath fileContent relativePath [] (paths [] ast)
        = Normal found
      ∧ components = sort byStartAscending found.
Proof.
  unfold extractComponentsFromFile. intros H.
  change (parse fileContent _)
    with (parse fileContent (pluginsFor (toLowerCase (extname filePath))))
    in H.
  destruct (parse fileContent _) as [ast|]; [|left; by simplify_eq].
  destruct (visitAll _ _ _ [] _) as [found|] eqn:Ev; [|done].
  right. exists ast, found. split_and!; [done..|]. by simplify_eq.
Qed.

Lemma snoc_ne {A} (l : list A) (x : A) : l ≠ l ++ [x].
Proof.
  intros H. apply (f_equal length) in H. rewrite length_app in H.
  simpl in H. lia.
Qed.

(** A component with the class tag comes from the class visitor, at a class
    declaration with a name and with a superclass that passed the test. *)
Lemma visit_class_origin filePath fileContent relativePath components node
    ancestors c :
  visit filePath fileContent relativePath components (node, ancestors)
    = Normal (components ++ [c]) →
  type c = js "ClassComponent" →
  ∃ superClass body,
    node = ClassDeclaration (startPos c) (endPos c) (Some (name c))
             (Some superClass) body
    ∧ componentSuperclass superClass.
Proof.
  unfold visit, addComponent. intros H Hty.
  destruct node as [| | | |fs fe fid fps fb|ds de did dinit| |cs ce cid csc cb|].
  all: try (injection H as H; by apply snoc_ne in H).
  - repeat case_match; simplify_eq;
      first [ by apply snoc_ne in H
            | apply app_inv_head in H; injection H as <-;
              by vm_compute in Hty ].
  - repeat case_match; simplify_eq;
      first [ by apply snoc_ne in H
            | apply app_inv_head in H; injection H as <-;
              by vm_compute in Hty ].
  - destruct csc as [superClass|]; [|injection H as H; by apply snoc_ne in H].
    destruct (match superClass with
              | Identifier _ _ superName =>
                  bool_decide (superName = js "Component")
              | MemberExpression _ _ object property =>
                  bool_decide (nodeName object = Some (js "React"))
                  && bool_decide (nodeName property = Some (js "Component"))
              | _ => false
              end) eqn:Etest;
      [|injection H as H; by apply snoc_ne in H].
    destruct cid as [idName|]; [|done].
    injection H as H. apply app_inv_head in H. injection H as <-.
    cbn [startPos endPos name nodeStart nodeEnd].
    exists superClass, cb. split; [done|].
    destruct superClass as [s e n|s e o pr| | | | | | |]; try done.
    + left. exists s, e. by apply bool_decide_eq_true_1 in Etest as ->.
    + right. exists s, e, o, pr.
      apply andb_true_iff in Etest as [Ho Hp].
      apply bool_decide_eq_true_1 in Ho. apply bool_decide_eq_true_1 in Hp.
      done.
Qed.

(** A class declaration with a name and a superclass that passes the test
    is added, whatever its name. *)
Lemma visit_class_reported filePath fileContent relativePath components
    s e idName superClass body ancestors :
  componentSuperclass superClass →
  visit filePath fileContent relativePath components
    (ClassDeclaration s e (Some idName) (Some superClass) body, ancestors)
  = Normal
      (components
         ++ addComponent filePath fileContent relativePath [] idName
              (ClassDeclaration s e (Some idName) (Some superClass) body)
              (ClassDeclaration s e (Some idName) (Some superClass) body)
              (js "ClassComponent")).
Proof.
  intros [(s0 & e0 & ->)|(s0 & e0 & o & pr & -> & Ho & Hp)];
    unfold visit; cbv beta iota zeta.
  - by rewrite bool_decide_eq_true_2.
  - by rewrite Ho, Hp, !bool_decide_eq_true_2.
Qed.

Lemma visitAll_keeps filePath fileContent relativePath ps :
  ∀ components components',
    visitAll filePath fileContent relativePath components ps
      = Normal components' →
    ∀ c, c ∈ components → c ∈ components'.
Proof.
  induction ps as [|p ps IH]; intros comps comps' H c Hc; simpl in H.
  - by simplify_eq.
  - destruct (visit _ _ _ comps p) as [comps1|] eqn:Ev; [|done].
    apply (IH _ _ H).
    apply visit_adds in Ev as [->|(c' & -> & _)]; [done|].
    apply elem_of_app. by left.
Qed.

Lemma visitAll_origin filePath fileContent relativePath ps :
  ∀ components components',
    visitAll filePath fileContent relativePath components ps
      = Normal components' →
    ∀ c, c ∈ components' →
      c ∈ components
      ∨ ∃ p before,
          p ∈ ps
          ∧ visit filePath fileContent relativePath before p
            = Normal (before ++ [c]).
Proof.
  induction ps as [|p ps IH]; intros comps comps' H c Hc; simpl in H.
  - left. by simplify_eq.
  - destruct (visit _ _ _ comps p) as [comps1|] eqn:Ev; [|done].
    destruct (IH _ _ H c Hc) as [Hin|(q & before & Hq & Hv)].
    + pose proof Ev as Ev'.
      apply visit_adds in Ev' as [->|(c' & -> & _)]; [by left|].
      apply elem_of_app in Hin as [Hin|Hin]; [by left|].
      apply list_elem_of_singleton in Hin as ->.
      right. exists p, comps. split; [by left|done].
    + right. exists q, before. split; [by right|done].
Qed.

Lemma visitAll_reports filePath fileContent relativePath ps p c :
  (∀ before, visit filePath fileContent relativePath before p
             = Normal (before ++ [c])) →
  p ∈ ps →
  ∀ components components',
    visitAll filePath fileContent relativePath components ps
      = Normal components' →
    c ∈ components'.
Proof.
  intros Hp. induction ps as [|q ps IH]; intros Hin comps comps' H.
  - by apply elem_of_nil in Hin.
  - simpl in H.
    destruct (visit _ _ _ comps q) as [comps1|] eqn:Ev; [|done].
    apply elem_of_cons in Hin as [<-|Hin]; [|by eapply IH].
    rewrite Hp in Ev. injection Ev as <-.
    apply (visitAll_keeps _ _ _ _ _ _ H), elem_of_app. right. by left.
Qed.

(** C6, amended: a function, arrow, styled or wrapped component has a name
    that begins with an upper-case letter.  Class components are selected
    by their superclass only: a component with the class tag is a named
    class declaration of the tree whose superclass is [Component] or
    [React.Component], and every such declaration of the tree is reported,
    whatever its name. *)
Theorem located_names filePath fileContent relativePath components :
  extractComponentsFromFile extname toLowerCase parse
    filePath fileContent relativePath = Normal components →
  (∀ c, c ∈ components → type c ≠ js "ClassComponent" →
        startsUpperCase (name c) = true)
  ∧ (∀ c, c ∈ components → type c = js "ClassComponent" →
       ∃ ast ancestors superClass body,
         parse fileContent (pluginsFor (toLowerCase (extname filePath)))
           = Some ast
         ∧ (ClassDeclaration (startPos c) (endPos c) (Some (name c))
              (Some superClass) body, ancestors) ∈ paths [] ast
         ∧ componentSuperclass superClass)
  ∧ (∀ ast s e idName superClass body ancestors,
       parse fileContent (pluginsFor (toLowerCase (extname filePath)))
         = Some ast →
       (ClassDeclaration s e (Some idName) (Some superClass) body, ancestors)
         ∈ paths [] ast →
       componentSuperclass superClass →
       ∃ c, c ∈ components ∧ name c = idName
            ∧ type c = js "ClassComponent"
            ∧ startPos c = s ∧ endPos c = e).
Proof.
  intros H. split_and!.
  - intros c Hc Hty.
    apply extract_inv in H as [->|(ast & found & Hv & ->)];
      [by apply elem_of_nil in Hc|].
    apply sort_elem in Hc.
    apply (visitAll_adds _ _ _
             (λ c, type c ≠ js "ClassComponent"
                   → startsUpperCase (name c) = true))
      in Hv; [|intros ? [?|?]; done|constructor].
    rewrite Forall_forall in Hv. by apply Hv.
  - intros c Hc Hty.
    apply extract_inv_parse in H as [[_ ->]|(ast & found & Hp & Hv & ->)];
      [by apply elem_of_nil in Hc|].
    apply sort_elem in Hc.
    destruct (visitAll_origin _ _ _ _ _ _ Hv c Hc)
      as [Hnil|([node ancestors] & before & Hin & Hvisit)];
      [by apply elem_of_nil in Hnil|].
    destruct (visit_class_origin _ _ _ _ _ _ _ Hvisit Hty)
      as (superClass & body & -> & Hsuper).
    by exists ast, ancestors, superClass, body.
  - intros ast s e idName superClass body ancestors Hp Hin Hsuper.
    apply extract_inv_parse in H as [[Hp' _]|(ast' & found & Hp' & Hv & ->)].
    + by rewrite Hp in Hp'.
    + rewrite Hp in Hp'. injection Hp' as <-.
      set (node := ClassDeclaration s e (Some idName) (Some superClass) body)
        in *.
      assert (Hadd : ∃ c,
                addComponent filePath fileContent relativePath [] idName
                  node node (js "ClassComponent") = [c]
                ∧ name c = idName ∧ type c = js "ClassComponent"
                ∧ startPos c = s ∧ endPos c = e).
      { eexists. split; [reflexivity|]. by cbn. }
      destruct Hadd as (c & Hc & Hfields). exists c. split; [|done].
      apply sort_elem.
      refine (visitAll_reports filePath fileContent relativePath
                (paths [] ast) (node, ancestors) c _ Hin [] found Hv).
      intros before. subst node.
      rewrite visit_class_reported by done. by rewrite Hc.
Qed.

End LocatorFacts.

(** ** The sanitizer *)

Section Sanitizer.
Import JS Generator.

(** C9: whatever the generator returned, the sanitized text begins with
    the open marker and ends with the close marker. *)
Theorem sanitizeDocString_delimited (docString : jsstr) :
  startsWith (sanitizeDocString docString) (js "/**") = true
  ∧ endsWith (sanitizeDocString docString) (js "*/") = true.
Proof.
  unfold sanitizeDocString.
  set (body := replaceAll (replaceAll (replaceAll docString _ _) _ _) _ _).
  set (opened := if negb (startsWith body (js "/**")) then _ else body).
  assert (Hopen : startsWith opened (js "/**") = true).
  { subst opened. destruct (startsWith body (js "/**")) eqn:E; cbn [negb]; [done|].
    apply (startsWith_app (js "/**")). }
  destruct (endsWith opened (js "*/")) eqn:E; cbn [negb].
  - done.
  - split.
    + by apply startsWith_app_l.
    + change (nl :: js " */") with ([nl; " "%char] ++ js "*/").
      rewrite app_assoc. apply endsWith_app.
Qed.

End Sanitizer.

(** ** The per-file update *)

Section UpdateFile.
Import JS Updater.

Context {FS : Type}.
Variable readFile : jsstr → FS → option jsstr.
Variable writeFile : jsstr → jsstr → FS → FS * bool.

Lemma processComponent_counts_one u docs st c :
  countsOne st (processComponent u docs st c).
Proof.
  unfold countsOne.
  destruct (processComponent_cases u docs st c) as [->|[->|[? ->]]];
    simpl; [right; right|right; left|left]; lia.
Qed.

Lemma processComponent_failed_only u docs st c :
  failed (processComponent u docs st c) = failed st + 1 →
  is_Some (documentationFor docs c)
  ∧ findComponentPosition (content st) c = None.
Proof.
  unfold documentationFor, processComponent.
  destruct (usableDocString _) as [d|]; [|simpl; lia].
  destruct (findComponentPosition _ _); [|done].
  destruct (findExistingDocString _ _); [destruct u|]; simpl; lia.
Qed.

(** C10, amended: in a run that is not a dry run and meets no read or write
    error, the counts returned are those of the loop over the declarations,
    taken by descending position; every declaration moves exactly one of
    the three counters by one, so that they add up to the number of
    declarations.  A declaration without a usable documentation text is
    counted as skipped and leaves the buffer as it is, whether or not its
    signature is in the buffer; a declaration with such a text is counted
    as failed exactly when its signature is not found in the buffer, and
    then the buffer stays as it is. *)
Theorem updateFile_counts filePath components docStrings options fs
    originalContent :
  isDryRun options = false →
  readFile filePath fs = Some originalContent →
  let sorted := sort byStartDescending components in
  let after := λ k,
    foldl (processComponent (updateExisting options) docStrings)
      {| content := originalContent; modified := false;
         success := 0; failed := 0; skippedCount := 0 |}
      (take k sorted) in
  let final := after (length components) in
  (modified final = true →
   (writeFile filePath (content final) fs).2 = true) →
  let result :=
    (updateFileWithDocStrings readFile writeFile filePath components
       docStrings options fs).1 in
  resultSuccess result = success final
  ∧ resultFailed result = failed final
  ∧ resultSkipped result = Some (skippedCount final)
  ∧ success final + failed final + skippedCount final = length components
  ∧ ∀ k c, sorted !! k = Some c →
      countsOne (after k) (after (S k))
      ∧ (documentationFor docStrings c = None →
         skippedCount (after (S k)) = skippedCount (after k) + 1
         ∧ content (after (S k)) = content (after k))
      ∧ (is_Some (documentationFor docStrings c) →
         findComponentPosition (content (after k)) c = None →
         failed (after (S k)) = failed (after k) + 1
         ∧ content (after (S k)) = content (after k))
      ∧ (failed (after (S k)) = failed (after k) + 1 →
         is_Some (documentationFor docStrings c)
         ∧ findComponentPosition (content (after k)) c = None).
Proof.
  intros Hdry Hread sorted after final Hwrite result.
  assert (Hfinal : final = patchFile originalContent components docStrings
                             (updateExisting options)).
  { subst final after sorted. cbv beta. rewrite patchFile_eq.
    by rewrite take_ge by (by rewrite sort_length). }
  assert (Hresult : resultSuccess result = success final
                    ∧ resultFailed result = failed final
                    ∧ resultSkipped result = Some (skippedCount final)).
  { subst result. unfold updateFileWithDocStrings. rewrite Hdry, Hread.
    rewrite <- Hfinal.
    destruct (modified final) eqn:Em; [|done].
    specialize (Hwrite eq_refl).
    destruct (writeFile filePath (content final) fs) as [fs' ok];
      simpl in *.
    by subst ok. }
  destruct Hresult as (H1 & H2 & H3).
  split_and!; [done..| |].
  - rewrite Hfinal. apply patchFile_counts.
  - intros k c Hk.
    assert (Hstep : after (S k)
                    = processComponent (updateExisting options) docStrings
                        (after k) c).
    { subst after. cbv beta. by rewrite (take_S_r _ _ _ Hk), foldl_snoc. }
    rewrite Hstep. split_and!.
    + apply processComponent_counts_one.
    + intros Hnone. by rewrite processComponent_nodoc.
    + intros Hdoc Hpos. by rewrite processComponent_not_found.
    + apply processComponent_failed_only.
Qed.

(** C8, amended: a dry run reads nothing, writes nothing and computes
    nothing.  It leaves the file system as it was and reports every
    declaration passed in as a success, none as failed and no skip count;
    its success count is the sum of the three counts of any real pass over
    the same declarations, not the success count of that pass. *)
Theorem dryRun_reports_all filePath components docStrings updateExisting fs :
  updateFileWithDocStrings readFile writeFile filePath components docStrings
    {| isDryRun := true; updateExisting := updateExisting |} fs =
  ({| resultSuccess := length components; resultFailed := 0;
      resultSkipped := None; resultModified := false |}, fs)
  ∧ ∀ originalContent,
      let st := patchFile originalContent components docStrings updateExisting in
      resultSuccess
        (updateFileWithDocStrings readFile writeFile filePath components
           docStrings {| isDryRun := true; updateExisting := updateExisting |}
           fs).1
      = success st + failed st + skippedCount st.
Proof.
  split; [done|]. intros originalContent st.
  pose proof (patchFile_counts originalContent components docStrings
                updateExisting) as Hsum.
  cbn zeta in Hsum. fold st in Hsum. by rewrite Hsum.
Qed.

End UpdateFile.

(** ** The properties at the sample files *)

Section AtSamples.
Import JS Generator Updater Locator Samples.

Local Ltac membership H :=
  repeat (apply elem_of_cons in H as [->|H]); [..|by apply elem_of_nil in H].

(** The locator and the patcher on [twoLines]. *)
Example locate_twoLines : locate twoLines fooBarAst = Normal [foo; bar].
Proof. reflexivity. Qed.

Example patch_twoLines :
  patchFile twoLines [foo; bar] fooBarDocs false =
    {| content := twoLinesPatched; modified := true;
       success := 2; failed := 0; skippedCount := 0 |}.
Proof. reflexivity. Qed.

(** The two declarations of [twoLines]. *)
Lemma patchFile_two_components_witness :
  patchFile twoLines [foo; bar] fooBarDocs false =
    {| content :=
         take 0 twoLines ++ fooDoc ++ [nl] ++ substring twoLines 0 21
           ++ barDoc ++ [nl] ++ drop 21 twoLines;
       modified := true; success := 2; failed := 0; skippedCount := 0 |}.
Proof.
  apply (patchFile_two_components twoLines foo bar fooBarDocs fooDoc barDoc
           {| start := 0; signatureStart := 0; signatureEnd := 20 |}
           {| start := 21; signatureStart := 21; signatureEnd := 41 |}).
  - vm_compute. lia.
  - reflexivity.
  - reflexivity.
  - reflexivity.
  - reflexivity.
  - vm_compute. lia.
  - reflexivity.
  - reflexivity.
Defined.

(** C1 as stated fails when both declarations share a line: the text put in
    front of the line for [Bar] is then taken for the documentation of
    [Foo], which is skipped. *)
Lemma one_line_second_skipped :
  locate oneLine fooBarAst = Normal [foo; barOnLine1]
  ∧ existingComment foo = None ∧ existingComment barOnLine1 = None
  ∧ documentationFor oneLineDocs foo = Some fooDoc
  ∧ documentationFor oneLineDocs barOnLine1 = Some barDoc
  ∧ patchFile oneLine [foo; barOnLine1] oneLineDocs false =
      {| content := barDoc ++ nl :: oneLine; modified := true;
         success := 1; failed := 0; skippedCount := 1 |}.
Proof. by vm_compute. Qed.

(** A second pass over [twoLines], patched. *)
Lemma patchFile_second_pass_witness :
  let first := patchFile twoLines [foo; bar] fooBarDocs false in
  let second :=
    patchFile (content first) [fooAgain; barAgain] fooBarDocsAgain false in
  content second = content first
  ∧ success second = 0
  ∧ modified second = false
  ∧ skippedCount second + failed second = length [fooAgain; barAgain].
Proof.
  apply (patchFile_second_pass twoLines [foo; bar] [fooAgain; barAgain]
           fooBarDocs fooBarDocsAgain).
  - intros c d Hc Hd. membership Hc.
    + injection Hd as <-. split; [by vm_compute|].
      intros c' Hc'. membership Hc'; reflexivity.
    + injection Hd as <-. split; [by vm_compute|].
      intros c' Hc'. membership Hc'; reflexivity.
  - intros c2 Hc2 _. membership Hc2.
    + exists foo. split_and!; [left|reflexivity|reflexivity].
    + exists bar. split_and!; [right; left|reflexivity|reflexivity].
Defined.

(** C2 as stated fails for a documentation text that quotes the first line
    of its declaration: the second pass finds that line inside the block
    and inserts the text once more. *)
Lemma second_pass_inserts_again :
  let first := patchFile fooOnly [foo] quotingDocs false in
  let second := patchFile (content first) [fooQuoted] quotingDocsAgain false in
  content first = quotingDoc ++ nl :: fooOnly
  ∧ docForm quotingDoc
  ∧ content second =
      js "/**" ++ nl :: quotingDoc ++ nl :: js " * const Foo = () => 1;"
        ++ nl :: js " */" ++ nl :: fooOnly
  ∧ content second ≠ content first
  ∧ success second = 1.
Proof. by vm_compute. Qed.

(** C3: with white space at the head of the file the span found in the
    trimmed text is not the span of the block in the buffer; the replacement
    eats the line feed before the block and leaves the last character of
    the old block behind. *)
Theorem replace_misses_block :
  findComponentPosition documentedFoo fooLine3
    = Some {| start := 12; signatureStart := 12; signatureEnd := 32 |}
  ∧ substring documentedFoo 1 11 = js "/** old */"
  ∧ findExistingDocString documentedFoo 12
    = Some {| docStart := 0; docEnd := 10; docContent := js "/** old */" |}
  ∧ patchFile documentedFoo [fooLine3] newDocs true =
      {| content := newDoc ++ js "/" ++ nl :: fooLine ++ [nl];
         modified := true; success := 1; failed := 0; skippedCount := 0 |}
  ∧ content (patchFile documentedFoo [fooLine3] newDocs true)
    ≠ take 1 documentedFoo ++ newDoc ++ drop 11 documentedFoo.
Proof. by vm_compute. Qed.

(** C4: close markers that the removals themselves put together survive;
    the block then closes before its end. *)
Theorem sanitizeDocString_leaves_close_marker :
  sanitizeDocString (js "a****///b")
    = js "/**" ++ nl :: js " * a*/b" ++ nl :: js " */"
  ∧ indexOf (sanitizeDocString (js "a****///b")) (js "*/") = Some 8
  ∧ ¬ closedAtEnd (sanitizeDocString (js "a****///b")).
Proof. by vm_compute. Qed.

(** The components located in [twoLines]. *)
Lemma located_sorted_witness :
  StronglySorted (λ a b, startPos a ≤ startPos b) [foo; bar]
  ∧ StronglySorted (λ a b, startPos b ≤ startPos a)
      (sort byStartDescending [foo; bar])
  ∧ sort byStartDescending [foo; bar] ≡ₚ [foo; bar]
  ∧ ∀ originalContent docStrings updateExisting,
      patchFile originalContent [foo; bar] docStrings updateExisting =
      foldl (processComponent updateExisting docStrings)
        {| content := originalContent; modified := false;
           success := 0; failed := 0; skippedCount := 0 |}
        (sort byStartDescending [foo; bar]).
Proof.
  apply (located_sorted extnameJs lowerCased (parseOnly twoLines fooBarAst)
           samplePath twoLines (js "a.js")).
  reflexivity.
Defined.

(** C5 as stated fails for a component declared inside another one: both
    are reported, and the span of the inner lies within that of the
    outer. *)
Lemma nested_spans_reported :
  locate nestedText nestedAst = Normal [outer; inner]
  ∧ (startPos outer, endPos outer) = (0, 61)
  ∧ (startPos inner, endPos inner) = (21, 43)
  ∧ ¬ disjointSpans outer inner.
Proof.
  split_and!; [reflexivity..|].
  unfold disjointSpans. vm_compute. lia.
Qed.

(** [Foo] and the class [foo], as located in [mixedText]. *)
Lemma located_names_witness :
  (∀ c, c ∈ [foo; lowerClassLine2] → type c ≠ js "ClassComponent" →
        startsUpperCase (name c) = true)
  ∧ (∀ c, c ∈ [foo; lowerClassLine2] → type c = js "ClassComponent" →
       ∃ ast ancestors superClass body,
         parseOnly mixedText mixedAst mixedText
           (pluginsFor (lowerCased (extnameJs samplePath))) = Some ast
         ∧ (ClassDeclaration (startPos c) (endPos c) (Some (name c))
              (Some superClass) body, ancestors) ∈ paths [] ast
         ∧ componentSuperclass superClass)
  ∧ (∀ ast s e idName superClass body ancestors,
       parseOnly mixedText mixedAst mixedText
         (pluginsFor (lowerCased (extnameJs samplePath))) = Some ast →
       (ClassDeclaration s e (Some idName) (Some superClass) body, ancestors)
         ∈ paths [] ast →
       componentSuperclass superClass →
       ∃ c, c ∈ [foo; lowerClassLine2] ∧ name c = idName
            ∧ type c = js "ClassComponent"
            ∧ startPos c = s ∧ endPos c = e).
Proof.
  apply (located_names extnameJs lowerCased (parseOnly mixedText mixedAst)
           samplePath mixedText (js "a.js") [foo; lowerClassLine2]).
  reflexivity.
Defined.

(** C6 as stated fails for a class component: its name is not tested. *)
Lemma lower_case_class_reported :
  locate lowerClassText lowerClassAst = Normal [lowerClass]
  ∧ name lowerClass = js "foo"
  ∧ startsUpperCase (name lowerClass) = false.
Proof. by vm_compute. Qed.

(** C7: the class visitor reads the name of an identifier that an anonymous
    class does not have; the exception leaves [extractComponentsFromFile]. *)
Theorem locator_throws :
  parseOnly anonymousClassText anonymousClassAst anonymousClassText
    [js "jsx"; js "classProperties"; js "objectRestSpread"; js "dynamicImport"]
    = Some anonymousClassAst
  ∧ locate anonymousClassText anonymousClassAst = Thrown.
Proof. by vm_compute. Qed.

(** C8 as stated fails on a file whose declarations are documented already:
    the real run skips both, the dry run reports two successes. *)
Lemma dryRun_differs :
  let run dry :=
    (updateFileWithDocStrings readOne writeOne samplePath
       [fooAgain; barAgain] fooBarDocsAgain
       {| isDryRun := dry; updateExisting := false |} twoLinesPatched).1 in
  run true = {| resultSuccess := 2; resultFailed := 0;
                resultSkipped := None; resultModified := false |}
  ∧ run false = {| resultSuccess := 0; resultFailed := 0;
                   resultSkipped := Some 2; resultModified := false |}.
Proof. by vm_compute. Qed.

(** A real run on [twoLines] over four declarations: [Qux] has no
    documentation text and is skipped, the signature of [Baz] is not found
    and it fails, [Bar] and [Foo] are documented. *)
Lemma updateFile_counts_witness :
  let sorted := sort byStartDescending [foo; bar; baz; qux] in
  let after := λ k,
    foldl (processComponent false fourDocs)
      {| content := twoLines; modified := false;
         success := 0; failed := 0; skippedCount := 0 |}
      (take k sorted) in
  let final := after 4 in
  let result :=
    (updateFileWithDocStrings readOne writeOne samplePath
       [foo; bar; baz; qux] fourDocs realRun twoLines).1 in
  (sorted = [qux; baz; bar; foo]
   ∧ (success final, failed final, skippedCount final) = (2, 1, 1))
  ∧ resultSuccess result = success final
  ∧ resultFailed result = failed final
  ∧ resultSkipped result = Some (skippedCount final)
  ∧ success final + failed final + skippedCount final = 4
  ∧ ∀ k c, sorted !! k = Some c →
      countsOne (after k) (after (S k))
      ∧ (documentationFor fourDocs c = None →
         skippedCount (after (S k)) = skippedCount (after k) + 1
         ∧ content (after (S k)) = content (after k))
      ∧ (is_Some (documentationFor fourDocs c) →
         findComponentPosition (content (after k)) c = None →
         failed (after (S k)) = failed (after k) + 1
         ∧ content (after (S k)) = content (after k))
      ∧ (failed (after (S k)) = failed (after k) + 1 →
         is_Some (documentationFor fourDocs c)
         ∧ findComponentPosition (content (after k)) c = None).
Proof.
  split; [by vm_compute|].
  apply (updateFile_counts readOne writeOne samplePath [foo; bar; baz; qux]
           fourDocs realRun twoLines twoLines).
  - reflexivity.
  - reflexivity.
  - reflexivity.
Defined.

(** C10 as stated fails for a declaration without a documentation text:
    the signature of [Qux] is not in [twoLines], yet it is counted as
    skipped, not as failed. *)
Lemma unlocated_without_text_skipped :
  findComponentPosition twoLines qux = None
  ∧ documentationFor fourDocs qux = None
  ∧ (updateFileWithDocStrings readOne writeOne samplePath [qux] fourDocs
       realRun twoLines).1
    = {| resultSuccess := 0; resultFailed := 0; resultSkipped := Some 1;
         resultModified := false |}.
Proof. by vm_compute. Qed.

End AtSamples.

(** ** More about positions: [adjustPosition] and [getLineAndColumn] *)

Section Positions.
Import JS Updater Locator.

Lemma roundDouble_safe (z : Z) : safeInteger z → roundDouble z = z.
Proof.
  unfold safeInteger, roundDouble. intros Hz. cbn zeta.
  destruct (Z.leb_spec (Z.abs z) (2 ^ 53)); [done|lia].
Qed.

(** X1: between safe integers, after the span of [oldLength] characters at
    [modificationPos] is replaced by a text, a position up to
    [modificationPos] stays and the text before it is the same; a position
    behind the replaced span moves to where the text that followed it now
    is. *)
Theorem adjustPosition_tracks (B new : jsstr) (m old p : nat) :
  m + old ≤ length B →
  safeInteger (Z.of_nat (length B)) →
  safeInteger (Z.of_nat p + Z.of_nat (length new)) →
  let B' := take m B ++ new ++ drop (m + old) B in
  let p' := Z.to_nat (adjustPosition (Z.of_nat p) (Z.of_nat m) (Z.of_nat old)
                        (Z.of_nat (length new))) in
  (p ≤ m → p' = p ∧ take p' B' = take p B)
  ∧ (m < p → m + old ≤ p →
     p' = p - old + length new ∧ drop p' B' = drop p B).
Proof.
  intros Hspan HB Hsafe B' p'. unfold adjustPosition in p'.
  unfold safeInteger in *. split.
  - intros Hp. subst p'.
    destruct (Z.leb_spec (Z.of_nat p) (Z.of_nat m)); [|lia].
    rewrite Nat2Z.id. split; [done|]. subst B'.
    rewrite take_app_le by (rewrite length_take; lia).
    by rewrite take_take, Nat.min_l by lia.
  - intros Hp Hafter. subst p'.
    destruct (Z.leb_spec (Z.of_nat p) (Z.of_nat m)); [lia|].
    rewrite (roundDouble_safe (Z.of_nat p - Z.of_nat old))
      by (unfold safeInteger; lia).
    rewrite roundDouble_safe by (unfold safeInteger; lia).
    assert (Hp' : Z.to_nat (Z.of_nat p - Z.of_nat old + Z.of_nat (length new))
                  = p - old + length new) by lia.
    rewrite Hp'. split; [done|]. subst B'.
    rewrite drop_app_ge by (rewrite length_take; lia).
    rewrite length_take, Nat.min_l by lia.
    rewrite drop_app_ge by lia. rewrite drop_drop. f_equal. lia.
Qed.

(** X2: between safe integers, adjusting for an edit and then for the edit
    that undoes it gives the position back, for every position outside the
    replaced span. *)
Theorem adjustPosition_undo (p m old new : Z) :
  (0 <= new)%Z → (p <= m ∨ m + old < p)%Z →
  safeInteger p → safeInteger (p - old) → safeInteger (p - old + new) →
  adjustPosition (adjustPosition p m old new) m new old = p.
Proof.
  intros Hnew Hp Hsp Hsd Hsr. unfold adjustPosition.
  destruct (Z.leb_spec p m) as [Hle|Hgt].
  - destruct (Z.leb_spec p m); [done|lia].
  - rewrite (roundDouble_safe (p - old)) by done.
    rewrite (roundDouble_safe (p - old + new)) by done.
    destruct (Z.leb_spec (p - old + new) m); [lia|].
    replace (p - old + new - new)%Z with (p - old)%Z by lia.
    rewrite (roundDouble_safe (p - old)) by done.
    replace (p - old + old)%Z with p by lia.
    by apply roundDouble_safe.
Qed.

Lemma splitLines_nonempty (s : jsstr) : splitLines s ≠ [].
Proof.
  destruct s as [|c s]; simpl; [done|].
  destruct (Ascii.eqb c nl); [done|]. by destruct (splitLines s).
Qed.

Lemma splitLines_app_nl (X Y : jsstr) :
  splitLines (X ++ nl :: Y) = splitLines X ++ splitLines Y.
Proof.
  induction X as [|x X IH]; cbn [app splitLines].
  - by rewrite Ascii.eqb_refl.
  - destruct (Ascii.eqb x nl); [by rewrite IH|].
    rewrite IH. pose proof (splitLines_nonempty X).
    by destruct (splitLines X).
Qed.

Lemma splitLines_one_line (M : jsstr) : nl ∉ M → splitLines M = [M].
Proof.
  induction M as [|x M IH]; intros HM; [done|].
  apply not_elem_of_cons in HM as [Hx HM]. cbn [splitLines].
  destruct (Ascii.eqb_spec x nl); [done|]. by rewrite IH.
Qed.

Lemma splitLines_length (s : jsstr) :
  length (splitLines s) = 1 + countLineFeeds s.
Proof.
  unfold countLineFeeds.
  induction s as [|c s IH]; [done|]. cbn [splitLines List.filter].
  rewrite (Ascii.eqb_sym nl c).
  destruct (Ascii.eqb c nl); simpl; [by rewrite IH|].
  pose proof (splitLines_nonempty s).
  destruct (splitLines s); [done|]. simpl in *. lia.
Qed.

(** X3: the line reported is one more than the number of line feeds before
    the position, and the column is one more than the distance of the
    position from the start of its line, the start the patcher computes. *)
Theorem getLineAndColumn_spec (text : jsstr) (position : nat) :
  let before := take position text in
  line (getLineAndColumn text position) = 1 + countLineFeeds before
  ∧ column (getLineAndColumn text position)
    = length before - lineStartOf before + 1.
Proof.
  cbn zeta. unfold getLineAndColumn.
  destruct (Nat.eqb_spec position 0) as [->|Hpos]; [done|].
  cbn [line column]. split; [apply splitLines_length|].
  destruct (lineBoundary_split (take position text)) as (P & M & -> & HP & HM).
  rewrite lineStartOf_app by done. rewrite length_app.
  destruct HP as [->|[P0 ->]].
  - simpl. rewrite splitLines_one_line by done. simpl. lia.
  - rewrite <- app_assoc. cbn [app].
    rewrite splitLines_app_nl. rewrite (splitLines_one_line M) by done.
    rewrite last_last. lia.
Qed.

End Positions.

(** ** The comment before a declaration, as the locator and the patcher
    see it *)

Section PrecedingComments.
Import JS Updater Locator.

Lemma trim_blank (W : jsstr) : blank W → trim W = [].
Proof.
  intros HW. unfold trim.
  rewrite <- (app_nil_l W), trimEnd_blank by done.
  done.
Qed.

Lemma trim_nil_blank (X : jsstr) : trim X = [] → blank X.
Proof.
  intros H. destruct (trim_split X) as (V & W & HX & HV & HW).
  rewrite H in HX. rewrite HX. by apply Forall_app.
Qed.

Lemma blank_no_star (W : jsstr) : blank W → "*"%char ∉ W.
Proof.
  intros HW Hin. unfold blank in HW. rewrite Forall_forall in HW.
  by apply HW in Hin.
Qed.

(** [lastIndexOf] with the position at the end finds the last occurrence:
    here an occurrence of the close marker followed by white space only. *)
Lemma lastIndexOf_close_marker (Y W : jsstr) :
  blank W →
  lastIndexOf (Y ++ js "*/" ++ W) (js "*/") = Some (length Y).
Proof.
  intros HW. unfold lastIndexOf.
  destruct (lastIndexOfFrom_found (Y ++ js "*/" ++ W) (js "*/") Y W
              (length (Y ++ js "*/" ++ W))) as (e & He & Hge);
    [done|rewrite length_app; lia|].
  rewrite He. f_equal.
  destruct (decide (e = length Y)) as [|Hne]; [done|]. exfalso.
  unfold lastIndexOfFrom in He.
  apply lastIndexOf_go_occurs in He as [|[_ Hocc]]; [done|].
  rewrite Nat.sub_0_r in Hocc.
  assert (He' : e = length Y + (e - length Y)) by lia.
  rewrite He', drop_app_add in Hocc.
  destruct (e - length Y) as [|[|k]] eqn:Ek; [lia| |].
  - simpl in Hocc. by destruct W.
  - change (js "*/" ++ W) with ("*"%char :: "/"%char :: W) in Hocc.
    cbn [drop] in Hocc. apply startsWith_inv in Hocc as [r Hr].
    apply (blank_no_star W HW).
    rewrite <- (take_drop k W), Hr. apply elem_of_app. right. by left.
Qed.

Lemma lastIndexOf_go_le (p : jsstr) (pos i : nat) (s : jsstr) acc y :
  lastIndexOf_go p pos i s acc = Some y → acc = Some y ∨ y ≤ pos.
Proof.
  revert i acc. induction s as [|c s IH]; intros i acc; simpl.
  - destruct (startsWith [] p); simpl; [|by left].
    destruct (Nat.leb_spec i pos); [|by left]. intros [= <-]. by right.
  - intros H. apply IH in H as [H|]; [|by right].
    destruct (startsWith (c :: s) p); simpl in H; [|by left].
    destruct (Nat.leb_spec i pos); [|by left]. simplify_eq. by right.
Qed.

Lemma precedingComment_shape (text : jsstr) (componentStart : nat)
    (r : PrecedingComment) :
  findPrecedingComment text componentStart = Some r →
  ∃ W,
    take componentStart text
      = take (commentStartIndex r) text ++ comment r ++ W
    ∧ blank W
    ∧ commentEndIndex r = commentStartIndex r + length (comment r)
    ∧ commentEndIndex r ≤ componentStart
    ∧ startsWith (comment r) (js "/**") = true
    ∧ endsWith (comment r) (js "*/") = true.
Proof.
  unfold findPrecedingComment. rewrite substring_0.
  set (pre := take componentStart text).
  destruct (lastIndexOf pre (js "*/")) as [e|] eqn:He; [|done].
  destruct (lastIndexOfFrom pre (js "/**") e) as [j|] eqn:Hj; [|done].
  destruct (trim (substringFrom pre (e + 2))) eqn:Hbetween; [|done].
  intros [= <-]. cbn [comment commentStartIndex commentEndIndex].
  apply trim_nil_blank in Hbetween. unfold substringFrom in Hbetween.
  unfold lastIndexOf, lastIndexOfFrom in He, Hj.
  pose proof (lastIndexOf_go_bound _ _ _ _ _ _ He) as [|[_ Hbe]]; [done|].
  pose proof (lastIndexOf_go_occurs _ _ _ _ _ _ He) as [|[_ Hoe]]; [done|].
  pose proof (lastIndexOf_go_bound _ _ _ _ _ _ Hj) as [|[_ Hbj]]; [done|].
  pose proof (lastIndexOf_go_occurs _ _ _ _ _ _ Hj) as [|[_ Hoj]]; [done|].
  rewrite Nat.sub_0_r in Hoe, Hoj. simpl in Hbe, Hbj.
  assert (Hje : j ≤ e).
  { by apply lastIndexOf_go_le in Hj as [|]. }
  assert (Hlt : j < e).
  { destruct (decide (j = e)) as [->|]; [|lia]. exfalso.
    apply startsWith_inv in Hoe as [? Hoe]. apply startsWith_inv in Hoj as [? Hoj].
    rewrite Hoe in Hoj. done. }
  assert (Hlen : componentStart ≥ length pre).
  { subst pre. rewrite length_take. lia. }
  assert (Hsub : substring pre j (e + 2) = take (e + 2 - j) (drop j pre)).
  { unfold substring. by rewrite Nat.max_r, Nat.min_l by lia. }
  rewrite Hsub.
  assert (Hpre : pre = take j pre ++ take (e + 2 - j) (drop j pre)
                         ++ drop (e + 2) pre).
  { rewrite <- (take_drop j pre) at 1. f_equal.
    rewrite <- (take_drop (e + 2 - j) (drop j pre)) at 1. f_equal.
    rewrite drop_drop. f_equal. lia. }
  exists (drop (e + 2) pre). split_and!.
  - rewrite Hpre at 1. f_equal. subst pre.
    rewrite take_take. f_equal. lia.
  - done.
  - rewrite length_take, length_drop. lia.
  - lia.
  - apply startsWith_inv in Hoj as [x ->]. apply startsWith_iff.
    exists (take (e + 2 - j - 3) x).
    change (js "/**" ++ x) with ("/"%char :: "*"%char :: "*"%char :: x).
    destruct (e + 2 - j) as [|[|[|k]]] eqn:Ek; [lia..|].
    simpl. by rewrite Nat.sub_0_r.
  - apply endsWith_iff. exists (take (e - j) (drop j pre)).
    apply startsWith_inv in Hoe as [x Hoe].
    replace (e + 2 - j) with ((e - j) + 2) by lia.
    rewrite <- take_take_drop. f_equal.
    rewrite drop_drop. replace (j + (e - j)) with e by lia.
    rewrite Hoe. done.
Qed.

(** X4: the comment the locator reports lies in the text before the
    declaration, begins with the open marker, ends with the close marker and
    is separated from the declaration by white space only; [start] and [end]
    are its bounds. *)
Theorem findPrecedingComment_span (text : jsstr) (componentStart : nat)
    (r : PrecedingComment) :
  findPrecedingComment text componentStart = Some r →
  ∃ W,
    take componentStart text
      = take (commentStartIndex r) text ++ comment r ++ W
    ∧ blank W
    ∧ commentEndIndex r = commentStartIndex r + length (comment r)
    ∧ commentEndIndex r ≤ componentStart
    ∧ startsWith (comment r) (js "/**") = true
    ∧ endsWith (comment r) (js "*/") = true.
Proof. apply precedingComment_shape. Qed.

(** X5: at every position the locator and the patcher agree on whether a
    documentation block precedes it. *)
Theorem preceding_comment_iff_existing (text : jsstr) (position : nat) :
  is_Some (findPrecedingComment text position)
  ↔ is_Some (findExistingDocString text position).
Proof.
  split.
  - intros [r Hr].
    destruct (precedingComment_shape _ _ _ Hr)
      as (W & Hpre & HW & _ & _ & Ho & Hc).
    by eapply findExisting_block.
  - intros [e He].
    destruct (findExisting_span _ _ _ He)
      as (V & A & W & Hpre & HV & HW & _ & _ & Ho & Hc).
    apply endsWith_iff in Hc as [b0 Hb0].
    apply startsWith_inv in Ho as [b1 Hb1].
    unfold findPrecedingComment. rewrite substring_0, Hpre.
    assert (Hshape : V ++ (A ++ docContent e) ++ W
                     = (V ++ A ++ b0) ++ js "*/" ++ W).
    { rewrite Hb0. by rewrite <- !app_assoc. }
    rewrite Hshape, lastIndexOf_close_marker by done.
    destruct (lastIndexOfFrom_found ((V ++ A ++ b0) ++ js "*/" ++ W) (js "/**")
                (V ++ A) (b1 ++ W) (length (V ++ A ++ b0))) as (j & -> & _).
    { rewrite <- Hshape, Hb1. by rewrite <- !app_assoc. }
    { rewrite !length_app. lia. }
    unfold substringFrom.
    replace (drop (length (V ++ A ++ b0) + 2) ((V ++ A ++ b0) ++ js "*/" ++ W))
      with W.
    + by rewrite trim_blank.
    + rewrite drop_app_add. done.
Qed.

End PrecedingComments.

(** ** When the sanitizer does close the block at its end *)

Section SanitizerPairs.
Import JS Generator.

Lemma hasPair_cons (x y a : ascii) (s : jsstr) :
  hasPair x y (a :: s) = true ↔
  (a = x ∧ head s = Some y) ∨ hasPair x y s = true.
Proof.
  destruct s as [|b s]; cbn [hasPair head].
  - split; [done|]. by intros [[_ ?]|?].
  - rewrite orb_true_iff, andb_true_iff, !Ascii.eqb_eq.
    split; (intros [[-> Hb]|H]; [left|by right]); split; congruence.
Qed.

Lemma hasPair_app_r (x y : ascii) (a s : jsstr) :
  hasPair x y s = true → hasPair x y (a ++ s) = true.
Proof.
  intros H. induction a as [|c a IH]; [done|].
  cbn [app]. apply hasPair_cons. by right.
Qed.

Lemma hasPair_app_l (x y : ascii) (s b : jsstr) :
  hasPair x y s = true → hasPair x y (s ++ b) = true.
Proof.
  induction s as [|c s IH]; [done|]. cbn [app].
  rewrite !hasPair_cons. intros [[-> Hh]|H]; [left|right; auto].
  split; [done|]. by destruct s.
Qed.

Lemma hasPair_junction (x y : ascii) (a b : jsstr) :
  hasPair x y (a ++ x :: y :: b) = true.
Proof. apply hasPair_app_r. apply hasPair_cons. by left. Qed.

(** A pair in a concatenation lies in one of the parts or across the
    joint. *)
Lemma hasPair_app (x y : ascii) (s t : jsstr) :
  hasPair x y (s ++ t) = true →
  hasPair x y s = true ∨ hasPair x y t = true
  ∨ (last s = Some x ∧ head t = Some y).
Proof.
  induction s as [|c s IH]; [by right; left|]. cbn [app].
  rewrite !hasPair_cons. intros [[-> Hh]|H].
  - destruct s as [|d s]; [by right; right|]. left. by left.
  - destruct (IH H) as [?|[?|[Hl ?]]]; [by left; right|by right; left|].
    right. right. split; [|done]. by destruct s.
Qed.

Lemma replaceAll_go_skip (p : jsstr) (k : nat) (s : jsstr) :
  replaceAll_go p [] k s = replaceAll_go p [] 0 (drop k s).
Proof.
  revert k. induction s as [|c s IH]; intros [|k]; try done.
  cbn [replaceAll_go drop]. apply IH.
Qed.

Lemma replaceAll_match (p rest : jsstr) :
  p ≠ [] → replaceAll (p ++ rest) p [] = replaceAll rest p [].
Proof.
  intros Hp. unfold replaceAll. destruct p as [|c p]; [done|].
  cbn [app replaceAll_go].
  change (c :: p ++ rest) with ((c :: p) ++ rest).
  rewrite startsWith_app. cbn [app].
  rewrite replaceAll_go_skip.
  replace (length (c :: p) - 1) with (length p) by (simpl; lia).
  by rewrite drop_app_length.
Qed.

Lemma replaceAll_keep (p : jsstr) (c : ascii) (s : jsstr) :
  startsWith (c :: s) p = false →
  replaceAll (c :: s) p [] = c :: replaceAll s p [].
Proof. intros H. unfold replaceAll. cbn [replaceAll_go]. by rewrite H. Qed.

(** The cases of a removal, by the length of the text. *)
Lemma replaceAll_ind (p : jsstr) (Hp : p ≠ []) (Q : jsstr → Prop) :
  Q [] →
  (∀ rest, Q rest → Q (p ++ rest)) →
  (∀ c s, startsWith (c :: s) p = false → Q s → Q (c :: s)) →
  ∀ s, Q s.
Proof.
  intros Hnil Hmatch Hkeep s.
  assert (∀ n s, length s ≤ n → Q s) as Hgen; [|by apply (Hgen (length s))].
  clear s. induction n as [|n IH]; intros s Hn.
  - destruct s; [done|simpl in Hn; lia].
  - destruct s as [|c s]; [done|].
    destruct (startsWith (c :: s) p) eqn:E.
    + apply startsWith_inv in E as [rest E]. rewrite E. apply Hmatch, IH.
      rewrite E, length_app in Hn. destruct p; [done|]. simpl in *. lia.
    + apply Hkeep; [done|]. apply IH. simpl in Hn. lia.
Qed.

Section Removal.
Variables (p0 pl : ascii) (p : jsstr).
Hypothesis p_head : head p = Some p0.
Hypothesis p_last : last p = Some pl.

Lemma p_nonempty : p ≠ [].
Proof using Type*. by destruct p. Qed.

Lemma p_shape_head : ∃ t, p = p0 :: t.
Proof using Type*. destruct p as [|c t]; [done|]. simplify_eq/=. by eexists. Qed.

Lemma p_shape_last : ∃ t, p = t ++ [pl].
Proof using Type*.
  destruct p as [|c t] using rev_ind; [done|].
  rewrite last_snoc in p_last. simplify_eq. by eexists.
Qed.

(** What stands first after a removal stood first before, or followed the
    end of a match that stood first. *)
Lemma replaceAll_head (y : ascii) (s : jsstr) :
  head (replaceAll s p []) = Some y →
  head s = Some y ∨ (head s = Some p0 ∧ hasPair pl y s = true).
Proof using Type*.
  pose proof p_nonempty as Hp.
  induction s as [|rest IH|c s Hno _] using (replaceAll_ind p Hp); [done| |].
  - rewrite replaceAll_match by done. intros Hy. right.
    destruct p_shape_head as [t Ht]. destruct p_shape_last as [u Hu].
    split; [by rewrite Ht|].
    destruct (IH Hy) as [Hh|[_ Hpair]]; [|by apply hasPair_app_r].
    destruct rest as [|r rest]; [done|]. cbn [head] in Hh.
    injection Hh as ->. rewrite Hu, <- app_assoc. apply hasPair_junction.
  - rewrite replaceAll_keep by done. intros [= <-]. by left.
Qed.

(** A pair after a removal was a pair before, or came together when the
    matches between its two characters went. *)
Lemma replaceAll_pair (x y : ascii) (s : jsstr) :
  hasPair x y (replaceAll s p []) = true →
  hasPair x y s = true
  ∨ (hasPair x p0 s = true ∧ hasPair pl y s = true).
Proof using Type*.
  pose proof p_nonempty as Hp.
  induction s as [|rest IH|c s Hno IH] using (replaceAll_ind p Hp); [done| |].
  - rewrite replaceAll_match by done. intros H.
    destruct (IH H) as [?|[? ?]]; [left|right; split]; by apply hasPair_app_r.
  - rewrite replaceAll_keep by done.
    rewrite hasPair_cons. intros [[-> Hh]|H].
    + apply replaceAll_head in Hh as [Hh|[Hh Hpair]].
      * left. apply hasPair_cons. by left.
      * right. split; apply hasPair_cons; [by left|by right].
    + destruct (IH H) as [?|[? ?]]; [left|right; split];
        apply hasPair_cons; by right.
Qed.

End Removal.

(** After the removal of a pattern of two characters the pattern is there
    again only where its first character stood twice in a row, and its
    second one too. *)
Lemma replaceAll_pair_again (a b : ascii) (s : jsstr) :
  hasPair a b (replaceAll s [a; b] []) = true →
  hasPair a a s = true ∧ hasPair b b s = true.
Proof.
  assert (Hp : [a; b] ≠ []) by done.
  induction s as [|rest IH|c s Hno IH] using (replaceAll_ind [a; b] Hp);
    [done| |].
  - rewrite replaceAll_match by done. intros H.
    destruct (IH H). split; by apply (hasPair_app_r _ _ [a; b]).
  - rewrite replaceAll_keep by done.
    rewrite hasPair_cons. intros [[-> Hh]|H].
    + apply (replaceAll_head a b [a; b]) in Hh as [Hh|[Hh Hpair]]; [| |done..].
      * exfalso. destruct s as [|d s]; [done|]. cbn [head] in Hh.
        injection Hh as ->. cbn [startsWith] in Hno.
        by rewrite !Ascii.eqb_refl in Hno.
      * split; apply hasPair_cons; [by left|by right].
    + destruct (IH H). split; apply hasPair_cons; by right.
Qed.

Lemma endsWith_pair (x y : ascii) (s : jsstr) :
  endsWith s [x; y] = true → hasPair x y s = true.
Proof.
  intros [r ->]%endsWith_iff. rewrite <- (app_nil_r (r ++ [x; y])).
  rewrite <- app_assoc. apply hasPair_junction.
Qed.

(** A marker appended to a text that holds none and does not end in its
    first character is found at the end. *)
Lemma indexOf_appended (x y : ascii) (s : jsstr) :
  hasPair x y s = false → last s ≠ Some x →
  indexOf (s ++ [x; y]) [x; y] = Some (length s).
Proof.
  induction s as [|c s IH]; intros Hno Hlast.
  - simpl. by rewrite !Ascii.eqb_refl.
  - cbn [app indexOf].
    assert (Hs : hasPair x y s = false).
    { destruct (hasPair x y s) eqn:E; [|done].
      rewrite <- Hno. symmetry. apply hasPair_cons. by right. }
    assert (Hhere : startsWith (c :: s ++ [x; y]) [x; y] = false).
    { cbn [startsWith]. destruct (Ascii.eqb_spec x c) as [<-|]; [|done].
      destruct s as [|d s]; cbn [app].
      - by exfalso.
      - destruct (Ascii.eqb_spec y d) as [<-|]; [|done].
        exfalso. simpl in Hno. by rewrite !Ascii.eqb_refl in Hno. }
    rewrite Hhere, IH; [done|done|].
    destruct s as [|d s]; [done|]. by rewrite last_cons_cons in Hlast.
Qed.

Lemma sanitize_closed (docString : jsstr) :
  hasPair "/" "/" docString = false →
  closedAtEnd (sanitizeDocString docString).
Proof.
  intros Hno. unfold sanitizeDocString.
  set (r1 := replaceAll docString (js "/*") []).
  set (r2 := replaceAll r1 (js "**/") []).
  set (body := replaceAll r2 (js "*/") []).
  assert (H1 : hasPair "/" "/" r1 = false).
  { destruct (hasPair "/" "/" r1) eqn:E; [|done].
    apply (replaceAll_pair "/" "*" (js "/*")) in E as [E|[E _]]; [| |done..];
      congruence. }
  assert (H2 : hasPair "/" "/" r2 = false).
  { destruct (hasPair "/" "/" r2) eqn:E; [|done].
    apply (replaceAll_pair "*" "/" (js "**/")) in E as [E|[_ E]]; [| |done..];
      congruence. }
  assert (Hbody : hasPair "*" "/" body = false).
  { destruct (hasPair "*" "/" body) eqn:E; [|done].
    apply (replaceAll_pair_again "*" "/") in E as [_ E]. congruence. }
  set (opened := if negb (startsWith body (js "/**")) then _ else body).
  assert (Hopened : hasPair "*" "/" opened = false).
  { subst opened. destruct (startsWith body (js "/**")); cbn [negb]; [done|].
    destruct (hasPair "*" "/" (_ ++ _)) eqn:E; [|done]. exfalso.
    destruct (startsWith body (js "*"));
      repeat (apply hasPair_app in E as [E|[E|[E1 E2]]]; try done);
      congruence. }
  assert (Hend : endsWith opened (js "*/") = false).
  { destruct (endsWith opened (js "*/")) eqn:E; [|done].
    apply (endsWith_pair "*" "/") in E. congruence. }
  rewrite Hend. cbn [negb]. unfold closedAtEnd.
  change (nl :: js " */") with ([nl; " "%char] ++ ["*"%char; "/"%char]).
  rewrite app_assoc.
  rewrite (indexOf_appended "*" "/").
  - f_equal. rewrite !length_app. simpl. lia.
  - destruct (hasPair "*" "/" (opened ++ [nl; " "%char])) eqn:E; [|done].
    apply hasPair_app in E as [E|[E|[_ E]]]; [congruence|done|done].
  - change [nl; " "%char] with ([nl] ++ [" "%char]).
    by rewrite app_assoc, last_snoc.
Qed.

(** X6: a documentation text without two slashes in a row comes out of the
    sanitizer as a block whose only close marker is the one at its end. *)
Theorem sanitizeDocString_closed (docString : jsstr) :
  hasPair "/" "/" docString = false →
  closedAtEnd (sanitizeDocString docString).
Proof. apply sanitize_closed. Qed.

End SanitizerPairs.

(** ** What a pass changes, and when it writes *)

Section PatchInvariants.
Import JS Updater.

Lemma processComponents_modified u docs (l : list Component) (st : LoopState) :
  (modified st = true ↔ 0 < success st) →
  let st' := foldl (processComponent u docs) st l in
  (modified st' = true ↔ 0 < success st')
  ∧ (modified st' = false → content st' = content st).
Proof.
  revert st. induction l as [|c l IH]; intros st Hst; cbn zeta; cbn [foldl].
  - done.
  - destruct (processComponent_cases u docs st c) as [E|[E|[newContent E]]];
      rewrite E.
    + apply (IH (countSkipped st)), Hst.
    + apply (IH (countFailed st)), Hst.
    + destruct (IH (countSuccess newContent st)) as [Hiff Hsame].
      { simpl. split; [lia|done]. }
      split; [done|]. intros Hm. exfalso.
      assert (Hle : ∀ l st, success st ≤ success (foldl (processComponent u docs) st l)).
      { clear. induction l as [|c l IH]; intros st; [done|]. cbn [foldl].
        etrans; [|apply IH].
        destruct (processComponent_cases u docs st c) as [->|[->|[? ->]]];
          simpl; lia. }
      specialize (Hle l (countSuccess newContent st)). simpl in Hle.
      destruct Hiff as [_ Hiff]. rewrite Hiff in Hm by lia. done.
Qed.

(** X7: a pass marks the buffer as modified exactly when it applied at
    least one documentation text, and an unmodified buffer is the text
    that was read. *)
Theorem patchFile_modified originalContent components docs u :
  let st := patchFile originalContent components docs u in
  (modified st = true ↔ 0 < success st)
  ∧ (modified st = false → content st = originalContent).
Proof.
  cbn zeta. rewrite patchFile_eq.
  apply (processComponents_modified u docs _
           {| content := originalContent; modified := false;
              success := 0; failed := 0; skippedCount := 0 |}).
  simpl. split; [done|lia].
Qed.

Lemma processComponent_inserts docs st c :
  content st `sublist_of` content (processComponent false docs st c).
Proof.
  unfold processComponent.
  destruct (usableDocString _) as [doc|]; [|done].
  destruct (findComponentPosition _ _) as [pos|]; [|done].
  destruct (findExistingDocString _ _); [done|].
  cbn [countSuccess content]. rewrite !substring_0. unfold substringFrom.
  set (insertPos := match lastIndexOf _ _ with None => 0 | Some k => k + 1 end).
  rewrite <- (take_drop insertPos (content st)) at 1.
  apply sublist_app; [done|]. rewrite app_assoc. by apply sublist_inserts_l.
Qed.

(** X8: without the option to update existing blocks a pass only inserts:
    the text read is left, character by character and in order, in the
    text it produces. *)
Theorem patchFile_only_inserts originalContent components docs :
  originalContent
    `sublist_of` content (patchFile originalContent components docs false).
Proof.
  rewrite patchFile_eq.
  generalize (sort byStartDescending components). intros l.
  set (st := {| content := originalContent |}).
  change originalContent with (content st) at 1.
  generalize st. clear st. induction l as [|c l IH]; intros st; [done|].
  cbn [foldl]. etrans; [apply processComponent_inserts|apply IH].
Qed.

Lemma indexOf_occurs (s p : jsstr) (i : nat) :
  indexOf s p = Some i → ∃ a b, s = a ++ p ++ b ∧ length a = i.
Proof.
  revert i. induction s as [|c s IH]; intros i; simpl.
  - destruct (startsWith [] p) eqn:E; [|done]. intros [= <-].
    apply startsWith_inv in E as [r E]. by exists [], r.
  - destruct (startsWith (c :: s) p) eqn:E.
    + intros [= <-]. apply startsWith_inv in E as [r E]. by exists [], r.
    + destruct (indexOf s p) as [j|]; [|done]. simpl. intros [= <-].
      destruct (IH j eq_refl) as (a & b & -> & <-). by exists (c :: a), b.
Qed.

Lemma indexOf_first (a p b : jsstr) :
  ∃ i, indexOf (a ++ p ++ b) p = Some i ∧ i ≤ length a.
Proof.
  induction a as [|c a (i & IH & Hi)].
  - exists 0. split; [|done]. cbn [app].
    pose proof (startsWith_app p b) as E.
    destruct (p ++ b); simpl; by rewrite E.
  - cbn [app indexOf]. destruct (startsWith (c :: a ++ p ++ b) p).
    + exists 0. split; [done|lia].
    + exists (S i). rewrite IH. split; [done|simpl; lia].
Qed.

Lemma firstLine_prefix (s : jsstr) : ∃ r, s = firstLine s ++ r.
Proof.
  induction s as [|c s [r IH]]; [by exists []|]. simpl.
  destruct (Ascii.eqb c nl); [by exists (c :: s)|].
  exists r. by rewrite IH at 1.
Qed.

(** X9: what [findComponentPosition] returns: the signature stands between
    [signatureStart] and [signatureEnd], [start] is where its line begins,
    and no line feed lies between [start] and [signatureEnd]. *)
Theorem findComponentPosition_line content component position :
  findComponentPosition content component = Some position →
  start position ≤ signatureStart position
  ∧ signatureEnd position
    = signatureStart position + length (getComponentSignature component)
  ∧ signatureEnd position ≤ length content
  ∧ substring content (signatureStart position) (signatureEnd position)
    = getComponentSignature component
  ∧ lineBoundary (take (start position) content)
  ∧ nl ∉ substring content (start position) (signatureEnd position).
Proof.
  rewrite findComponentPosition_eq.
  destruct (indexOf content _) as [i|] eqn:Ei; [|done].
  cbn [fmap option_fmap option_map]. intros [= <-]. cbn [start signatureStart signatureEnd].
  pose proof (indexOf_bound _ _ _ Ei) as Hb.
  destruct (indexOf_occurs _ _ _ Ei) as (a & b & Hc & Ha).
  destruct (lineStartOf_take content i) as (P & M & Ht & HP & HM & Hls & HtP).
  assert (HiP : i = length P + length M).
  { apply (f_equal length) in Ht. rewrite length_take, length_app in Ht. lia. }
  assert (Hsub : ∀ k, k ≤ i →
            substring content k (i + length (getComponentSignature component))
            = drop k a ++ getComponentSignature component).
  { intros k Hk. unfold substring.
    rewrite Nat.max_r, Nat.min_l by lia. rewrite Hc.
    rewrite drop_app_le by lia.
    rewrite take_app_ge by (rewrite length_drop; lia).
    rewrite length_drop.
    replace (_ - _ - _) with (length (getComponentSignature component)) by lia.
    by rewrite take_app_length. }
  split_and!; [lia|done|done| | |].
  - rewrite (Hsub i) by done. by rewrite <- Ha, drop_all.
  - by rewrite Hls, HtP.
  - rewrite Hls, Hsub by lia. rewrite elem_of_app. intros [Hin|Hin].
    + apply HM. assert (Hta : take i content = a).
      { by rewrite Hc, <- Ha, take_app_length. }
      rewrite Hta in Ht. rewrite Ht, drop_app_length in Hin. done.
    + by apply signature_no_nl in Hin.
Qed.

Lemma signature_found text component (a b : nat) :
  code component = substring text a b →
  ∃ position,
    findComponentPosition text component = Some position
    ∧ signatureEnd position
      ≤ Nat.min a b + length (firstLine (code component)).
Proof.
  intros Hcode. rewrite findComponentPosition_eq.
  destruct (firstLine_prefix (code component)) as [r Hr].
  destruct (trim_split (firstLine (code component))) as (V & W & HL & _ & _).
  fold (getComponentSignature component) in HL.
  set (sig := getComponentSignature component) in *.
  unfold substring in Hcode.
  set (lo := Nat.min a b) in *. set (n := Nat.max a b - lo) in *.
  assert (Htext : text = (take lo text ++ V) ++ sig
                         ++ (W ++ r ++ drop n (drop lo text))).
  { rewrite <- (take_drop lo text) at 1.
    rewrite <- (take_drop n (drop lo text)) at 1. rewrite <- Hcode.
    rewrite Hr at 1. rewrite HL at 1. by rewrite <- !app_assoc. }
  destruct (indexOf_first (take lo text ++ V) sig
              (W ++ r ++ drop n (drop lo text))) as (i & Ei & Hi).
  rewrite <- Htext in Ei. rewrite Ei. eexists. split; [done|].
  cbn [signatureEnd]. rewrite length_app, length_take in Hi.
  apply (f_equal length) in HL. rewrite !length_app in HL. lia.
Qed.

(** X10: in the text a component was cut from, its signature is found, at
    the latest inside the first line of its code: the first look for a
    component in the text it was located in does not fail. *)
Theorem findComponentPosition_original text component :
  startPos component ≤ endPos component →
  code component = substring text (startPos component) (endPos component) →
  ∃ position,
    findComponentPosition text component = Some position
    ∧ signatureEnd position
      ≤ startPos component + length (firstLine (code component)).
Proof.
  intros Hle Hcode.
  destruct (signature_found _ _ _ _ Hcode) as (position & Hpos & Hend).
  exists position. split; [done|]. lia.
Qed.

End PatchInvariants.

(** ** The totals over all files *)

Section Totals.
Import JS Updater.

Context {FS : Type}.
Variable readFile : jsstr → FS → option jsstr.
Variable writeFile : jsstr → jsstr → FS → FS * bool.

Lemma updateFile_bound filePath components docStrings options fs :
  let r :=
    (updateFileWithDocStrings readFile writeFile filePath components
       docStrings options fs).1 in
  resultSuccess r + resultFailed r ≤ length components.
Proof.
  cbn zeta. unfold updateFileWithDocStrings.
  destruct (isDryRun options); [simpl; lia|].
  destruct (readFile filePath fs) as [B|]; [|simpl; lia].
  pose proof (patchFile_counts B components docStrings (updateExisting options))
    as Hsum. cbn zeta in Hsum.
  destruct (modified _); [|simpl; lia].
  destruct (writeFile _ _ _) as [fs' []]; simpl; lia.
Qed.

Lemma updateFilesStep_eq docStrings options results fs filePath components :
  let fr :=
    updateFileWithDocStrings readFile writeFile filePath components
      docStrings options fs in
  updateFilesStep readFile writeFile docStrings options (results, fs)
    (filePath, components)
  = ({| totalSuccess := totalSuccess results + resultSuccess fr.1;
        totalSkipped :=
          totalSkipped results
          + length (List.filter (markedSkipped docStrings) components);
        totalFailed := totalFailed results + resultFailed fr.1;
        filesProcessed := filesProcessed results + 1;
        filesModified :=
          if resultModified fr.1 then filesModified results + 1
          else filesModified results |}, fr.2).
Proof.
  cbn zeta. unfold updateFilesStep.
  by destruct (updateFileWithDocStrings _ _ _ _ _ _ _).
Qed.

Lemma updateFiles_fold docStrings options
    (l : list (jsstr * list Component)) (acc : Results * FS) :
  let r := (foldl (updateFilesStep readFile writeFile docStrings options)
              acc l).1 in
  filesProcessed r = filesProcessed acc.1 + length l
  ∧ filesModified acc.1 ≤ filesModified r
  ∧ filesModified r ≤ filesModified acc.1 + length l
  ∧ totalSuccess r + totalFailed r
    ≤ totalSuccess acc.1 + totalFailed acc.1 + totalComponents l
  ∧ totalSkipped r
    = totalSkipped acc.1
      + length (List.filter (markedSkipped docStrings) (concat (map snd l))).
Proof.
  revert acc. induction l as [|[filePath components] l IH]; intros [results fs];
    cbn zeta; cbn [foldl].
  - unfold totalComponents. simpl. lia.
  - rewrite updateFilesStep_eq.
    pose proof (updateFile_bound filePath components docStrings options fs)
      as Hb. cbn zeta in Hb.
    destruct (updateFileWithDocStrings _ _ _ _ _ _ _) as [fileResult fs'].
    match goal with
    | |- context [foldl ?f ?a l] =>
        specialize (IH a); cbn zeta in IH; set (r := (foldl f a l).1) in *
    end.
    destruct IH as (H1 & H2 & H3 & H4 & H5).
    unfold totalComponents in *. cbn [map concat snd fst] in *.
    rewrite List.filter_app, !length_app.
    cbn [fst filesProcessed filesModified totalSuccess totalFailed
         totalSkipped length] in *.
    destruct (resultModified fileResult); lia.
Qed.

(** X11: the totals of [updateFilesWithDocStrings]: every file is counted
    as processed, at most that many as modified; successes and failures
    together do not exceed the number of components; and the skip total
    counts the components whose generated entry is marked as skipped,
    whatever the patcher did with them. *)
Theorem updateFiles_totals componentsByFile docStrings projectDir options fs :
  let results :=
    (updateFilesWithDocStrings readFile writeFile componentsByFile docStrings
       projectDir options fs).1 in
  filesProcessed results = length componentsByFile
  ∧ filesModified results ≤ filesProcessed results
  ∧ totalSuccess results + totalFailed results
    ≤ totalComponents componentsByFile
  ∧ totalSkipped results
    = length (List.filter (markedSkipped docStrings)
                (concat (map snd componentsByFile))).
Proof.
  cbn zeta. unfold updateFilesWithDocStrings.
  destruct (updateFiles_fold docStrings options componentsByFile
              ({| totalSuccess := 0; totalSkipped := 0; totalFailed := 0;
                  filesProcessed := 0; filesModified := 0 |}, fs))
    as (H1 & _ & H3 & H4 & H5).
  simpl in *. split_and!; [done|lia|done|done].
Qed.

Lemma updateFiles_dry_fold docStrings u
    (l : list (jsstr * list Component)) (results : Results) (fs : FS) :
  foldl (updateFilesStep readFile writeFile docStrings
           {| isDryRun := true; updateExisting := u |}) (results, fs) l
  = ({| totalSuccess := totalSuccess results + totalComponents l;
        totalSkipped :=
          totalSkipped results
          + length (List.filter (markedSkipped docStrings)
                      (concat (map snd l)));
        totalFailed := totalFailed results;
        filesProcessed := filesProcessed results + length l;
        filesModified := filesModified results |}, fs).
Proof.
  revert results. induction l as [|[filePath components] l IH]; intros results.
  - unfold totalComponents. destruct results. simpl. f_equal. f_equal; lia.
  - cbn [foldl]. rewrite updateFilesStep_eq.
    unfold updateFileWithDocStrings. cbn [isDryRun]. rewrite IH.
    unfold totalComponents. cbn [map concat snd].
    rewrite List.filter_app, !length_app. simpl. f_equal. f_equal; lia.
Qed.

(** X12: a dry run over all files touches no file and reports every
    component as a success, and on top of that counts as skipped the ones
    whose generated entry is marked as skipped. *)
Theorem updateFiles_dry_run componentsByFile docStrings projectDir u fs :
  updateFilesWithDocStrings readFile writeFile componentsByFile docStrings
    projectDir {| isDryRun := true; updateExisting := u |} fs
  = ({| totalSuccess := totalComponents componentsByFile;
        totalSkipped :=
          length (List.filter (markedSkipped docStrings)
                    (concat (map snd componentsByFile)));
        totalFailed := 0;
        filesProcessed := length componentsByFile;
        filesModified := 0 |}, fs).
Proof. unfold updateFilesWithDocStrings. by rewrite updateFiles_dry_fold. Qed.

(** X13: a file is reported as modified only if it was read, at least one
    documentation text was applied to it, and the write of the new text
    went through. *)
Theorem updateFile_modified_written filePath components docStrings options fs :
  let r :=
    updateFileWithDocStrings readFile writeFile filePath components
      docStrings options fs in
  resultModified r.1 = true →
  isDryRun options = false
  ∧ ∃ originalContent,
      readFile filePath fs = Some originalContent
      ∧ let st := patchFile originalContent components docStrings
                    (updateExisting options) in
        0 < success st
        ∧ writeFile filePath (content st) fs = (r.2, true).
Proof.
  cbn zeta. unfold updateFileWithDocStrings.
  destruct (isDryRun options); [done|].
  destruct (readFile filePath fs) as [B|]; [|done].
  destruct (processComponents_modified (updateExisting options) docStrings
              (sort byStartDescending components)
              {| content := B; modified := false;
                 success := 0; failed := 0; skippedCount := 0 |})
    as [Hiff _]; [simpl; split; [done|lia]|].
  rewrite <- patchFile_eq in Hiff.
  destruct (modified _) eqn:Em.
  - destruct (writeFile _ _ _) as [fs' []] eqn:Ew; [|done].
    intros _. split; [done|]. exists B. split; [done|]. cbn zeta.
    split; [by apply Hiff|done].
  - by cbn [fst resultModified].
Qed.

(** X14: a run in which no component has a usable documentation text
    leaves the file system as it was. *)
Theorem updateFile_nothing_to_apply filePath components docStrings options fs :
  (∀ c, c ∈ components → documentationFor docStrings c = None) →
  let r :=
    updateFileWithDocStrings readFile writeFile filePath components
      docStrings options fs in
  r.2 = fs ∧ resultModified r.1 = false
  ∧ (isDryRun options = false → resultSuccess r.1 = 0).
Proof.
  intros Hnone. cbn zeta. unfold updateFileWithDocStrings.
  destruct (isDryRun options); [done|].
  destruct (readFile filePath fs) as [B|]; [|done].
  assert (Hst : ∀ l st, (∀ c, c ∈ l → documentationFor docStrings c = None) →
            modified (foldl (processComponent (updateExisting options)
                               docStrings) st l) = modified st
            ∧ success (foldl (processComponent (updateExisting options)
                                docStrings) st l) = success st).
  { clear. induction l as [|c l IH]; intros st Hl; [done|]. cbn [foldl].
    assert (E : processComponent (updateExisting options) docStrings st c
                = countSkipped st).
    { unfold processComponent. pose proof (Hl c ltac:(left)) as Hc.
      unfold documentationFor in Hc. by rewrite Hc. }
    rewrite E. apply (IH (countSkipped st)). intros c' Hc'. apply Hl. by right. }
  rewrite patchFile_eq.
  edestruct Hst as [Hm Hs].
  { intros c Hc. apply Hnone. by apply sort_elem in Hc. }
  rewrite Hm, Hs. done.
Qed.

End Totals.

(** ** The generated entries *)

Section Generated.
Import JS Generator Batch.

Context {Client : Type}.
Variable generateDocStringWithOpenAI :
  Client → jsstr → jsstr → Location → jsstr → jsstr → option jsstr.

Implicit Types (client : option Client) (options : Batch.Options).

Lemma sanitize_docForm (docString : jsstr) :
  docForm (sanitizeDocString docString).
Proof.
  unfold docForm, sanitizeDocString.
  set (body := replaceAll (replaceAll (replaceAll docString _ _) _ _) _ _).
  set (opened := if negb (startsWith body (js "/**")) then _ else body).
  assert (Hopen : startsWith opened (js "/**") = true).
  { subst opened. destruct (startsWith body (js "/**")) eqn:E; cbn [negb];
      [done|]. apply (startsWith_app (js "/**")). }
  destruct (endsWith opened (js "*/")) eqn:E; cbn [negb]; [done|]. split.
  - by apply startsWith_app_l.
  - change (nl :: js " */") with ([nl; " "%char] ++ js "*/").
    rewrite app_assoc. apply endsWith_app.
Qed.

Lemma batchEntry_id client options c :
  (batchEntry generateDocStringWithOpenAI client options c).1 = uniqueId c.
Proof. unfold Batch.batchEntry. by destruct (_ && _). Qed.

(** An entry is either a skip without a text, for a documented component
    under [skipExisting], or a sanitized text. *)
Lemma batchEntry_form client options c :
  let r := (batchEntry generateDocStringWithOpenAI client options c).2 in
  error r = None
  ∧ ((skipped r = true ∧ docstring r = None
      ∧ skipExisting options = true ∧ is_Some (existingComment c))
     ∨ (skipped r = false
        ∧ ∃ d, docstring r = Some (sanitizeDocString d))).
Proof.
  cbn zeta. unfold Batch.batchEntry.
  destruct (skipExisting options); cbn [andb].
  - destruct (existingComment c) as [[|x e]|]; cbn [snd error skipped docstring];
      (split; [done|]); [right|left|right]; eauto.
  - cbn [snd error skipped docstring]. split; [done|]. right. eauto.
Qed.

Lemma processBatch_fold (l : list Component) client options
    (m : gmap jsstr DocStringResult) :
  foldl (λ results component,
           let '(id, entry) :=
             batchEntry generateDocStringWithOpenAI client options component in
           <[id := entry]> results) m l
  = processBatch generateDocStringWithOpenAI l client options ∪ m.
Proof.
  unfold Batch.processBatch. revert m.
  induction l as [|c l IH]; intros m; cbn [foldl].
  - by rewrite (left_id_L ∅ (∪)).
  - destruct (batchEntry generateDocStringWithOpenAI client options c)
      as [id entry].
    rewrite IH, (IH (<[id:=entry]> ∅)).
    rewrite insert_empty, insert_union_singleton_l.
    by rewrite (assoc_L (∪)).
Qed.

Lemma processBatch_app (l1 l2 : list Component) client options :
  processBatch generateDocStringWithOpenAI (l1 ++ l2) client options
  = processBatch generateDocStringWithOpenAI l2 client options
    ∪ processBatch generateDocStringWithOpenAI l1 client options.
Proof.
  unfold Batch.processBatch at 1. rewrite foldl_app.
  apply processBatch_fold.
Qed.

Lemma processBatch_one c client options :
  processBatch generateDocStringWithOpenAI [c] client options
  = {[ uniqueId c :=
         (batchEntry generateDocStringWithOpenAI client options c).2 ]}.
Proof.
  unfold Batch.processBatch. cbn [foldl].
  pose proof (batchEntry_id client options c) as Hid.
  destruct (batchEntry generateDocStringWithOpenAI client options c)
    as [id entry]. simpl in *.
  by rewrite insert_empty, Hid.
Qed.

Lemma processBatch_lookup (batch : list Component) client options id r :
  processBatch generateDocStringWithOpenAI batch client options !! id = Some r →
  ∃ before c after,
    batch = before ++ c :: after
    ∧ uniqueId c = id
    ∧ r = (batchEntry generateDocStringWithOpenAI client options c).2
    ∧ ∀ c', c' ∈ after → uniqueId c' ≠ id.
Proof.
  revert r. induction batch as [|c batch IH] using rev_ind; intros r.
  - intros H. unfold Batch.processBatch in H. by simpl in H.
  - rewrite processBatch_app, processBatch_one.
    intros [H|[Hnone H]]%lookup_union_Some_raw.
    + apply lookup_singleton_Some in H as [<- <-].
      exists batch, c, []. split_and!; [done..|].
      by intros c' Hc'; apply elem_of_nil in Hc'.
    + apply lookup_singleton_None in Hnone.
      destruct (IH r H) as (before & c0 & after & -> & Hid & Hr & Hlast).
      exists before, c0, (after ++ [c]). split_and!; [|done..|].
      * by rewrite <- app_assoc.
      * intros c' [Hc'|Hc']%elem_of_app; [by apply Hlast|].
        by apply list_elem_of_singleton in Hc' as ->.
Qed.

(** X15: the object [processBatch] returns has an entry for every
    component of the batch, under its id, and no other entry; an entry is
    the one of the last component of the batch with that id. *)
Theorem processBatch_entries (batch : list Component) client options :
  (∀ c, c ∈ batch →
     is_Some (processBatch generateDocStringWithOpenAI batch client options
                !! uniqueId c))
  ∧ (∀ id r,
       processBatch generateDocStringWithOpenAI batch client options !! id
       = Some r →
       ∃ before c after,
         batch = before ++ c :: after
         ∧ uniqueId c = id
         ∧ r = (batchEntry generateDocStringWithOpenAI client options c).2
         ∧ ∀ c', c' ∈ after → uniqueId c' ≠ id).
Proof.
  split; [|apply processBatch_lookup].
  induction batch as [|c batch IH] using rev_ind.
  - by intros c Hc; apply elem_of_nil in Hc.
  - rewrite processBatch_app, processBatch_one.
    intros c' [Hc'|Hc']%elem_of_app.
    + destruct (IH c' Hc') as [r Hr].
      destruct (decide (uniqueId c = uniqueId c')) as [E|N].
      * rewrite <- E. eexists. apply lookup_union_Some_raw. left.
        apply lookup_singleton_eq.
      * exists r. apply lookup_union_Some_raw. right.
        by rewrite lookup_singleton_ne.
    + apply list_elem_of_singleton in Hc' as ->.
      eexists. apply lookup_union_Some_raw. left. apply lookup_singleton_eq.
Qed.

(** X16: whatever the generation call returned, a text the patcher would
    apply from the entries of a batch is opened and closed by the markers. *)
Theorem processBatch_docForm (batch : list Component) client options c d :
  documentationFor
    (processBatch generateDocStringWithOpenAI batch client options) c
  = Some d →
  docForm d.
Proof.
  unfold documentationFor, Updater.usableDocString.
  destruct (processBatch generateDocStringWithOpenAI batch client options
              !! uniqueId c) as [r|] eqn:E;
    [|done].
  apply processBatch_lookup in E as (_ & c0 & _ & _ & _ & -> & _).
  destruct (batchEntry_form client options c0) as [_ [(_ & -> & _)|(-> & d0 & ->)]];
    [done|].
  destruct (sanitizeDocString d0) as [|x t] eqn:Ed; [done|].
  intros [= <-]. rewrite <- Ed. apply sanitize_docForm.
Qed.

Lemma slice_batch (all : list Component) (n : nat) (b : Z) :
  n < length all → (0 < b)%Z →
  slice all (Z.of_nat n) (Z.of_nat n + b)
  = take (Z.to_nat b) (drop n all).
Proof.
  intros Hn Hb. unfold slice, sliceIndex.
  destruct (Z.ltb_spec (Z.of_nat n) 0); [lia|].
  destruct (Z.ltb_spec (Z.of_nat n + b) 0); [lia|].
  replace (Z.to_nat (Z.min (Z.of_nat n) (Z.of_nat (length all)))) with n by lia.
  destruct (decide (Z.of_nat n + b <= Z.of_nat (length all))%Z).
  - f_equal. lia.
  - rewrite !take_ge; [done|rewrite length_drop; lia..].
Qed.

Lemma generateLoop_runs (all : list Component) client options (b : Z)
    (fuel n : nat) :
  (0 < b)%Z → length all - n ≤ fuel →
  generateLoop generateDocStringWithOpenAI all client options b fuel
    (Z.of_nat n)
    (processBatch generateDocStringWithOpenAI (take n all) client options)
  = Some (processBatch generateDocStringWithOpenAI all client options).
Proof.
  intros Hb. revert n. induction fuel as [|fuel IH]; intros n Hfuel.
  - cbn [Batch.generateLoop].
    destruct (Z.ltb_spec (Z.of_nat n) (Z.of_nat (length all))); [lia|].
    by rewrite take_ge by lia.
  - cbn [Batch.generateLoop].
    destruct (Z.ltb_spec (Z.of_nat n) (Z.of_nat (length all))).
    + rewrite slice_batch by lia.
      rewrite <- processBatch_app, take_take_drop.
      replace (Z.of_nat n + b)%Z with (Z.of_nat (n + Z.to_nat b)) by lia.
      apply IH. lia.
    + by rewrite take_ge by lia.
Qed.

(** X17: without a client, so that no generation call is made, and with
    a batch size of at least one, the loop of [generateDocStrings] ends
    after at most as many rounds as there are components, and what it
    returns does not depend on the batch size: it is what [processBatch]
    returns for all components at once. *)
Theorem generateDocStrings_result componentsByFile options fuel :
  (0 < effectiveBatchSize options)%Z →
  totalComponents componentsByFile ≤ fuel →
  generateDocStrings generateDocStringWithOpenAI componentsByFile None
    options fuel
  = Some (processBatch generateDocStringWithOpenAI
            (concat (map snd componentsByFile)) None options).
Proof.
  intros Hb Hfuel. unfold Batch.generateDocStrings. cbn zeta.
  apply (generateLoop_runs _ None options _ fuel 0 Hb).
  unfold totalComponents in Hfuel. lia.
Qed.

(** X18: with a batch size of zero or less and at least one component the
    loop never ends: no number of rounds brings a result. *)
Theorem generateDocStrings_no_progress componentsByFile client options fuel :
  (effectiveBatchSize options <= 0)%Z →
  0 < totalComponents componentsByFile →
  generateDocStrings generateDocStringWithOpenAI componentsByFile client
    options fuel
  = None.
Proof.
  intros Hb Hsome. unfold Batch.generateDocStrings. cbn zeta.
  unfold totalComponents in Hsome.
  set (all := concat (map snd componentsByFile)) in *.
  assert (H : ∀ fuel i results, (i <= 0)%Z →
            generateLoop generateDocStringWithOpenAI all client options
              (effectiveBatchSize options)
              fuel i results = None); [|by apply H].
  clear fuel. induction fuel as [|fuel IH]; intros i results Hi;
    cbn [Batch.generateLoop];
    (destruct (Z.ltb_spec i (Z.of_nat (length all))); [|lia]); [done|].
  apply IH. lia.
Qed.

End Generated.

(** ** The ignore patterns *)

Section Ignoring.
Import JS Scanner.

Context {FS : Type}.
Variable join : jsstr → jsstr → jsstr.
Variable relative : jsstr → jsstr → jsstr.
Variable minimatch : jsstr → jsstr → bool.
Variable existsSync : jsstr → FS → bool.
Variable readFile : jsstr → FS → option jsstr.

(** X19: the last pattern that applies to the path decides: a path is
    ignored exactly when some pattern applies to it, and the last one that
    does is not a negated one. *)
Theorem isIgnored_last_pattern filePath ignorePatterns baseDir :
  isIgnored relative minimatch filePath ignorePatterns baseDir = true ↔
  ∃ before pattern after,
    ignorePatterns = before ++ pattern :: after
    ∧ startsWith pattern (js "!") = false
    ∧ minimatch (relative baseDir filePath) pattern = true
    ∧ ∀ p, p ∈ after →
        patternApplies minimatch (relative baseDir filePath) p = false.
Proof.
  unfold isIgnored. cbn zeta. set (rel := relative baseDir filePath).
  induction ignorePatterns as [|q l IH] using rev_ind.
  - split; [done|]. intros (before & p & after & H & _). by destruct before.
  - rewrite foldl_snoc.
    destruct (patternApplies minimatch rel q) eqn:Eq; unfold patternApplies in Eq.
    + destruct (startsWith q (js "!")) eqn:Eneg; rewrite Eq.
      * split; [done|]. intros (before & p & after & H & Hp & Hm & Hafter).
        destruct after as [|a after _] using rev_ind.
        -- apply app_inj_tail in H as [_ <-]. congruence.
        -- rewrite app_comm_cons, app_assoc in H.
           apply app_inj_tail in H as [_ <-].
           specialize (Hafter q). unfold patternApplies in Hafter.
           rewrite Eneg, Eq in Hafter. discriminate Hafter.
           apply elem_of_app. right. by left.
      * split; [|done]. intros _. exists l, q, [].
        split_and!; [done..|]. by intros p Hp; apply elem_of_nil in Hp.
    + assert (Hstep : ∀ b : bool,
                (if startsWith q (js "!")
                 then if minimatch rel (substringFrom q 1) then false else b
                 else if minimatch rel q then true else b) = b).
      { intros b. by destruct (startsWith q (js "!")); rewrite Eq. }
      rewrite Hstep, IH. clear Hstep. split.
      * intros (before & p & after & -> & Hp & Hm & Hafter).
        exists before, p, (after ++ [q]). split_and!; [|done..|].
        -- by rewrite <- app_assoc.
        -- intros p' [Hp'|Hp']%elem_of_app; [by apply Hafter|].
           apply list_elem_of_singleton in Hp' as ->.
           unfold patternApplies. by destruct (startsWith q (js "!")).
      * intros (before & p & after & H & Hp & Hm & Hafter).
        destruct after as [|a after _] using rev_ind.
        -- apply app_inj_tail in H as [_ <-]. by rewrite Hp, Hm in Eq.
        -- rewrite app_comm_cons, app_assoc in H.
           apply app_inj_tail in H as [-> <-].
           exists before, p, after. split_and!; [done..|].
           intros p' Hp'. apply Hafter, elem_of_app. by left.
Qed.

Lemma trimStart_head (s : jsstr) (c : ascii) :
  head (trimStart s) = Some c → isWhiteSpace c = false.
Proof.
  induction s as [|x s IH]; [done|]. simpl.
  destruct (isWhiteSpace x) eqn:E; [done|]. by intros [= <-].
Qed.

Lemma trim_ends (s : jsstr) :
  (∀ c, head (trim s) = Some c → isWhiteSpace c = false)
  ∧ (∀ c, last (trim s) = Some c → isWhiteSpace c = false).
Proof.
  split; [apply trimStart_head|]. intros c Hc. unfold trim in Hc.
  destruct (trimStart_split (trimEnd s)) as (V & HV & _).
  assert (Hlast : last (trimEnd s) = Some c).
  { rewrite HV, last_app. by rewrite Hc. }
  unfold trimEnd in Hlast.
  destruct (trimStart (rev s)) as [|x t] eqn:Et; [done|].
  cbn [rev] in Hlast. rewrite last_snoc in Hlast. injection Hlast as <-.
  apply (trimStart_head (rev s)). by rewrite Et.
Qed.

Lemma splitLines_no_nl (s line : jsstr) : line ∈ splitLines s → nl ∉ line.
Proof.
  revert line. induction s as [|c s IH]; intros line; cbn [splitLines].
  - intros ->%list_elem_of_singleton. apply not_elem_of_nil.
  - destruct (Ascii.eqb_spec c nl) as [_|Hc].
    + intros [->|H]%elem_of_cons; [apply not_elem_of_nil|by apply IH].
    + destruct (splitLines s) as [|l ls].
      * intros ->%list_elem_of_singleton.
        intros E%list_elem_of_singleton. congruence.
      * intros [->|H]%elem_of_cons.
        -- intros [E|Hin]%elem_of_cons; [congruence|].
           revert Hin. apply IH. by left.
        -- apply IH. by right.
Qed.

Lemma collectPatterns_elem (lines : list jsstr) (p : jsstr) :
  p ∈ collectPatterns lines ↔
  ∃ line, line ∈ lines ∧ p = trim line ∧ p ≠ []
          ∧ startsWith p (js "#") = false.
Proof.
  unfold collectPatterns.
  induction lines as [|l lines IH] using rev_ind.
  - split; [by intros H; apply elem_of_nil in H|].
    by intros (line & H & _); apply elem_of_nil in H.
  - rewrite foldl_snoc.
    assert (Hcase : ∀ acc : list jsstr,
              p ∈ match trim l with
                  | [] => acc
                  | _ :: _ => if startsWith (trim l) (js "#") then acc
                              else acc ++ [trim l]
                  end
              ↔ p ∈ acc ∨ (p = trim l ∧ p ≠ []
                           ∧ startsWith p (js "#") = false)).
    { intros acc. destruct (trim l) as [|x t] eqn:Et.
      - split; [by left|]. intros [?|[-> [? _]]]; done.
      - destruct (startsWith (x :: t) (js "#")) eqn:Eh.
        + split; [by left|]. intros [?|[-> [_ ?]]]; [done|congruence].
        + rewrite elem_of_app, list_elem_of_singleton. split.
          * intros [?| ->]; [by left|by right].
          * intros [?|[-> _]]; [by left|by right]. }
    rewrite Hcase, IH. clear Hcase. split.
    + intros [(line & Hin & H)|H].
      * exists line. split; [apply elem_of_app; by left|done].
      * exists l. split; [apply elem_of_app; right; by left|done].
    + intros (line & [Hin|Hin]%elem_of_app & H).
      * left. by exists line.
      * apply list_elem_of_singleton in Hin as ->. by right.
Qed.

(** X20: a pattern [loadGitignore] returns comes from a file that exists
    and was read: it is a line of that file without the white space around
    it, it is not empty, holds no line feed, neither begins nor ends with
    white space and does not begin with the comment sign. *)
Theorem loadGitignore_patterns dir fs pattern :
  pattern ∈ loadGitignore join existsSync readFile dir fs →
  existsSync (join dir (js ".gitignore")) fs = true
  ∧ (∃ content line,
       readFile (join dir (js ".gitignore")) fs = Some content
       ∧ line ∈ splitLines content ∧ pattern = trim line)
  ∧ pattern ≠ [] ∧ (nl ∉ pattern)
  ∧ startsWith pattern (js "#") = false
  ∧ (∃ c, head pattern = Some c ∧ isWhiteSpace c = false)
  ∧ (∃ c, last pattern = Some c ∧ isWhiteSpace c = false).
Proof.
  unfold loadGitignore. cbn zeta.
  destruct (existsSync _ fs); [|by intros H; apply elem_of_nil in H].
  destruct (readFile _ fs) as [content|];
    [|by intros H; apply elem_of_nil in H].
  intros (line & Hin & E & Hne & Hhash)%collectPatterns_elem. subst pattern.
  destruct (trim_ends line) as [Hhead Hlast].
  split_and!; [done|by eauto|done| |done| |].
  - intros Hnl%trim_elem. by apply splitLines_no_nl in Hin.
  - destruct (trim line) as [|c t] eqn:E; [done|]. exists c.
    split; [done|]. by apply Hhead.
  - destruct (last (trim line)) as [c|] eqn:E.
    + exists c. split; [done|]. by apply Hlast.
    + apply last_None in E. done.
Qed.

End Ignoring.

(** ** The indices of an existing block, for the locator and the patcher *)

Section DocOffsets.
Import JS Updater Locator.

Lemma occurrence_split (s p : jsstr) (j : nat) :
  startsWith (drop j s) p = true →
  s = take j s ++ p ++ drop (j + length p) s.
Proof.
  intros [r Hr]%startsWith_inv. rewrite <- (take_drop j s) at 1. f_equal.
  rewrite <- drop_drop, Hr. by rewrite drop_app_length.
Qed.

Lemma occurrence_lookup (s p : jsstr) (j k : nat) (c : ascii) :
  startsWith (drop j s) p = true → p !! k = Some c → s !! (j + k) = Some c.
Proof.
  intros [r Hr]%startsWith_inv Hk. rewrite <- lookup_drop, Hr.
  by apply lookup_app_l_Some.
Qed.

Lemma blank_lookup (V : jsstr) (k : nat) (c : ascii) :
  blank V → V !! k = Some c → isWhiteSpace c = true.
Proof. intros HV Hk. unfold blank in HV. by eapply Forall_lookup_1 in HV. Qed.

(** X22: where the locator reports a comment the patcher finds the same
    block, but gives its bounds as indices into the trimmed text: they are
    the locator's bounds less the length of the white space the text
    begins with. *)
Theorem existing_doc_offset (text : jsstr) (position : nat)
    (r : PrecedingComment) :
  findPrecedingComment text position = Some r →
  ∃ e, findExistingDocString text position = Some e
       ∧ comment r = docContent e
       ∧ let lead := length (take position text)
                     - length (trimStart (take position text)) in
         commentStartIndex r = lead + docStart e
         ∧ commentEndIndex r = lead + docEnd e.
Proof.
  unfold findPrecedingComment, findExistingDocString. rewrite !substring_0.
  set (pre := take position text).
  destruct (lastIndexOf pre (js "*/")) as [e'|] eqn:He; [|done].
  destruct (lastIndexOfFrom pre (js "/**") e') as [j|] eqn:Hj; [|done].
  destruct (trim (substringFrom pre (e' + 2))) eqn:Hbetween; [|done].
  intros [= <-]. cbn [comment commentStartIndex commentEndIndex].
  apply trim_nil_blank in Hbetween. unfold substringFrom in Hbetween.
  set (W := drop (e' + 2) pre) in *.
  unfold lastIndexOf, lastIndexOfFrom in He.
  pose proof (lastIndexOf_go_occurs _ _ _ _ _ _ He) as [|[_ Hoe]]; [done|].
  pose proof (lastIndexOf_go_bound _ _ _ _ _ _ He) as [|[_ Hbe]]; [done|].
  pose proof Hj as Hj'. unfold lastIndexOfFrom in Hj'.
  pose proof (lastIndexOf_go_occurs _ _ _ _ _ _ Hj') as [|[_ Hoj]]; [done|].
  pose proof (lastIndexOf_go_le _ _ _ _ _ _ Hj') as [|Hje]; [done|].
  rewrite Nat.sub_0_r in Hoe, Hoj.
  change (length (js "*/")) with 2 in Hbe. simpl in Hbe.
  clear He Hj'.
  pose proof (occurrence_lookup pre (js "*/") e' 0 "*" Hoe eq_refl) as Hc0.
  pose proof (occurrence_lookup pre (js "*/") e' 1 "/" Hoe eq_refl) as Hc1.
  pose proof (occurrence_lookup pre (js "/**") j 0 "/" Hoj eq_refl) as Hd0.
  pose proof (occurrence_lookup pre (js "/**") j 2 "*" Hoj eq_refl) as Hd2.
  rewrite Nat.add_0_r in Hc0, Hd0.
  assert (Hj2 : j + 2 ≤ e').
  { destruct (decide (j = e')) as [->|]; [congruence|].
    destruct (decide (j + 1 = e')) as [<-|]; [|lia].
    replace (j + 1 + 1) with (j + 2) in Hc1 by lia. congruence. }
  set (Y := take (e' + 2) pre).
  assert (HpreY : pre = Y ++ W) by (subst Y W; by rewrite take_drop).
  assert (HYlen : length Y = e' + 2) by (subst Y; rewrite length_take; lia).
  assert (HYend : Y = take e' pre ++ js "*/").
  { subst Y. rewrite <- take_take_drop. f_equal.
    by apply startsWith_inv in Hoe as [x ->]. }
  assert (HtrimEnd : trimEnd pre = Y).
  { rewrite HpreY at 1. rewrite trimEnd_blank by done. rewrite HYend.
    change (js "*/") with (["*"%char] ++ ["/"%char]).
    rewrite app_assoc. by apply trimEnd_keep. }
  assert (Htrim : trim pre = trimStart Y) by (unfold trim; by rewrite HtrimEnd).
  assert (Hhead : ∀ c, head (trimStart Y) = Some c → isWhiteSpace c = false)
    by apply trimStart_head.
  destruct (trimStart_split Y) as (V & HV & HbV).
  rewrite Htrim. clear Htrim.
  generalize dependent (trimStart Y). intros T Hhead HV.
  assert (HVe : length V ≤ e').
  { destruct (decide (length V ≤ e')); [done|]. exfalso.
    assert (HVc : V !! e' = Some "*"%char).
    { rewrite <- Hc0, HpreY, HV, <- !app_assoc. symmetry.
      apply lookup_app_l. lia. }
    by apply (blank_lookup V) in HVc. }
  assert (HVj : length V ≤ j).
  { destruct (decide (length V ≤ j)); [done|]. exfalso.
    assert (HVc : V !! j = Some "/"%char).
    { rewrite <- Hd0, HpreY, HV, <- !app_assoc. symmetry.
      apply lookup_app_l. lia. }
    by apply (blank_lookup V) in HVc. }
  assert (HT : T = drop (length V) Y) by (by rewrite HV, drop_app_length).
  assert (HTlen : length T = e' + 2 - length V)
    by (rewrite HT, length_drop; lia).
  set (T0 := drop (length V) (take e' pre)).
  assert (HTend : T = T0 ++ js "*/").
  { rewrite HT, HYend, drop_app_le; [done|]. rewrite length_take. lia. }
  assert (HT0len : length T0 = e' - length V).
  { subst T0. rewrite length_drop, length_take. lia. }
  assert (Hends : endsWith T (js "*/") = true)
    by (rewrite HTend; apply endsWith_app).
  rewrite Hends. cbn [negb].
  assert (HlastT : lastIndexOf T (js "*/") = Some (length T0)).
  { pose proof (lastIndexOf_close_marker T0 []) as Hl.
    rewrite app_nil_r in Hl. rewrite HTend. apply Hl. constructor. }
  rewrite HlastT.
  assert (HoT : startsWith (drop (j - length V) T) (js "/**") = true).
  { rewrite HT, drop_drop. replace (length V + (j - length V)) with j by lia.
    subst Y. rewrite skipn_firstn_comm.
    apply startsWith_inv in Hoj as [x ->].
    change (js "/**" ++ x) with ("/"%char :: "*"%char :: "*"%char :: x).
    destruct (e' + 2 - j) as [|[|[|k]]] eqn:Ek; [lia..|]. done. }
  destruct (lastIndexOfFrom_found T (js "/**") (take (j - length V) T)
              (drop (j - length V + length (js "/**")) T) (length T0))
    as (jT & HjT & HjTge).
  { by apply occurrence_split. }
  { rewrite length_take. lia. }
  rewrite HjT.
  pose proof HjT as HjT'. unfold lastIndexOfFrom in HjT'.
  pose proof (lastIndexOf_go_occurs _ _ _ _ _ _ HjT') as [|[_ HojT]]; [done|].
  pose proof (lastIndexOf_go_le _ _ _ _ _ _ HjT') as [|HjTle]; [done|].
  rewrite Nat.sub_0_r in HojT. rewrite length_take in HjTge.
  assert (Hjeq : j = length V + jT).
  { destruct (lastIndexOfFrom_found pre (js "/**") (V ++ take jT T)
                (drop (jT + length (js "/**")) T ++ W) e')
      as (j' & Hj'' & Hge).
    - rewrite HpreY at 1. rewrite HV at 1.
      rewrite (occurrence_split T (js "/**") jT HojT) at 1.
      by rewrite <- !app_assoc.
    - rewrite length_app, length_take. lia.
    - rewrite Hj in Hj''. injection Hj'' as <-.
      rewrite length_app, length_take in Hge. lia. }
  eexists. split; [reflexivity|]. cbn [docStart docEnd docContent]. cbn zeta.
  assert (Hlead : trimStart pre = T ++ W).
  { rewrite HpreY, HV, <- app_assoc, trimStart_blank by done.
    destruct T as [|c T']; [simpl in HTlen; lia|].
    specialize (Hhead c eq_refl). simpl. by rewrite Hhead. }
  rewrite Hlead, HpreY, HV, !length_app. split_and!.
  - unfold substring. rewrite !Nat.max_r, !Nat.min_l by lia.
    rewrite <- HV, <- HpreY.
    rewrite HT, drop_drop. replace (length V + jT) with j by lia.
    replace (length T0 + 2 - jT) with (e' + 2 - j) by lia.
    subst Y. by rewrite skipn_firstn_comm, take_take, Nat.min_id.
  - lia.
  - lia.
Qed.

End DocOffsets.

(** ** A pass that cannot fail *)

Section NoFailure.
Import JS Updater Locator.

Lemma indexOf_insert_some (P R X p : jsstr) :
  lineBoundary P → nl ∉ p →
  is_Some (indexOf (P ++ R) p) → is_Some (indexOf (P ++ X ++ R) p).
Proof.
  assert (Hgrow : ∀ R, is_Some (indexOf R p) → is_Some (indexOf (X ++ R) p)).
  { intros R0 [i Hi]. apply indexOf_occurs in Hi as (a & b & -> & _).
    destruct (indexOf_first (X ++ a) p b) as (k & Hk & _).
    rewrite <- app_assoc in Hk. by exists k. }
  intros [->|[P0 ->]] Hp; [apply Hgrow|].
  rewrite <- !app_assoc. cbn [app]. rewrite !(indexOf_app_nl p P0) by done.
  destruct (indexOf P0 p); [done|].
  intros [j Hj]. destruct (indexOf R p) as [k|] eqn:Ek; [|done].
  destruct (Hgrow R) as [k' Hk']; [by rewrite Ek|]. by rewrite Hk'.
Qed.

(** Without the option to update existing blocks an iteration leaves every
    signature that was in the buffer in the buffer. *)
Lemma processComponent_keeps_signature docs st c (sig : jsstr) :
  nl ∉ sig →
  is_Some (indexOf (content st) sig) →
  is_Some (indexOf (content (processComponent false docs st c)) sig).
Proof.
  intros Hsig Hin. unfold processComponent.
  destruct (usableDocString _) as [doc|]; [|done].
  rewrite findComponentPosition_eq.
  destruct (indexOf (content st) (getComponentSignature c)) as [i|]; [|done].
  cbn [fmap option_fmap option_map start].
  destruct (findExistingDocString _ _); [done|].
  cbn [countSuccess content]. rewrite !substring_0. unfold substringFrom.
  fold (lineStartOf (take (lineStartOf (take i (content st))) (content st))).
  destruct (lineStartOf_take (content st) i) as (P & M & _ & HP & _ & -> & HtP).
  rewrite HtP, lineStartOf_boundary, HtP by done.
  rewrite (app_assoc doc [nl]).
  apply (indexOf_insert_some P (drop (length P) (content st)) (doc ++ [nl]));
    [done..|].
  rewrite <- HtP at 1. by rewrite take_drop.
Qed.

Lemma processComponent_found u docs st c :
  is_Some (findComponentPosition (content st) c) →
  failed (processComponent u docs st c) = failed st.
Proof.
  intros [pos Hpos]. unfold processComponent. rewrite Hpos.
  destruct (usableDocString _); [|done].
  destruct (findExistingDocString _ _); [by destruct u|done].
Qed.

Lemma processComponents_no_failure docs (l : list Component) (st : LoopState) :
  (∀ c, c ∈ l → is_Some (findComponentPosition (content st) c)) →
  failed (foldl (processComponent false docs) st l) = failed st.
Proof.
  revert st. induction l as [|c l IH]; intros st Hall; [done|].
  cbn [foldl]. rewrite IH.
  - apply processComponent_found, Hall. by left.
  - intros c' Hc'. specialize (Hall c' ltac:(by right)).
    rewrite findComponentPosition_eq in *.
    apply fmap_is_Some. apply fmap_is_Some in Hall.
    by apply processComponent_keeps_signature; [apply signature_no_nl|].
Qed.

(** X23: when the signature of every component is in the text read, a pass
    without the option to update existing blocks counts no failure: what it
    inserts never hides a signature that is still to be looked for. *)
Theorem patchFile_no_failure originalContent components docs :
  (∀ c, c ∈ components →
     is_Some (findComponentPosition originalContent c)) →
  failed (patchFile originalContent components docs false) = 0.
Proof.
  intros Hall. rewrite patchFile_eq, processComponents_no_failure; [done|].
  intros c Hc. apply Hall. by apply sort_elem in Hc.
Qed.

Variable extname : jsstr → jsstr.
Variable toLowerCase : jsstr → jsstr.
Variable parse : jsstr → list jsstr → option Node.

Lemma visit_builds absolutePath fileContent relativePath components path
    components' :
  visit absolutePath fileContent relativePath components path
    = Normal components' →
  components' = components
  ∨ ∃ name node type,
      type ∈ componentTags
      ∧ components' = components
          ++ addComponent absolutePath fileContent relativePath []
               name node node type.
Proof.
  unfold visit. destruct path as [node ancestors]. intros H.
  repeat (case_match; simplify_eq; try (by left));
    right; eexists _, _, _; (split; [|reflexivity]);
    unfold componentTags; repeat (first [by left|right]).
Qed.

Lemma visitAll_builds absolutePath fileContent relativePath
    (Q : Component → Prop) :
  (∀ name node type c,
     type ∈ componentTags →
     addComponent absolutePath fileContent relativePath [] name node node type
       = [c] → Q c) →
  ∀ ps components components',
    visitAll absolutePath fileContent relativePath components ps
      = Normal components' →
    Forall Q components → Forall Q components'.
Proof.
  intros HQ ps. induction ps as [|p ps IH]; intros comps comps' H Hall;
    simpl in H.
  - by simplify_eq.
  - destruct (visit _ _ _ comps p) as [comps1|] eqn:Ev; [|done].
    apply (IH _ _ H).
    apply visit_builds in Ev as [->|(name & node & type & Hty & ->)]; [done|].
    apply Forall_app. split; [done|].
    constructor; [by eapply HQ|constructor].
Qed.

Lemma located_inv absolutePath fileContent relativePath (Q : Component → Prop)
    components :
  (∀ name node type c,
     type ∈ componentTags →
     addComponent absolutePath fileContent relativePath [] name node node type
       = [c] → Q c) →
  extractComponentsFromFile extname toLowerCase parse
    absolutePath fileContent relativePath = Normal components →
  ∀ c, c ∈ components → Q c.
Proof.
  intros HQ H c Hc.
  apply extract_inv in H as [->|(ast & found & Hv & ->)];
    [by apply elem_of_nil in Hc|].
  apply sort_elem in Hc.
  apply (visitAll_builds _ _ _ Q HQ) in Hv; [|constructor].
  rewrite Forall_forall in Hv. by apply Hv.
Qed.

(** X24: what every located component carries: the paths it was called
    with, the text between its two positions as its code, the line and
    column of its start, the comment that precedes its start if there is
    one, and one of the five tags as its type, never the default one. *)
Theorem located_fields absolutePath fileContent relativePath components :
  extractComponentsFromFile extname toLowerCase parse
    absolutePath fileContent relativePath = Normal components →
  ∀ c, c ∈ components →
    file c = relativePath ∧ filePath c = absolutePath
    ∧ code c = substring fileContent (startPos c) (endPos c)
    ∧ location c = getLineAndColumn fileContent (startPos c)
    ∧ existingComment c
      = comment <$> findPrecedingComment fileContent (startPos c)
    ∧ commentStart c
      = commentStartIndex <$> findPrecedingComment fileContent (startPos c)
    ∧ commentEnd c
      = commentEndIndex <$> findPrecedingComment fileContent (startPos c)
    ∧ type c ∈ componentTags.
Proof.
  apply located_inv. intros name node type c Hty Hc.
  unfold addComponent in Hc. cbn [app] in Hc. injection Hc as <-.
  by cbn.
Qed.

(** X25: a first pass over the text the components were located in,
    without the option to update existing blocks, counts no failure. *)
Theorem located_patch_no_failure absolutePath fileContent relativePath
    components docs :
  extractComponentsFromFile extname toLowerCase parse
    absolutePath fileContent relativePath = Normal components →
  failed (patchFile fileContent components docs false) = 0.
Proof.
  intros H. rewrite patchFile_eq, processComponents_no_failure; [done|].
  intros c Hc. apply sort_elem in Hc. cbn [content]. revert c Hc.
  eapply located_inv; [|exact H].
  intros name node type c _ Hc.
  unfold addComponent in Hc. cbn [app] in Hc. injection Hc as <-.
  edestruct (signature_found fileContent) as (position & Hp & _);
    [|by eexists].
  reflexivity.
Qed.

End NoFailure.

(** ** The fallback text *)

Section Fallback.
Import JS Generator Batch.

Lemma hasPair_absent (x y : ascii) (s : jsstr) :
  x ∉ s → hasPair x y s = false.
Proof.
  induction s as [|a s IH]; [done|]. intros [Ha Hs]%not_elem_of_cons.
  destruct (hasPair x y (a :: s)) eqn:E; [|done].
  apply hasPair_cons in E as [[-> _]|E]; [done|]. by rewrite IH in E.
Qed.

Lemma hasPair_after (x y : ascii) (s t : jsstr) :
  hasPair x y s = false → head t ≠ Some y → hasPair x y t = false →
  hasPair x y (s ++ t) = false.
Proof.
  intros Hs Hh Ht. destruct (hasPair x y (s ++ t)) eqn:E; [|done].
  apply hasPair_app in E as [E|[E|[_ E]]]; congruence.
Qed.

Lemma hasPair_before (x y : ascii) (s t : jsstr) :
  hasPair x y s = false → last s ≠ Some x → hasPair x y t = false →
  hasPair x y (s ++ t) = false.
Proof.
  intros Hs Hl Ht. destruct (hasPair x y (s ++ t)) eqn:E; [|done].
  apply hasPair_app in E as [E|[E|[E _]]]; congruence.
Qed.

Lemma hasPair_cons_other (x y a : ascii) (t : jsstr) :
  a ≠ x → hasPair x y t = false → hasPair x y (a :: t) = false.
Proof.
  intros Ha Ht. destruct (hasPair x y (a :: t)) eqn:E; [|done].
  apply hasPair_cons in E as [[E _]|E]; congruence.
Qed.

Lemma digits_no_slash (d : Decimal.uint) :
  "/"%char ∉ list_ascii_of_string (NilEmpty.string_of_uint d).
Proof.
  induction d; simpl; [apply not_elem_of_nil|..];
    (apply not_elem_of_cons; split; [done|assumption]).
Qed.

Lemma numberToString_no_slash (n : nat) :
  "/"%char ∉ Locator.numberToString n.
Proof.
  unfold Locator.numberToString, js, NilZero.string_of_uint.
  destruct (Nat.to_uint n) eqn:E; try apply digits_no_slash.
  simpl. apply not_elem_of_cons. split; [done|apply not_elem_of_nil].
Qed.

Lemma generateBasicDocString_no_slashes componentName filePath location
    componentType :
  hasPair "/" "/" componentName = false →
  hasPair "/" "/" filePath = false →
  hasPair "/" "/" componentType = false →
  hasPair "/" "/"
    (generateBasicDocString componentName filePath location componentType)
  = false.
Proof.
  intros Hname Hpath Htype.
  pose proof (hasPair_absent "/" "/" _
                (numberToString_no_slash (line location))) as Hline.
  pose proof (hasPair_absent "/" "/" _
                (numberToString_no_slash (column location))) as Hcolumn.
  unfold generateBasicDocString.
  repeat first
    [ reflexivity
    | apply hasPair_after;
        [assumption|solve [intros Hx; vm_compute in Hx; discriminate Hx]|]
    | apply hasPair_before;
        [reflexivity|solve [intros Hx; vm_compute in Hx; discriminate Hx]|]
    | apply hasPair_cons_other; [done|] ].
Qed.

Context {Client : Type}.
Variable generateDocStringWithOpenAI :
  Client → jsstr → jsstr → Location → jsstr → jsstr → option jsstr.

(** X26: without a client the entry stored for a component, under its id,
    is a skip without a text when existing comments are to be skipped and
    the component has one, and otherwise the sanitized fallback text of
    [generateBasicDocString], not skipped; when name, file and type of the
    component hold no two slashes in a row, that text is a block whose only
    close marker is the one at its end. *)
Theorem offline_entry_closed (options : Batch.Options) (c : Component) :
  hasPair "/" "/" (name c) = false →
  hasPair "/" "/" (file c) = false →
  hasPair "/" "/" (type c) = false →
  let entry := batchEntry generateDocStringWithOpenAI None options c in
  let fallback :=
    generateBasicDocString (name c) (file c) (location c)
      (match type c with [] => js "Component" | _ :: _ => type c end) in
  entry.1 = uniqueId c
  ∧ closedAtEnd (sanitizeDocString fallback)
  ∧ (skipExisting options = true
     ∧ (∃ x e, existingComment c = Some (x :: e)) →
     entry.2 = {| docstring := None; skipped := true; error := None |})
  ∧ (skipExisting options = false
     ∨ existingComment c = None ∨ existingComment c = Some [] →
     entry.2 = {| docstring := Some (sanitizeDocString fallback);
                  skipped := false; error := None |}).
Proof.
  intros Hname Hfile Htype. cbn zeta. split_and!.
  - unfold batchEntry. by destruct (_ && _).
  - apply sanitize_closed, generateBasicDocString_no_slashes; [done..|].
    by destruct (type c).
  - intros [Hskip (x & e & Hc)]. unfold batchEntry. by rewrite Hskip, Hc.
  - intros Hcase. unfold batchEntry.
    assert (Htest : skipExisting options
                    && match existingComment c with
                       | Some (_ :: _) => true
                       | _ => false
                       end = false).
    { destruct Hcase as [->|[->| ->]]; [done|..];
        by destruct (skipExisting options). }
    rewrite Htest. cbn [snd]. by destruct (type c).
Qed.

End Fallback.

(** ** The two counts of skipped components *)

Section SkipCounts.
Import JS Updater.

Context {FS : Type}.
Variable readFile : jsstr → FS → option jsstr.
Variable writeFile : jsstr → jsstr → FS → FS * bool.

Lemma processComponent_marked u docs st c :
  markedSkipped docs c = true →
  processComponent u docs st c = countSkipped st.
Proof.
  unfold markedSkipped, processComponent, usableDocString.
  destruct (docs !! uniqueId c) as [r|]; [|done]. intros ->.
  by destruct (docstring r) as [[|x d]|].
Qed.

Lemma processComponents_skips u docs (l : list Component) (st : LoopState) :
  skippedCount st + length (List.filter (markedSkipped docs) l)
  ≤ skippedCount (foldl (processComponent u docs) st l).
Proof.
  revert st. induction l as [|c l IH]; intros st; cbn [foldl List.filter].
  - simpl. lia.
  - etrans; [|apply IH].
    destruct (markedSkipped docs c) eqn:E.
    + rewrite processComponent_marked by done. simpl. lia.
    + destruct (processComponent_cases u docs st c) as [->|[->|[? ->]]];
        simpl; lia.
Qed.

Lemma filter_length_perm {A} (f : A → bool) (l l' : list A) :
  l ≡ₚ l' → length (List.filter f l) = length (List.filter f l').
Proof.
  induction 1 as [|x l l' _ IH|x y l|l l' l'' _ IH1 _ IH2]; simpl.
  - done.
  - destruct (f x); simpl; lia.
  - destruct (f x), (f y); simpl; lia.
  - lia.
Qed.

(** X28: in a real run without a read or write error, the components
    whose generated entry is marked as skipped, which are the ones
    [updateFilesWithDocStrings] counts as skipped, are among those the
    pass skips: they are neither successes nor failures. *)
Theorem marked_skipped_not_patched filePath components docStrings options fs
    originalContent :
  isDryRun options = false →
  readFile filePath fs = Some originalContent →
  let st := patchFile originalContent components docStrings
              (updateExisting options) in
  (modified st = true → (writeFile filePath (content st) fs).2 = true) →
  let r :=
    (updateFileWithDocStrings readFile writeFile filePath components
       docStrings options fs).1 in
  resultSuccess r + resultFailed r
    + length (List.filter (markedSkipped docStrings) components)
  ≤ length components.
Proof.
  intros Hdry Hread st Hwrite r.
  pose proof (patchFile_counts originalContent components docStrings
                (updateExisting options)) as Hsum. cbn zeta in Hsum.
  fold st in Hsum.
  assert (Hskip : length (List.filter (markedSkipped docStrings) components)
                  ≤ skippedCount st).
  { subst st. rewrite patchFile_eq.
    rewrite (filter_length_perm _ components
               (sort byStartDescending components))
      by (symmetry; apply sort_perm).
    apply (processComponents_skips _ _ _
             {| content := originalContent; modified := false;
                success := 0; failed := 0; skippedCount := 0 |}). }
  assert (Hr : resultSuccess r = success st ∧ resultFailed r = failed st).
  { subst r. unfold updateFileWithDocStrings. rewrite Hdry, Hread. fold st.
    destruct (modified st) eqn:Em; [|done].
    specialize (Hwrite eq_refl).
    destruct (writeFile filePath (content st) fs) as [fs' ok]; simpl in *.
    by subst ok. }
  destruct Hr as [-> ->]. lia.
Qed.

End SkipCounts.

(** ** The further properties at the sample files *)

Section AtMoreSamples.
Import JS Generator Updater Locator Batch Scanner Samples.

(** The second of six characters replaced by two: the fifth character is
    then the sixth. *)
Lemma adjustPosition_tracks_witness :
  Z.to_nat (adjustPosition 4 2 1 2) = 4 - 1 + 2
  ∧ drop (Z.to_nat (adjustPosition 4 2 1 2)) (js "abXYdef")
    = drop 4 (js "abcdef").
Proof.
  destruct (adjustPosition_tracks (js "abcdef") (js "XY") 2 1 4) as [_ H].
  - vm_compute. lia.
  - unfold safeInteger. vm_compute. split; discriminate.
  - unfold safeInteger. vm_compute. split; discriminate.
  - apply H; lia.
Defined.

Lemma adjustPosition_undo_witness :
  adjustPosition (adjustPosition 10 3 2 5) 3 5 2 = 10%Z.
Proof.
  apply adjustPosition_undo; unfold safeInteger; lia.
Defined.

(** Beyond the safe integers the addition rounds: a position of 2^53 is
    not moved by an insertion of one character, and undoing that insertion
    moves it back by one. *)
Example adjustPosition_rounds :
  adjustPosition (2 ^ 53) 0 0 1 = (2 ^ 53)%Z
  ∧ adjustPosition (adjustPosition (2 ^ 53) 0 0 1) 0 1 0 = (2 ^ 53 - 1)%Z.
Proof. by vm_compute. Qed.

Lemma findPrecedingComment_span_witness :
  ∃ W,
    take 12 documentedFoo
      = take (commentStartIndex oldComment) documentedFoo
          ++ comment oldComment ++ W
    ∧ blank W
    ∧ commentEndIndex oldComment
      = commentStartIndex oldComment + length (comment oldComment)
    ∧ commentEndIndex oldComment ≤ 12
    ∧ startsWith (comment oldComment) (js "/**") = true
    ∧ endsWith (comment oldComment) (js "*/") = true.
Proof. apply findPrecedingComment_span. reflexivity. Defined.

Lemma sanitizeDocString_closed_witness :
  closedAtEnd (sanitizeDocString (js "/** Shows a/b. */ Done.")).
Proof. apply sanitizeDocString_closed. reflexivity. Defined.

Lemma findComponentPosition_line_witness :
  lineBoundary (take 21 twoLines) ∧ nl ∉ substring twoLines 21 41.
Proof.
  destruct (findComponentPosition_line twoLines bar
              {| start := 21; signatureStart := 21; signatureEnd := 41 |})
    as (_ & _ & _ & _ & Hline & Hnl).
  - reflexivity.
  - split; [exact Hline|exact Hnl].
Defined.

Lemma findComponentPosition_original_witness :
  ∃ position,
    findComponentPosition twoLines bar = Some position
    ∧ signatureEnd position
      ≤ startPos bar + length (firstLine (code bar)).
Proof.
  apply findComponentPosition_original.
  - vm_compute. lia.
  - reflexivity.
Defined.

Lemma updateFile_modified_written_witness :
  ∃ originalContent,
    readOne samplePath twoLines = Some originalContent
    ∧ 0 < success (patchFile originalContent [foo; bar] fooBarDocs false)
    ∧ writeOne samplePath
        (content (patchFile originalContent [foo; bar] fooBarDocs false))
        twoLines
      = (twoLinesPatched, true).
Proof.
  destruct (updateFile_modified_written readOne writeOne samplePath [foo; bar]
              fooBarDocs {| isDryRun := false; updateExisting := false |}
              twoLines) as [_ H].
  - reflexivity.
  - exact H.
Defined.

Lemma updateFile_nothing_to_apply_witness :
  (updateFileWithDocStrings readOne writeOne samplePath [foo; bar] ∅
     {| isDryRun := false; updateExisting := false |} twoLines).2 = twoLines.
Proof.
  destruct (updateFile_nothing_to_apply readOne writeOne samplePath [foo; bar]
              ∅ {| isDryRun := false; updateExisting := false |} twoLines)
    as [H _].
  - intros c _. reflexivity.
  - exact H.
Defined.

Lemma processBatch_docForm_witness :
  docForm
    (sanitizeDocString
       (generateBasicDocString (name foo) (file foo) (location foo)
          (type foo))).
Proof.
  apply (processBatch_docForm noCall [foo] None oneByOne foo).
  reflexivity.
Defined.

Lemma generateDocStrings_result_witness :
  generateDocStrings noCall fooBarByFile None oneByOne 2
  = Some (processBatch noCall [foo; bar] None oneByOne).
Proof.
  apply (generateDocStrings_result noCall fooBarByFile oneByOne 2).
  - reflexivity.
  - vm_compute. lia.
Defined.

Lemma generateDocStrings_no_progress_witness :
  generateDocStrings noCall fooBarByFile None noBatch 1000 = None.
Proof.
  apply generateDocStrings_no_progress.
  - vm_compute. discriminate.
  - vm_compute. lia.
Defined.

Lemma loadGitignore_patterns_witness :
  existsAlways (joinPaths (js "/project") (js ".gitignore")) gitignoreText
  = true
  ∧ (∃ content line,
       readOne (joinPaths (js "/project") (js ".gitignore")) gitignoreText
       = Some content
       ∧ line ∈ splitLines content ∧ js "node_modules" = trim line)
  ∧ js "node_modules" ≠ [] ∧ (nl ∉ js "node_modules")
  ∧ startsWith (js "node_modules") (js "#") = false
  ∧ (∃ c, head (js "node_modules") = Some c ∧ isWhiteSpace c = false)
  ∧ (∃ c, last (js "node_modules") = Some c ∧ isWhiteSpace c = false).
Proof.
  apply (loadGitignore_patterns joinPaths existsAlways readOne (js "/project")
           gitignoreText (js "node_modules")).
  assert (E : loadGitignore joinPaths existsAlways readOne (js "/project")
                gitignoreText = [js "node_modules"; js "!keep"])
    by reflexivity.
  rewrite E. by left.
Defined.

Lemma existing_doc_offset_witness :
  ∃ e, findExistingDocString documentedFoo 12 = Some e
       ∧ comment oldComment = docContent e
       ∧ commentStartIndex oldComment
         = length (take 12 documentedFoo)
           - length (trimStart (take 12 documentedFoo)) + docStart e
       ∧ commentEndIndex oldComment
         = length (take 12 documentedFoo)
           - length (trimStart (take 12 documentedFoo)) + docEnd e.
Proof. apply existing_doc_offset. reflexivity. Defined.

Lemma patchFile_no_failure_witness :
  failed (patchFile twoLines [foo; bar] fooBarDocs false) = 0.
Proof.
  apply patchFile_no_failure.
  intros c [->|[->|Hc]%elem_of_cons]%elem_of_cons;
    [by eexists|by eexists|by apply elem_of_nil in Hc].
Defined.

Lemma located_fields_witness :
  file bar = js "a.js" ∧ filePath bar = samplePath
  ∧ code bar = substring twoLines (startPos bar) (endPos bar)
  ∧ location bar = getLineAndColumn twoLines (startPos bar)
  ∧ existingComment bar
    = comment <$> findPrecedingComment twoLines (startPos bar)
  ∧ commentStart bar
    = commentStartIndex <$> findPrecedingComment twoLines (startPos bar)
  ∧ commentEnd bar
    = commentEndIndex <$> findPrecedingComment twoLines (startPos bar)
  ∧ type bar ∈ componentTags.
Proof.
  apply (located_fields extnameJs lowerCased (parseOnly twoLines fooBarAst)
           samplePath twoLines (js "a.js") [foo; bar]).
  - reflexivity.
  - right. left.
Defined.

Lemma located_patch_no_failure_witness :
  failed (patchFile twoLines [foo; bar] fooBarDocs false) = 0.
Proof.
  apply (located_patch_no_failure extnameJs lowerCased
           (parseOnly twoLines fooBarAst) samplePath twoLines (js "a.js")).
  reflexivity.
Defined.

Lemma offline_entry_closed_witness :
  (batchEntry noCall None oneByOne foo).2
  = {| docstring :=
         Some (sanitizeDocString
                 (generateBasicDocString (js "Foo") (js "a.js")
                    {| line := 1; column := 1 |}
                    (js "ArrowFunctionComponent")));
       skipped := false; error := None |}
  ∧ closedAtEnd
      (sanitizeDocString
         (generateBasicDocString (js "Foo") (js "a.js")
            {| line := 1; column := 1 |} (js "ArrowFunctionComponent"))).
Proof.
  destruct (offline_entry_closed noCall oneByOne foo) as (_ & Hc & _ & Ht);
    [reflexivity..|].
  split; [apply Ht; by left|exact Hc].
Defined.

Lemma processComponent_replace_exact_witness :
  ∃ A W rest,
    content atTop = A ++ docContent oldBlock ++ W ++ rest
    ∧ blank W
    ∧ take (lineStartOf (take 11 (content atTop))) (content atTop)
      = A ++ docContent oldBlock ++ W
    ∧ content (processComponent true newDocsAtTop atTop fooLine2)
      = A ++ newDoc ++ W ++ rest.
Proof.
  apply (processComponent_replace_exact newDocsAtTop atTop fooLine2 newDoc 11
           oldBlock).
  - reflexivity.
  - reflexivity.
  - reflexivity.
  - intros x rest [= <- _]. reflexivity.
Defined.

(** [Bar] is marked as skipped: one success, no failure, one component
    marked. *)
Lemma marked_skipped_not_patched_witness :
  length (List.filter (markedSkipped skippingDocs) [foo; bar]) = 1
  ∧ resultSuccess
      (updateFileWithDocStrings readOne writeOne samplePath [foo; bar]
         skippingDocs {| isDryRun := false; updateExisting := false |}
         twoLines).1
    + resultFailed
        (updateFileWithDocStrings readOne writeOne samplePath [foo; bar]
           skippingDocs {| isDryRun := false; updateExisting := false |}
           twoLines).1
    + length (List.filter (markedSkipped skippingDocs) [foo; bar])
    ≤ length [foo; bar].
Proof.
  split; [reflexivity|].
  apply (marked_skipped_not_patched readOne writeOne samplePath [foo; bar]
           skippingDocs {| isDryRun := false; updateExisting := false |}
           twoLines twoLines).
  - reflexivity.
  - reflexivity.
  - reflexivity.
Defined.

End AtMoreSamples.
